(** * Karp-Miller coverability tree: a shallow embedding of [code.py]

    The development follows the Python source class by class:
    [PetriNetwork] (enabling and firing), [CoverabilityTree]
    (marking comparison, omega acceleration, the work-queue loop of
    [build_tree], the report of [analyze_properties]).  Python lists that
    are updated by index are lists with stdpp's lookup and insert, dicts are
    insertion-ordered association lists, exceptions are an explicit error
    monad, and the node objects of the tree live in an arena addressed by
    position.  Python ints are unbounded integers and omega is
    [float('inf')]: comparing it with an int is exact, adding or subtracting
    an int converts the int to a float first, and [str] of an int is limited
    in the number of digits. *)

From Stdlib Require Import ZArith Lia.
From stdpp Require Import base list strings pretty gmap.

Local Open Scope Z_scope.
Local Open Scope nat_scope.

(** ** Marking values

    A marking entry is a Python [int] or [float('inf')]. *)

Inductive mval : Type :=
  | Fin (n : Z)
  | Omega.

#[global] Instance mval_eq_dec : EqDecision mval.
Proof. solve_decision. Defined.

#[global] Instance mval_inhabited : Inhabited mval := populate (Fin 0).

Abbreviation Marking := (list mval).

(** [m == float('inf')] *)
Definition is_inf (v : mval) : bool :=
  match v with Omega => true | Fin _ => false end.

(** [v < weight], [v > w] and [v < w] on marking entries.  Python compares
    an int with [inf] exactly: [inf] is above every int. *)
Definition mval_lt_weight (v : mval) (weight : Z) : bool :=
  match v with Fin n => (n <? weight)%Z | Omega => false end.

Definition mval_gtb (a b : mval) : bool :=
  match a, b with
  | Fin x, Fin y => (y <? x)%Z
  | Omega, Fin _ => true
  | _, Omega => false
  end.

Definition mval_ltb (a b : mval) : bool := mval_gtb b a.

Definition all_finite (m : Marking) : Prop := Forall (λ v, is_inf v = false) m.

(** ** Exceptions *)

Inductive exn : Type :=
  | ValueError_not_in_list (place : string)   (* [places.index(place)] *)
  | IndexError                                (* list index out of range *)
  | KeyError (key : string)                   (* missing dict key *)
  | ValueError_cannot_be_fired (transition : string) (* fire_transition *)
  | OverflowError                  (* int too large to convert to float *)
  | ValueError_int_max_str_digits  (* [str] of an int with too many digits *)
  | AttributeError                 (* an attribute of [None] *)
  | RecursionError.                (* maximum recursion depth exceeded *)

#[global] Instance exn_eq_dec : EqDecision exn.
Proof. solve_decision. Defined.

Inductive res (A : Type) : Type :=
  | Ok (a : A)
  | Raise (e : exn).
Arguments Ok {A} a.
Arguments Raise {A} e.

Definition res_bind {A B} (r : res A) (k : A → res B) : res B :=
  match r with Ok a => k a | Raise e => Raise e end.

Notation "x <- e ;; k" := (res_bind e (λ x, k))
  (at level 100, e at next level, right associativity).

(** ** Arithmetic on marking entries *)

(** The operand of an operation with [inf] is converted to a float,
    rounding to nearest; a weight that rounds beyond the largest float
    cannot be converted. *)
Definition float_overflows (weight : Z) : bool :=
  (2 ^ 1024 - 2 ^ 970 <=? Z.abs weight)%Z.

(** [v - weight] and [v + weight].  On ints the result is exact.  On [inf]
    Python computes in floating point: the result is [inf] again for every
    weight that converts to a float, and [OverflowError] for the others. *)
Definition mval_sub (v : mval) (weight : Z) : res mval :=
  match v with
  | Fin n => Ok (Fin (n - weight))
  | Omega => if float_overflows weight then Raise OverflowError else Ok Omega
  end.

Definition mval_add (v : mval) (weight : Z) : res mval :=
  match v with
  | Fin n => Ok (Fin (n + weight))
  | Omega => if float_overflows weight then Raise OverflowError else Ok Omega
  end.

(** ** Python list and dict primitives *)

(** [l.index(x)]: position of the first occurrence, [ValueError] if absent. *)
Fixpoint index (l : list string) (x : string) : res nat :=
  match l with
  | [] => Raise (ValueError_not_in_list x)
  | y :: l' => if decide (y = x) then Ok 0 else i <- index l' x;; Ok (S i)
  end.

(** [l[i]] for a non-negative [i]. *)
Definition getitem {A} (l : list A) (i : nat) : res A :=
  match l !! i with Some v => Ok v | None => Raise IndexError end.

(** A dict is the list of its items in insertion order; its keys are
    pairwise distinct ([dict_ok]). *)
Abbreviation dict V := (list (string * V)).

Fixpoint dict_get {V} (d : dict V) (k : string) : option V :=
  match d with
  | [] => None
  | (k', v) :: d' => if decide (k' = k) then Some v else dict_get d' k
  end.

Definition dict_ok {V} (d : dict V) : Prop := NoDup d.*1.

(** ** PetriNetwork *)

(** A transition is the dict [{'in': {...}, 'out': {...}}]. *)
Record Transition : Type := {
  tr_in : dict Z;
  tr_out : dict Z;
}.

Record PetriNetwork : Type := {
  places : list string;
  transitions : dict Transition;
  initial_marking : list Z;
}.

Section PetriNetwork.
Context (self : PetriNetwork).

(** The loop of [is_enabled] over the items of the ['in'] dict. *)
Fixpoint is_enabled_items (marking : Marking) (items : dict Z) : res bool :=
  match items with
  | [] => Ok true
  | (place, weight) :: items' =>
      idx <- index (places self) place;;
      v <- getitem marking idx;;
      if mval_lt_weight v weight then Ok false
      else is_enabled_items marking items'
  end.

Definition is_enabled (transition : string) (marking : Marking) : res bool :=
  match dict_get (transitions self) transition with
  | None => Ok false
  | Some tr => is_enabled_items marking (tr_in tr)
  end.

(** [[t for t in self.transitions if self.is_enabled(t, marking)]] *)
Fixpoint filter_enabled (marking : Marking) (names : list string)
  : res (list string) :=
  match names with
  | [] => Ok []
  | t :: names' =>
      b <- is_enabled t marking;;
      l <- filter_enabled marking names';;
      Ok (if b then t :: l else l)
  end.

Definition get_enabled_transitions (marking : Marking) : res (list string) :=
  filter_enabled marking (transitions self).*1.

(** [new_marking[idx] -= weight] over the items of ['in'] *)
Fixpoint remove_tokens (new_marking : Marking) (items : dict Z) : res Marking :=
  match items with
  | [] => Ok new_marking
  | (place, weight) :: items' =>
      idx <- index (places self) place;;
      v <- getitem new_marking idx;;
      v' <- mval_sub v weight;;
      remove_tokens (<[idx := v']> new_marking) items'
  end.

(** [new_marking[idx] += weight] over the items of ['out'] *)
Fixpoint add_tokens (new_marking : Marking) (items : dict Z) : res Marking :=
  match items with
  | [] => Ok new_marking
  | (place, weight) :: items' =>
      idx <- index (places self) place;;
      v <- getitem new_marking idx;;
      v' <- mval_add v weight;;
      add_tokens (<[idx := v']> new_marking) items'
  end.

Definition fire_transition (transition : string) (marking : Marking)
  : res Marking :=
  b <- is_enabled transition marking;;
  if negb b then Raise (ValueError_cannot_be_fired transition)
  else
    match dict_get (transitions self) transition with
    | None => Raise (KeyError transition)
    | Some tr =>
        new_marking <- remove_tokens marking (tr_in tr);;
        add_tokens new_marking (tr_out tr)
    end.
End PetriNetwork.

(** ** CoverabilityTree: comparison and acceleration *)

(** The loop of [compare_markings]: [i] runs over [range(len(m1))], and
    [m2[i]] raises [IndexError] once [m2] is exhausted. *)
Fixpoint compare_loop (m1 m2 : Marking) (coverable equal greater : bool)
  : res (bool * bool * bool) :=
  match m1 with
  | [] => Ok (coverable, equal, greater)
  | a :: m1' =>
      match m2 with
      | [] => Raise IndexError
      | b :: m2' =>
          if is_inf a then
            compare_loop m1' m2' coverable equal
              (if negb (is_inf b) then true else greater)
          else if is_inf b then
            compare_loop m1' m2' false false greater
          else if mval_gtb a b then
            compare_loop m1' m2' coverable false true
          else if mval_ltb a b then
            compare_loop m1' m2' false false greater
          else
            compare_loop m1' m2' coverable equal greater
      end
  end.

Definition compare_markings (m1 m2 : Marking) : res (bool * bool * bool) :=
  compare_loop m1 m2 true true false.

(** [apply_omega]: the copy [result] is overwritten position by position;
    [m_ancestor[i]] is read only when [result[i]] is finite. *)
Fixpoint apply_omega (m_prime m_ancestor : Marking) : res Marking :=
  match m_prime with
  | [] => Ok []
  | a :: m_prime' =>
      if is_inf a then
        r <- apply_omega m_prime' (tail m_ancestor);; Ok (a :: r)
      else
        match m_ancestor with
        | [] => Raise IndexError
        | b :: m_ancestor' =>
            r <- apply_omega m_prime' m_ancestor';;
            Ok ((if negb (is_inf b) && mval_gtb a b then Omega else a) :: r)
        end
  end.

(** ** CoverabilityTree: nodes and the tree under construction *)

Inductive Tag : Type := New | Processed | Old | DeadEnd.

#[global] Instance Tag_eq_dec : EqDecision Tag.
Proof. solve_decision. Defined.

(** A reference to a node object is its position in the arena [nodes]. *)
Abbreviation ref := nat.

Record TreeNode : Type := {
  marking : Marking;
  node_id : nat;
  tag : Tag;
  parent : option ref;
  children : list ref;
  transition : option string;
  path_to_root : list ref;
}.

#[global] Instance TreeNode_inhabited : Inhabited TreeNode :=
  populate {| marking := []; node_id := 0; tag := New; parent := None;
              children := []; transition := None; path_to_root := [] |}.

(** [node.tag = tg] *)
Definition with_tag (tg : Tag) (n : TreeNode) : TreeNode :=
  {| marking := marking n; node_id := node_id n; tag := tg;
     parent := parent n; children := children n;
     transition := transition n; path_to_root := path_to_root n |}.

(** [node.children.append(c)] *)
Definition with_child (c : ref) (n : TreeNode) : TreeNode :=
  {| marking := marking n; node_id := node_id n; tag := tag n;
     parent := parent n; children := children n ++ [c];
     transition := transition n; path_to_root := path_to_root n |}.

(** The fields [self.nodes], [self.edges], [self.root] of the tree object
    and the locals [new_nodes], [node_counter] of [build_tree]. *)
Record build_state : Type := {
  nodes : list TreeNode;
  edges : list (nat * nat * string);
  root : option ref;
  new_nodes : list ref;
  node_counter : nat;
}.

Definition with_nodes (ns : list TreeNode) (st : build_state) : build_state :=
  {| nodes := ns; edges := edges st; root := root st;
     new_nodes := new_nodes st; node_counter := node_counter st |}.

Definition node_at (ns : list TreeNode) (r : ref) : TreeNode := ns !!! r.

Definition set_tag (r : ref) (tg : Tag) (st : build_state) : build_state :=
  with_nodes (alter (with_tag tg) r (nodes st)) st.

(** What one pass of the [while] body leaves behind. *)
Inductive step_result : Type :=
  | Cont (st : build_state)
  | Fail (e : exn) (st : build_state).

(** What [build_tree] leaves behind; [OutOfFuel] is the loop cut short. *)
Inductive outcome : Type :=
  | Done (st : build_state)
  | Raised (e : exn) (st : build_state)
  | OutOfFuel (st : build_state).

Section CoverabilityTree.
Context (petri_net : PetriNetwork).

(** The ancestor loop: [for anc in current.path_to_root[:-1]]. *)
Fixpoint old_check (ns : list TreeNode) (m : Marking) (ancs : list ref)
  : res bool :=
  match ancs with
  | [] => Ok false
  | anc :: ancs' =>
      r <- compare_markings m (marking (node_at ns anc));;
      let '(_, equal, _) := r in
      if (equal : bool) then Ok true else old_check ns m ancs'
  end.

(** [[1000 if m == float('inf') else m for m in current.marking]] *)
Definition firing_marking (cur : Marking) : Marking :=
  (λ m, if is_inf m then Fin 1000 else m) <$> cur.

(** [for i, m in enumerate(current.marking): if m == inf: m_prime[i] = inf] *)
Fixpoint restore_omega (i : nat) (cur : Marking) (m_prime : Marking)
  : res Marking :=
  match cur with
  | [] => Ok m_prime
  | m :: cur' =>
      if is_inf m then
        if decide (i < length m_prime)
        then restore_omega (S i) cur' (<[i := Omega]> m_prime)
        else Raise IndexError
      else restore_omega (S i) cur' m_prime
  end.

(** Lines 149-154: substitute, fire, restore. *)
Definition fire_step (t : string) (cur : Marking) : res Marking :=
  m_prime <- fire_transition petri_net t (firing_marking cur);;
  restore_omega 0 cur m_prime.

(** Lines 157-161: [for anc in current.path_to_root] with [break]. *)
Fixpoint omega_walk (ns : list TreeNode) (m_prime : Marking) (path : list ref)
  : res Marking :=
  match path with
  | [] => Ok m_prime
  | anc :: path' =>
      r <- compare_markings m_prime (marking (node_at ns anc));;
      let '(coverable, equal, _) := r in
      if (coverable : bool) && negb equal
      then apply_omega m_prime (marking (node_at ns anc))
      else omega_walk ns m_prime path'
  end.

(** The marking of the child reached from [cur] by [t]. *)
Definition successor (ns : list TreeNode) (cur : TreeNode) (t : string)
  : res Marking :=
  m_prime <- fire_step t (marking cur);;
  omega_walk ns m_prime (path_to_root cur).

(** Lines 164-172: create the child, link it, enqueue it. *)
Definition add_node (current : ref) (t : string) (m_prime : Marking)
    (st : build_state) : build_state :=
  let cur := node_at (nodes st) current in
  let new_ref := length (nodes st) in
  let new_node :=
    {| marking := m_prime; node_id := node_counter st; tag := New;
       parent := Some current; children := []; transition := Some t;
       path_to_root := path_to_root cur ++ [new_ref] |} in
  {| nodes := alter (with_child new_ref) current (nodes st) ++ [new_node];
     edges := edges st ++ [(node_id cur, node_counter st, t)];
     root := root st;
     new_nodes := new_nodes st ++ [new_ref];
     node_counter := S (node_counter st) |}.

(** [for t in enabled: ...] *)
Fixpoint expand (current : ref) (enabled : list string) (st : build_state)
  : step_result :=
  match enabled with
  | [] => Cont st
  | t :: enabled' =>
      match successor (nodes st) (node_at (nodes st) current) t with
      | Raise e => Fail e st
      | Ok m_prime => expand current enabled' (add_node current t m_prime st)
      end
  end.

(** One pass of the body of [while new_nodes]. *)
Definition iteration (st : build_state) : step_result :=
  match new_nodes st with
  | [] => Cont st
  | current :: rest =>
      let st1 :=
        set_tag current Processed
          {| nodes := nodes st; edges := edges st; root := root st;
             new_nodes := rest; node_counter := node_counter st |} in
      let cur := node_at (nodes st1) current in
      match old_check (nodes st1) (marking cur)
              (removelast (path_to_root cur)) with
      | Raise e => Fail e st1
      | Ok true => Cont (set_tag current Old st1)
      | Ok false =>
          match get_enabled_transitions petri_net (marking cur) with
          | Raise e => Fail e st1
          | Ok [] => Cont (set_tag current DeadEnd st1)
          | Ok enabled => expand current enabled st1
          end
      end
  end.

(** Lines 120-127. *)
Definition init_state : build_state :=
  {| nodes := [ {| marking := Fin <$> initial_marking petri_net;
                   node_id := 0; tag := New; parent := None;
                   children := []; transition := None;
                   path_to_root := [0] |} ];
     edges := []; root := Some 0; new_nodes := [0]; node_counter := 1 |}.

Fixpoint build_loop (fuel : nat) (st : build_state) : outcome :=
  match new_nodes st with
  | [] => Done st
  | _ :: _ =>
      match fuel with
      | 0 => OutOfFuel st
      | S fuel' =>
          match iteration st with
          | Cont st' => build_loop fuel' st'
          | Fail e st' => Raised e st'
          end
      end
  end.

Definition build_tree (fuel : nat) : outcome := build_loop fuel init_state.


End CoverabilityTree.





(** [analyze_properties] scans every node; the three lines of text it
    returns are determined by the four values collected here. *)
Record report : Type := {
  bounded : bool;
  unbounded_places : list string;
  dead_end_nodes : list nat;
  old_nodes : list nat;
}.

(** [for i, m in enumerate(node.marking)] *)
Fixpoint scan_marking (pl : list string) (i : nat) (m : Marking)
    (bnd : bool) (unb : list string) : res (bool * list string) :=
  match m with
  | [] => Ok (bnd, unb)
  | v :: m' =>
      if is_inf v then
        place_name <- getitem pl i;;
        scan_marking pl (S i) m' false
          (if decide (place_name ∈ unb) then unb else unb ++ [place_name])
      else scan_marking pl (S i) m' bnd unb
  end.

(** [for node in self.nodes] *)
Fixpoint scan_nodes (pl : list string) (ns : list TreeNode) (r : report)
  : res report :=
  match ns with
  | [] => Ok r
  | node :: ns' =>
      bu <- scan_marking pl 0 (marking node) (bounded r) (unbounded_places r);;
      scan_nodes pl ns'
        {| bounded := bu.1; unbounded_places := bu.2;
           dead_end_nodes :=
             if decide (tag node = DeadEnd)
             then dead_end_nodes r ++ [node_id node] else dead_end_nodes r;
           old_nodes :=
             if decide (tag node = Old)
             then old_nodes r ++ [node_id node] else old_nodes r |}
  end.

Definition analyze_properties (petri_net : PetriNetwork) (st : build_state)
  : res report :=
  scan_nodes (places petri_net) (nodes st)
    {| bounded := true; unbounded_places := [];
       dead_end_nodes := []; old_nodes := [] |}.

(** ** The store of list objects

    [fire_transition] and [apply_omega] work on a [copy.deepcopy] of their
    argument and overwrite the copy by index.  Here the lists are objects
    in a store and the two functions take and return addresses. *)
Module Heap.
Abbreviation loc := positive.
Abbreviation heap := (gmap positive Marking).

Definition alloc (m : Marking) (h : heap) : loc * heap :=
  let l := fresh (dom h) in (l, <[l := m]> h).

(** The entries are immutable numbers: a deep copy is a new list object
    with the same entries. *)
Definition deepcopy (l : loc) (h : heap) : loc * heap := alloc (h !!! l) h.

(** [obj[i] = v] *)
Definition setitem (l : loc) (i : nat) (v : mval) (h : heap) : heap :=
  <[l := <[i := v]> (h !!! l)]> h.

Section PetriNetwork.
Context (self : PetriNetwork).

Fixpoint remove_tokens (new_marking : loc) (items : dict Z) (h : heap)
  : res heap :=
  match items with
  | [] => Ok h
  | (place, weight) :: items' =>
      idx <- index (places self) place;;
      v <- getitem (h !!! new_marking) idx;;
      v' <- mval_sub v weight;;
      remove_tokens new_marking items' (setitem new_marking idx v' h)
  end.

Fixpoint add_tokens (new_marking : loc) (items : dict Z) (h : heap)
  : res heap :=
  match items with
  | [] => Ok h
  | (place, weight) :: items' =>
      idx <- index (places self) place;;
      v <- getitem (h !!! new_marking) idx;;
      v' <- mval_add v weight;;
      add_tokens new_marking items' (setitem new_marking idx v' h)
  end.

Definition fire_transition (transition : string) (marking : loc) (h : heap)
  : res (loc * heap) :=
  b <- is_enabled self transition (h !!! marking);;
  if negb b then Raise (ValueError_cannot_be_fired transition)
  else
    let '(new_marking, h1) := deepcopy marking h in
    match dict_get (transitions self) transition with
    | None => Raise (KeyError transition)
    | Some tr =>
        h2 <- remove_tokens new_marking (tr_in tr) h1;;
        h3 <- add_tokens new_marking (tr_out tr) h2;;
        Ok (new_marking, h3)
    end.
End PetriNetwork.

(** [for i in range(len(result))] with the range already evaluated. *)
Fixpoint apply_omega_range (result m_ancestor : loc) (range : list nat)
    (h : heap) : res heap :=
  match range with
  | [] => Ok h
  | i :: range' =>
      r_i <- getitem (h !!! result) i;;
      if is_inf r_i then apply_omega_range result m_ancestor range' h
      else
        a_i <- getitem (h !!! m_ancestor) i;;
        if negb (is_inf a_i) && mval_gtb r_i a_i
        then apply_omega_range result m_ancestor range'
               (setitem result i Omega h)
        else apply_omega_range result m_ancestor range' h
  end.

Definition apply_omega (m_prime m_ancestor : loc) (h : heap)
  : res (loc * heap) :=
  let '(result, h1) := deepcopy m_prime h in
  h2 <- apply_omega_range result m_ancestor
          (seq 0 (length (h1 !!! result))) h1;;
  Ok (result, h2).
End Heap.

(** The exceptions of a lookup: an unknown place or a position out of range. *)
Definition lookup_error (e : exn) : Prop :=
  e = IndexError ∨ ∃ p, e = ValueError_not_in_list p.

(** ** Validated nets (section 6 of the specification) *)

Definition valid_weights (pl : list string) (d : dict Z) : Prop :=
  dict_ok d ∧ Forall (λ pw, pw.1 ∈ pl ∧ (0 < pw.2)%Z) d.

Record valid_net (net : PetriNetwork) : Prop := {
  vn_places : NoDup (places net);
  vn_nonempty : places net ≠ [];
  vn_length : length (initial_marking net) = length (places net);
  vn_nonneg : Forall (λ n, (0 <= n)%Z) (initial_marking net);
  vn_names : dict_ok (transitions net);
  vn_weights :
    Forall (λ ttr, valid_weights (places net) (tr_in ttr.2)
                   ∧ valid_weights (places net) (tr_out ttr.2))
      (transitions net);
}.

(** Every place named in a weight map is found by [places.index] at a
    position the initial marking has. *)
Definition items_ok (net : PetriNetwork) (items : dict Z) : Prop :=
  Forall (λ pw, ∃ i, index (places net) pw.1 = Ok i
                     ∧ i < length (initial_marking net)) items.

Definition lookups_ok (net : PetriNetwork) : Prop :=
  Forall (λ ttr, items_ok net (tr_in ttr.2 ++ tr_out ttr.2)) (transitions net).

(** ** The extended order and the closed forms the specification states

    These follow the words of sections 4.1 and 4.2 and are compared below
    with what the code computes. *)

(** [a >= b]: omega is above everything, a finite value is below omega. *)
Definition mval_ge (a b : mval) : Prop :=
  match a, b with
  | _, Omega => a = Omega
  | Omega, Fin _ => True
  | Fin x, Fin y => (y <= x)%Z
  end.

#[global] Instance mval_ge_dec a b : Decision (mval_ge a b).
Proof. destruct a, b; simpl; apply _. Defined.

(** [coverable]: every component of [m1] is at least that of [m2]. *)
Definition covers (m1 m2 : Marking) : Prop := Forall2 mval_ge m1 m2.

#[global] Instance covers_dec m1 m2 : Decision (covers m1 m2).
Proof. unfold covers. apply _. Defined.

(** [accelerate]: omega where both are finite and the candidate is larger. *)
Definition accelerate (candidate ancestor : Marking) : Marking :=
  zip_with (λ c a,
    match c, a with
    | Fin x, Fin y => if decide (y < x)%Z then Omega else c
    | _, _ => c
    end) candidate ancestor.

(** Step 5b: the first ancestor that is covered and not equal decides. *)
Fixpoint first_match (s : Marking) (ancestors : list Marking) : Marking :=
  match ancestors with
  | [] => s
  | a :: ancestors' =>
      if decide (covers s a ∧ s ≠ a) then accelerate s a
      else first_match s ancestors'
  end.

(** The weight of an arc; a place absent from the mapping has weight 0. *)
Definition weight_of (d : dict Z) (p : string) : Z := default 0%Z (dict_get d p).

(** The omega algebra: omega minus or plus a finite weight is omega. *)
Definition omega_sub (v : mval) (weight : Z) : mval :=
  match v with Fin n => Fin (n - weight) | Omega => Omega end.

Definition omega_add (v : mval) (weight : Z) : mval :=
  match v with Fin n => Fin (n + weight) | Omega => Omega end.

(** Firing in the omega algebra: per place, subtract what is consumed and
    add what is produced. *)
Definition omega_fire (net : PetriNetwork) (tr : Transition) (m : Marking)
  : Marking :=
  zip_with (λ p v, omega_add (omega_sub v (weight_of (tr_in tr) p))
                     (weight_of (tr_out tr) p))
    (places net) m.

(** No weight of the transition is beyond what converts to a float. *)
Definition float_weights (tr : Transition) : Prop :=
  Forall (λ pw, float_overflows pw.2 = false) (tr_in tr ++ tr_out tr).

(** The [coverable] and [equal] flags as the loop of [compare_markings]
    settles them at one position. *)
Definition coverable_at (a b : mval) : bool :=
  is_inf a || (negb (is_inf b) && negb (mval_ltb a b)).

Definition equal_at (a b : mval) : bool :=
  is_inf a || (negb (is_inf b) && negb (mval_gtb a b) && negb (mval_ltb a b)).

(** ** States the builder passes through *)

Inductive reach (net : PetriNetwork) : build_state → Prop :=
  | reach_init : reach net (init_state net)
  | reach_step st st' :
      reach net st → iteration net st = Cont st' → reach net st'.

Definition final_state (o : outcome) : build_state :=
  match o with Done st | Raised _ st | OutOfFuel st => st end.

Definition marking_at (ns : list TreeNode) (r : ref) : Marking :=
  marking (node_at ns r).

(** A node that the loop has finished with. *)
Definition node_final (n : TreeNode) : Prop :=
  (tag n = Processed ∧ children n ≠ [])
  ∨ ((tag n = Old ∨ tag n = DeadEnd) ∧ children n = []).

Definition result_state (r : step_result) : build_state :=
  match r with Cont st | Fail _ st => st end.

(** The fields of a node that are set at its creation and never written
    again. *)
Definition frozen_eq (n n' : TreeNode) : Prop :=
  marking n = marking n' ∧ node_id n = node_id n'
  ∧ parent n = parent n' ∧ transition n = transition n'
  ∧ path_to_root n = path_to_root n'.

Definition agree (ns ns' : list TreeNode) : Prop :=
  ∀ a, a < length ns → frozen_eq (node_at ns a) (node_at ns' a).

(** What holds of the node at position [r] of the arena [ns]: its id is
    its position, its path ends with itself after its proper ancestors, which
    were created before it, and its marking is the root's or comes from its
    parent's by firing and acceleration.  A marking that carries omega has a
    proper ancestor against which [compare_markings] raises [equal]. *)
Definition node_inv (net : PetriNetwork) (ns : list TreeNode) (r : ref)
    (n : TreeNode) : Prop :=
  node_id n = r
  ∧ length (marking n) = length (initial_marking net)
  ∧ ∃ p, path_to_root n = p ++ [r]
      ∧ (∀ a, a ∈ p → a < r)
      ∧ (all_finite (marking n)
         ∨ ∃ a, a ∈ p ∧ Forall2 (λ x y, equal_at x y = true)
                           (marking n) (marking_at ns a))
      ∧ match parent n, transition n with
        | None, None => r = 0 ∧ p = [] ∧ marking n = Fin <$> initial_marking net
        | Some q, Some t =>
            q < r ∧ p = path_to_root (node_at ns q)
            ∧ all_finite (marking_at ns q)
            ∧ ∃ s, fire_step net t (marking_at ns q) = Ok s
                ∧ all_finite s
                ∧ marking n = first_match s (marking_at ns <$> p)
        | _, _ => False
        end.

Definition nodes_inv (net : PetriNetwork) (ns : list TreeNode) : Prop :=
  ∀ r n, ns !! r = Some n → node_inv net ns r n.

Record shape (net : PetriNetwork) (st : build_state) : Prop := {
  sh_counter : node_counter st = length (nodes st);
  sh_queue : ∀ r, r ∈ new_nodes st → r < length (nodes st);
  sh_node : nodes_inv net (nodes st);
}.

(** The tags while the loop runs: a queued node is [New] and childless,
    the node under expansion ([busy]) is [Processed], every other node is
    finished. *)
Record tags_ok (busy : option ref) (st : build_state) : Prop := {
  tg_nodup : NoDup (new_nodes st);
  tg_queue : ∀ r, r ∈ new_nodes st → r < length (nodes st);
  tg_node : ∀ r n, nodes st !! r = Some n →
    if decide (r ∈ new_nodes st) then tag n = New ∧ children n = []
    else if decide (busy = Some r) then tag n = Processed
    else node_final n;
}.

(** ** Example nets *)

(** Scenario 1: [P0], marking [1], [t1] takes 1 and gives 2. *)
Definition scenario1 : PetriNetwork :=
  {| places := ["P0"]; initial_marking := [1%Z];
     transitions :=
       [("t1", {| tr_in := [("P0", 1%Z)]; tr_out := [("P0", 2%Z)] |})] |}.

(** One place whose only transition takes 1001 tokens. *)
Definition heavy_net : PetriNetwork :=
  {| places := ["P0"]; initial_marking := [0%Z];
     transitions := [("t1", {| tr_in := [("P0", 1001%Z)]; tr_out := [] |})] |}.

(** One place whose only transition produces more tokens than a float can
    hold. *)
Definition huge_net : PetriNetwork :=
  {| places := ["P0"]; initial_marking := [0%Z];
     transitions :=
       [("t1", {| tr_in := []; tr_out := [("P0", (2 ^ 1024)%Z)] |})] |}.

(** One place, but an initial marking of two entries. *)
Definition long_net : PetriNetwork :=
  {| places := ["P0"]; initial_marking := [1%Z; 5%Z];
     transitions := [("t1", {| tr_in := [("P0", 1%Z)]; tr_out := [] |})] |}.

(** ** Further notions used for the properties of the code *)

#[global] Instance res_eq_dec {A} `{EqDecision A} : EqDecision (res A).
Proof. solve_decision. Defined.

(** No entry of the marking is a negative number. *)
Definition nonneg (m : Marking) : Prop := Forall (λ v, mval_ge v (Fin 0)) m.

(** The nodes whose parent is [r], in creation order. *)
Definition children_of (ns : list TreeNode) (r : ref) : list ref :=
  filter (λ c, parent (node_at ns c) = Some r) (seq 0 (length ns)).

(** The transition labels of a list of nodes. *)
Definition labels (ns : list TreeNode) (cs : list ref) : list (option string) :=
  (λ c, transition (node_at ns c)) <$> cs.

(** Where the loop stands: between two passes, in a pass before the
    verdict on [current] is in, or adding the children of [current] with the
    transitions [pending] still to fire. *)
Inductive phase : Type :=
  | Idle
  | Checking (current : ref)
  | Expanding (current : ref) (pending : list string).

Definition pending_at (ph : phase) (r : ref) : list string :=
  match ph with
  | Expanding c ts => if decide (c = r) then ts else []
  | _ => []
  end.

Definition settled (ph : phase) (r : ref) : Prop :=
  match ph with Checking c => c ≠ r | _ => True end.

(** What the tag of a node records about it. *)
Definition verdict (net : PetriNetwork) (ns : list TreeNode)
    (pending : list string) (n : TreeNode) : Prop :=
  let old := old_check ns (marking n) (removelast (path_to_root n)) in
  match tag n with
  | New => True
  | Old => old = Ok true
  | DeadEnd => old = Ok false ∧ get_enabled_transitions net (marking n) = Ok []
  | Processed =>
      old = Ok false
      ∧ ∃ enabled, get_enabled_transitions net (marking n) = Ok enabled
          ∧ enabled ≠ []
          ∧ labels ns (children n) ++ (Some <$> pending) = Some <$> enabled
  end.

Record links_ok (net : PetriNetwork) (ph : phase) (st : build_state) : Prop := {
  lk_edges_length : S (length (edges st)) = length (nodes st);
  lk_edges : ∀ i e, edges st !! i = Some e →
    ∃ n p t, nodes st !! S i = Some n ∧ parent n = Some p
             ∧ transition n = Some t ∧ e = (p, S i, t);
  lk_children : ∀ r n, nodes st !! r = Some n →
    children n = children_of (nodes st) r;
  lk_verdict : ∀ r n, nodes st !! r = Some n → settled ph r →
    verdict net (nodes st) (pending_at ph r) n;
}.

Definition links_result (net : PetriNetwork) (r : step_result) : Prop :=
  match r with
  | Cont st => links_ok net Idle st
  | Fail _ st => ∃ ph, links_ok net ph st
  end.

(** ** [tree_to_text]

    Strings are byte strings, the text is the UTF-8 encoding of what the
    source builds.  [recurse] is given the number of calls that may be
    nested, [str] the limit on the digits of an int. *)

(** The loop of a list comprehension whose element expression can raise. *)
Definition res_mapM {A B} (f : A → res B) : list A → res (list B) :=
  fix go l :=
    match l with
    | [] => Ok []
    | x :: l' => y <- f x;; k <- go l';; Ok (y :: k)
    end.

(** The tag strings of the source. *)
Definition tag_name (tg : Tag) : string :=
  match tg with
  | New => "new"
  | Processed => "processed"
  | Old => "old"
  | DeadEnd => "dead-end"
  end.

Definition newline : string := String (Ascii.ascii_of_nat 10) EmptyString.

(** [sep.join(l)] *)
Fixpoint join (sep : string) (l : list string) : string :=
  match l with
  | [] => ""
  | x :: l' =>
      match l' with
      | [] => x
      | _ :: _ => x +:+ sep +:+ join sep l'
      end
  end.

(** ["  " * level] *)
Definition indent (level : nat) : string :=
  Nat.iter level (String.append "  ") "".

(** [str(n)] and [f"{n}"] of an int: its decimal digits, and [ValueError]
    when there are more of them than [sys.get_int_max_str_digits()], which
    is 4300 unless it was changed and 0 when there is no limit. *)
Definition str_int (max_str_digits : nat) (n : Z) : res string :=
  if decide (max_str_digits ≠ 0
             ∧ (10 ^ Z.of_nat max_str_digits <= Z.abs n)%Z)
  then Raise ValueError_int_max_str_digits
  else Ok (pretty n).

(** ["ω" if m == float('inf') else str(m)] *)
Definition m_str (max_str_digits : nat) (v : mval) : res string :=
  match v with
  | Omega => Ok "ω"
  | Fin n => str_int max_str_digits n
  end.

(** The line of [node] at indentation [level]. *)
Definition info (max_str_digits : nat) (ns : list TreeNode) (node : TreeNode)
    (level : nat) : res string :=
  strs <- res_mapM (m_str max_str_digits) (marking node);;
  id <- str_int max_str_digits (Z.of_nat (node_id node));;
  let line :=
    indent level +:+ "Node " +:+ id +:+ ": [" +:+ join ", " strs +:+ "]" in
  line <- match parent node with
          | Some p =>
              pid <- str_int max_str_digits
                       (Z.of_nat (node_id (node_at ns p)));;
              Ok (line +:+ "  (← " +:+ default "None" (transition node)
                  +:+ " from Node " +:+ pid +:+ ")")
          | None => Ok line
          end;;
  Ok (if decide (tag node = Processed) then line
      else line +:+ " [" +:+ tag_name (tag node) +:+ "]").

(** The inner function of [tree_to_text]; the lines it appends to [result]
    are returned in order. *)
Fixpoint recurse (max_str_digits calls : nat) (ns : list TreeNode)
    (node : ref) (level : nat) : res (list string) :=
  match calls with
  | 0 => Raise RecursionError
  | S calls' =>
      line <- info max_str_digits ns (node_at ns node) level;;
      rest <- res_mapM (λ child, recurse max_str_digits calls' ns child
                                   (S level))
                (children (node_at ns node));;
      Ok (line :: concat rest)
  end.

Definition tree_to_text (max_str_digits calls : nat) (st : build_state)
  : res string :=
  match root st with
  | None => Raise AttributeError
  | Some r =>
      result <- recurse max_str_digits calls (nodes st) r 0;;
      Ok (join newline result)
  end.

(** The number of edges between the root and node [r]. *)
Definition depth (ns : list TreeNode) (r : ref) : nat :=
  pred (length (path_to_root (node_at ns r))).

(** The nodes below and including [r], parents first, children in the order
    of the [children] lists. *)
Fixpoint preorder (calls : nat) (ns : list TreeNode) (r : ref) : list ref :=
  match calls with
  | 0 => []
  | S calls' => r :: (children (node_at ns r) ≫= preorder calls' ns)
  end.

(** An int that [str] converts under the limit. *)
Definition digits_ok (max_str_digits : nat) (n : Z) : Prop :=
  max_str_digits = 0 ∨ (Z.abs n < 10 ^ Z.of_nat max_str_digits)%Z.

(** Every number that [tree_to_text] prints converts: the entries of the
    markings and the node ids. *)
Definition printable (max_str_digits : nat) (ns : list TreeNode) : Prop :=
  Forall (λ n,
    digits_ok max_str_digits (Z.of_nat (node_id n))
    ∧ Forall (λ v, match v with
                   | Fin z => digits_ok max_str_digits z
                   | Omega => True
                   end) (marking n)) ns.

(** * Properties *)

(** ** Marking values *)

Lemma equal_at_finite a b : is_inf a = false → equal_at a b = true ↔ a = b.
Proof.
  destruct a as [x|], b as [y|]; unfold equal_at; simpl; try done.
  intros _. rewrite andb_true_iff, !negb_true_iff, !Z.ltb_ge.
  split; [intros []; f_equal; lia | intros [= ->]; lia].
Qed.

Lemma coverable_at_finite a b :
  is_inf a = false → coverable_at a b = true ↔ mval_ge a b.
Proof.
  destruct a as [x|], b as [y|]; unfold coverable_at, mval_ltb; simpl; try done.
  intros _. by rewrite negb_true_iff, Z.ltb_ge.
Qed.

Lemma all_finite_cons v m :
  all_finite (v :: m) ↔ is_inf v = false ∧ all_finite m.
Proof. unfold all_finite. by rewrite Forall_cons. Qed.

Lemma all_finite_fmap_Fin (l : list Z) : all_finite (Fin <$> l).
Proof. induction l; constructor; done. Qed.

(** ** compare_markings *)

Lemma bool_decide_Forall2_cons (f : mval → mval → bool) a b l k :
  bool_decide (Forall2 (λ a b, f a b = true) (a :: l) (b :: k))
  = f a b && bool_decide (Forall2 (λ a b, f a b = true) l k).
Proof.
  apply eq_true_iff_eq.
  by rewrite andb_true_iff, !bool_decide_eq_true, Forall2_cons.
Qed.

Lemma compare_loop_flags m1 : ∀ m2 c e g,
  length m1 = length m2 →
  ∃ g', compare_loop m1 m2 c e g
        = Ok (c && bool_decide (Forall2 (λ a b, coverable_at a b = true) m1 m2),
              e && bool_decide (Forall2 (λ a b, equal_at a b = true) m1 m2),
              g').
Proof.
  induction m1 as [|a m1 IH]; intros [|b m2] c e g Hlen; simplify_eq/=.
  - exists g. by rewrite !andb_true_r.
  - rewrite !bool_decide_Forall2_cons.
    unfold coverable_at, equal_at.
    destruct (is_inf a) eqn:Ha; simpl.
    { apply IH; lia. }
    destruct (is_inf b) eqn:Hb; simpl.
    { destruct (IH m2 false false g) as [g' ->]; [lia|].
      exists g'. by rewrite !andb_false_r. }
    destruct (mval_gtb a b) eqn:Hgt; simpl.
    { destruct (IH m2 c false true) as [g' ->]; [lia|]. exists g'.
      assert (mval_ltb a b = false) as ->.
      { destruct a, b; simplify_eq/=. unfold mval_ltb; simpl.
        apply Z.ltb_lt in Hgt. apply Z.ltb_ge. lia. }
      simpl. by rewrite !andb_false_r. }
    destruct (mval_ltb a b) eqn:Hlt; simpl.
    { destruct (IH m2 false false g) as [g' ->]; [lia|].
      exists g'. by rewrite !andb_false_r. }
    apply IH; lia.
Qed.

Lemma compare_markings_flags m1 m2 :
  length m1 = length m2 →
  ∃ g, compare_markings m1 m2
       = Ok (bool_decide (Forall2 (λ a b, coverable_at a b = true) m1 m2),
             bool_decide (Forall2 (λ a b, equal_at a b = true) m1 m2), g).
Proof. intros H. apply (compare_loop_flags m1 m2 true true false H). Qed.

Lemma compare_loop_raise m1 : ∀ m2 c e g x,
  compare_loop m1 m2 c e g = Raise x → x = IndexError.
Proof.
  induction m1 as [|a m1 IH]; intros [|b m2] c e g x; simpl; try congruence.
  repeat case_match; eauto.
Qed.

Lemma Forall2_coverable_at_finite m1 m2 :
  all_finite m1 →
  Forall2 (λ a b, coverable_at a b = true) m1 m2 ↔ covers m1 m2.
Proof.
  unfold covers. intros Hfin. revert m2.
  induction Hfin as [|a m1 Ha _ IH]; intros [|b m2];
    rewrite ?Forall2_cons; try (split; intros H; by inversion H).
  by rewrite coverable_at_finite, IH.
Qed.

Lemma Forall2_equal_at_finite m1 m2 :
  all_finite m1 → Forall2 (λ a b, equal_at a b = true) m1 m2 ↔ m1 = m2.
Proof.
  intros Hfin. revert m2.
  induction Hfin as [|a m1 Ha _ IH]; intros [|b m2];
    rewrite ?Forall2_cons; try (split; intros H; by inversion H).
  rewrite equal_at_finite, IH by done.
  split; [by intros [-> ->] | by intros [= -> ->]].
Qed.

Lemma compare_markings_finite m1 m2 :
  all_finite m1 → length m1 = length m2 →
  ∃ g, compare_markings m1 m2
       = Ok (bool_decide (covers m1 m2), bool_decide (m1 = m2), g).
Proof.
  intros Hfin Hlen. destruct (compare_markings_flags m1 m2 Hlen) as [g ->].
  exists g.
  rewrite (bool_decide_ext _ _ (Forall2_coverable_at_finite m1 m2 Hfin)).
  by rewrite (bool_decide_ext _ _ (Forall2_equal_at_finite m1 m2 Hfin)).
Qed.

(** ** apply_omega *)

Lemma apply_omega_accelerate m_prime : ∀ m_ancestor,
  length m_prime = length m_ancestor →
  apply_omega m_prime m_ancestor = Ok (accelerate m_prime m_ancestor).
Proof.
  induction m_prime as [|a s IH]; intros [|b anc] Hlen; simplify_eq/=; [done|].
  rewrite (IH anc) by lia. simpl.
  destruct a as [x|], b as [y|]; simpl; try done.
  case_decide as Hd; [by apply Z.ltb_lt in Hd as ->|].
  by apply Z.ltb_nlt in Hd as ->.
Qed.

Lemma apply_omega_raise m_prime : ∀ m_ancestor x,
  apply_omega m_prime m_ancestor = Raise x → x = IndexError.
Proof.
  induction m_prime as [|a s IH]; intros anc x; simpl; [done|].
  destruct (is_inf a).
  - destruct (apply_omega s (tail anc)) eqn:E; simpl; [done|].
    intros [= <-]. eauto.
  - destruct anc as [|b anc]; [congruence|].
    destruct (apply_omega s anc) eqn:E; simpl; [done|].
    intros [= <-]. eauto.
Qed.

Lemma length_accelerate s a :
  length s = length a → length (accelerate s a) = length s.
Proof. intros H. unfold accelerate. rewrite length_zip_with. lia. Qed.

(** What the acceleration of a finite successor leaves: at every place the
    ancestor's value or omega.  The [equal] flag of [compare_markings] is
    then up. *)
Lemma accelerate_equal_at s : ∀ a,
  all_finite s → covers s a →
  Forall2 (λ x y, equal_at x y = true) (accelerate s a) a.
Proof.
  unfold covers. induction s as [|x s IH]; intros a Hfin Hcov;
    inversion Hcov as [|? y ? a' Hxy Hrest]; simplify_eq/=; [constructor|].
  apply all_finite_cons in Hfin as [Hx Hfin].
  constructor; [|by apply IH].
  destruct x as [x|], y as [y|]; simplify_eq/=.
  case_decide; [done|]. unfold equal_at, mval_ltb; simpl.
  rewrite andb_true_iff, !negb_true_iff, !Z.ltb_ge. lia.
Qed.

Lemma accelerate_changes s : ∀ a,
  all_finite s → covers s a → s ≠ a → ¬ all_finite (accelerate s a).
Proof.
  unfold covers. induction s as [|x s IH]; intros a Hfin Hcov Hne;
    inversion Hcov as [|? y ? a' Hxy Hrest]; simplify_eq/=.
  apply all_finite_cons in Hfin as [Hx Hfin].
  rewrite all_finite_cons. intros [H1 H2].
  destruct x as [x|], y as [y|]; simplify_eq/=.
  case_decide; [done|].
  apply (IH a'); try done. intros ->. apply Hne. f_equal. f_equal. lia.
Qed.

(** ** PetriNetwork: lookups, enabling, firing *)

Lemma index_Ok l x i : index l x = Ok i → l !! i = Some x.
Proof.
  revert i. induction l as [|y l IH]; intros i; simpl; [done|].
  case_decide as Hd; [by intros [= <-]; subst|].
  destruct (index l x) as [j|] eqn:E; simpl; [|done].
  intros [= <-]. by apply IH.
Qed.

Lemma index_Ok_first l x i j : index l x = Ok i → l !! j = Some x → i ≤ j.
Proof.
  revert i j. induction l as [|y l IH]; intros i j; simpl; [done|].
  case_decide as Hd; [intros [= <-]; lia|].
  destruct (index l x) as [k|] eqn:E; simpl; [|done].
  intros [= <-]. destruct j as [|j]; simpl; [congruence|].
  intros Hj. specialize (IH k j eq_refl Hj). lia.
Qed.

Lemma index_elem_of l x : x ∈ l → ∃ i, index l x = Ok i.
Proof.
  induction l as [|y l IH]; [by intros ?%elem_of_nil|].
  intros Hx. simpl. case_decide as Hd; [eauto|].
  apply elem_of_cons in Hx as [->|Hx]; [done|].
  destruct (IH Hx) as [i ->]. simpl. eauto.
Qed.

Lemma index_raise l x e : index l x = Raise e → e = ValueError_not_in_list x.
Proof.
  induction l as [|y l IH]; simpl; [congruence|].
  case_decide; [done|]. destruct (index l x); simpl; [done|].
  intros [= <-]. by apply IH.
Qed.

Lemma getitem_Ok {A} (l : list A) i v : getitem l i = Ok v ↔ l !! i = Some v.
Proof. unfold getitem. destruct (l !! i); naive_solver. Qed.

Lemma getitem_lt {A} (l : list A) i : i < length l → ∃ v, getitem l i = Ok v.
Proof.
  intros [v Hv]%lookup_lt_is_Some_2. exists v. by apply getitem_Ok.
Qed.

Lemma getitem_raise {A} (l : list A) i e : getitem l i = Raise e → e = IndexError.
Proof. unfold getitem. destruct (l !! i); congruence. Qed.

Section PetriNetworkFacts.
Context (self : PetriNetwork).

Lemma is_enabled_items_raise m items e :
  is_enabled_items self m items = Raise e → lookup_error e.
Proof.
  induction items as [|[p w] items IH]; simpl; [done|].
  destruct (index _ p) eqn:Ei; simpl;
    [|intros [= <-]; right; eexists; by eapply index_raise].
  destruct (getitem m a) eqn:Eg; simpl;
    [|intros [= <-]; left; by eapply getitem_raise].
  by case_match.
Qed.

Lemma is_enabled_raise t m e : is_enabled self t m = Raise e → lookup_error e.
Proof.
  unfold is_enabled. case_match; [|done]. apply is_enabled_items_raise.
Qed.

Lemma filter_enabled_raise m names e :
  filter_enabled self m names = Raise e → lookup_error e.
Proof.
  induction names as [|t names IH]; simpl; [done|].
  destruct (is_enabled self t m) eqn:E1; simpl;
    [|intros [= <-]; by eapply is_enabled_raise].
  destruct (filter_enabled self m names); simpl; [done|].
  intros [= <-]. by apply IH.
Qed.

Lemma filter_enabled_Ok m names l :
  filter_enabled self m names = Ok l →
  ∀ t, t ∈ l → is_enabled self t m = Ok true.
Proof.
  revert l. induction names as [|t' names IH]; intros l; simpl.
  { intros [= <-] t ?%elem_of_nil. done. }
  destruct (is_enabled self t' m) as [b|] eqn:E1; simpl; [|done].
  destruct (filter_enabled self m names) as [l'|]; simpl; [|done].
  intros [= <-] t Ht. destruct b; [|by eapply IH].
  apply elem_of_cons in Ht as [->|Ht]; [done|by eapply IH].
Qed.

Lemma get_enabled_transitions_Ok m l :
  get_enabled_transitions self m = Ok l →
  ∀ t, t ∈ l → is_enabled self t m = Ok true.
Proof. apply filter_enabled_Ok. Qed.

Lemma mval_sub_finite v w r :
  is_inf v = false → mval_sub v w = r → ∃ x, r = Ok x ∧ is_inf x = false.
Proof. destruct v; [|done]. intros _ <-. by eexists. Qed.

Lemma mval_add_finite v w r :
  is_inf v = false → mval_add v w = r → ∃ x, r = Ok x ∧ is_inf x = false.
Proof. destruct v; [|done]. intros _ <-. by eexists. Qed.

Lemma mval_sub_raise v w e : mval_sub v w = Raise e → e = OverflowError.
Proof. destruct v; simpl; [done|]. by case_match; intros [= <-]. Qed.

Lemma mval_add_raise v w e : mval_add v w = Raise e → e = OverflowError.
Proof. destruct v; simpl; [done|]. by case_match; intros [= <-]. Qed.

Lemma all_finite_lookup (m : Marking) i v :
  all_finite m → getitem m i = Ok v → is_inf v = false.
Proof.
  intros Hfin Hv%getitem_Ok. unfold all_finite in Hfin.
  rewrite Forall_lookup in Hfin. by apply (Hfin i).
Qed.

Lemma remove_tokens_length items : ∀ m m',
  remove_tokens self m items = Ok m' → length m' = length m.
Proof.
  induction items as [|[p w] items IH]; intros m m'; simpl; [by intros [= ->]|].
  destruct (index _ p); simpl; [|done].
  destruct (getitem m a); simpl; [|done].
  destruct (mval_sub _ w); simpl; [|done].
  intros ->%IH. apply length_insert.
Qed.

Lemma add_tokens_length items : ∀ m m',
  add_tokens self m items = Ok m' → length m' = length m.
Proof.
  induction items as [|[p w] items IH]; intros m m'; simpl; [by intros [= ->]|].
  destruct (index _ p); simpl; [|done].
  destruct (getitem m a); simpl; [|done].
  destruct (mval_add _ w); simpl; [|done].
  intros ->%IH. apply length_insert.
Qed.

Lemma all_finite_insert (m : Marking) i v :
  all_finite m → is_inf v = false → all_finite (<[i := v]> m).
Proof. intros. by apply Forall_insert. Qed.

(** On a marking of numbers the two loops raise lookup errors only; with
    [inf] in the marking they can also raise [OverflowError]. *)
Lemma remove_tokens_raise items : ∀ m e,
  remove_tokens self m items = Raise e →
  (lookup_error e ∨ e = OverflowError) ∧ (all_finite m → lookup_error e).
Proof.
  induction items as [|[p w] items IH]; intros m e; simpl; [done|].
  destruct (index _ p) eqn:Ei; simpl.
  2:{ intros [= <-]. assert (lookup_error e0); [|by auto].
      right; eexists; by eapply index_raise. }
  destruct (getitem m a) as [v|] eqn:Eg; simpl.
  2:{ intros [= <-]. assert (lookup_error e0); [|by auto].
      left; by eapply getitem_raise. }
  destruct (mval_sub v w) as [v'|e'] eqn:Es; simpl.
  - intros [H1 H2]%IH. split; [done|]. intros Hfin. apply H2.
    apply all_finite_insert; [done|].
    destruct (mval_sub_finite v w _ (all_finite_lookup m a v Hfin Eg) Es)
      as (x & [= <-] & Hx). done.
  - intros [= <-]. split; [right; by eapply mval_sub_raise|].
    intros Hfin.
    by destruct (mval_sub_finite v w _ (all_finite_lookup m a v Hfin Eg) Es)
      as (x & ? & _).
Qed.

Lemma add_tokens_raise items : ∀ m e,
  add_tokens self m items = Raise e →
  (lookup_error e ∨ e = OverflowError) ∧ (all_finite m → lookup_error e).
Proof.
  induction items as [|[p w] items IH]; intros m e; simpl; [done|].
  destruct (index _ p) eqn:Ei; simpl.
  2:{ intros [= <-]. assert (lookup_error e0); [|by auto].
      right; eexists; by eapply index_raise. }
  destruct (getitem m a) as [v|] eqn:Eg; simpl.
  2:{ intros [= <-]. assert (lookup_error e0); [|by auto].
      left; by eapply getitem_raise. }
  destruct (mval_add v w) as [v'|e'] eqn:Es; simpl.
  - intros [H1 H2]%IH. split; [done|]. intros Hfin. apply H2.
    apply all_finite_insert; [done|].
    destruct (mval_add_finite v w _ (all_finite_lookup m a v Hfin Eg) Es)
      as (x & [= <-] & Hx). done.
  - intros [= <-]. split; [right; by eapply mval_add_raise|].
    intros Hfin.
    by destruct (mval_add_finite v w _ (all_finite_lookup m a v Hfin Eg) Es)
      as (x & ? & _).
Qed.

Lemma remove_tokens_finite items : ∀ m m',
  all_finite m → remove_tokens self m items = Ok m' → all_finite m'.
Proof.
  induction items as [|[p w] items IH]; intros m m' Hfin; simpl;
    [by intros [= <-]|].
  destruct (index _ p); simpl; [|done].
  destruct (getitem m a) as [v|] eqn:Ev; simpl; [|done].
  destruct (mval_sub_finite v w _ (all_finite_lookup m a v Hfin Ev) eq_refl)
    as (x & -> & Hx). simpl.
  by apply IH, all_finite_insert.
Qed.

Lemma add_tokens_finite items : ∀ m m',
  all_finite m → add_tokens self m items = Ok m' → all_finite m'.
Proof.
  induction items as [|[p w] items IH]; intros m m' Hfin; simpl;
    [by intros [= <-]|].
  destruct (index _ p); simpl; [|done].
  destruct (getitem m a) as [v|] eqn:Ev; simpl; [|done].
  destruct (mval_add_finite v w _ (all_finite_lookup m a v Hfin Ev) eq_refl)
    as (x & -> & Hx). simpl.
  by apply IH, all_finite_insert.
Qed.

Lemma fire_transition_Ok t m m' :
  fire_transition self t m = Ok m' →
  is_enabled self t m = Ok true ∧ length m' = length m
  ∧ (all_finite m → all_finite m').
Proof.
  unfold fire_transition.
  destruct (is_enabled self t m) as [[]|]; simpl; try done.
  destruct (dict_get _ t) as [tr|]; [|done].
  destruct (remove_tokens self m (tr_in tr)) as [m1|] eqn:E1; simpl; [|done].
  intros E2. split; [done|]. split.
  - apply add_tokens_length in E2. apply remove_tokens_length in E1. lia.
  - intros Hfin. eapply add_tokens_finite; [|done].
    by eapply remove_tokens_finite.
Qed.

(** The error branch of [fire_transition] is taken exactly when the
    transition is not enabled in the marking it is given. *)
Lemma fire_transition_cannot_be_fired t m t' :
  fire_transition self t m = Raise (ValueError_cannot_be_fired t') →
  is_enabled self t m = Ok false.
Proof.
  unfold fire_transition.
  destruct (is_enabled self t m) as [[]|] eqn:E; simpl; try done.
  - destruct (dict_get _ t) as [tr|]; [|done].
    destruct (remove_tokens self m (tr_in tr)) as [m1|] eqn:E1; simpl.
    + by intros [[[|[]]|] _]%add_tokens_raise.
    + intros [= ->]. by apply remove_tokens_raise in E1 as [[[|[]]|] _].
  - intros [= ->]. by apply is_enabled_raise in E as [|[]].
Qed.
End PetriNetworkFacts.

(** ** The arena *)

Lemma frozen_eq_refl n : frozen_eq n n.
Proof. by repeat split. Qed.

Lemma frozen_eq_with_tag tg n : frozen_eq n (with_tag tg n).
Proof. by repeat split. Qed.

Lemma frozen_eq_with_child c n : frozen_eq n (with_child c n).
Proof. by repeat split. Qed.

Lemma node_at_lookup ns r n : ns !! r = Some n → node_at ns r = n.
Proof. apply list_lookup_total_correct. Qed.

Lemma node_at_lt ns r : r < length ns → ns !! r = Some (node_at ns r).
Proof. apply list_lookup_lookup_total_lt. Qed.

Lemma agree_refl ns : agree ns ns.
Proof. intros a _. apply frozen_eq_refl. Qed.

Lemma agree_alter f r ns :
  (∀ n, frozen_eq n (f n)) → agree ns (alter f r ns).
Proof.
  intros Hf a Ha. unfold node_at. rewrite list_lookup_total_alter.
  case_decide as Hd; [|apply frozen_eq_refl].
  destruct Hd as [-> _]. apply Hf.
Qed.

Lemma agree_snoc ns n : agree ns (ns ++ [n]).
Proof.
  intros a Ha. unfold node_at. rewrite lookup_total_app_l by done.
  apply frozen_eq_refl.
Qed.

Lemma agree_trans ns1 ns2 ns3 :
  length ns1 ≤ length ns2 → agree ns1 ns2 → agree ns2 ns3 → agree ns1 ns3.
Proof.
  intros Hlen H12 H23 a Ha.
  destruct (H12 a Ha) as (?&?&?&?&?), (H23 a) as (?&?&?&?&?); [lia|].
  repeat split; congruence.
Qed.

Lemma agree_marking_at ns ns' a :
  agree ns ns' → a < length ns → marking_at ns' a = marking_at ns a.
Proof. intros H Ha. unfold marking_at. by destruct (H a Ha) as (->&_). Qed.

Lemma agree_path ns ns' a :
  agree ns ns' → a < length ns →
  path_to_root (node_at ns' a) = path_to_root (node_at ns a).
Proof. intros H Ha. by destruct (H a Ha) as (_&_&_&_&->). Qed.

Lemma node_inv_agree net ns ns' r n n' :
  node_inv net ns r n → r ≤ length ns → agree ns ns' → frozen_eq n n' →
  node_inv net ns' r n'.
Proof.
  intros (Hid & Hlen & p & Hp & Hlt & HJ & HK) Hr Hag (Hm & Hi & Hpa & Htr & Hpath).
  unfold node_inv. rewrite <-Hm, <-Hi, <-Hpa, <-Htr, <-Hpath.
  split; [done|]. split; [done|]. exists p. split; [done|]. split; [done|].
  assert (Hmap : marking_at ns' <$> p = marking_at ns <$> p).
  { apply list_fmap_ext. intros i a Ha.
    apply agree_marking_at; [done|].
    apply list_elem_of_lookup_2, Hlt in Ha. lia. }
  split.
  - destruct HJ as [?|(a & Ha & Heq)]; [by left|]. right. exists a.
    split; [done|]. rewrite (agree_marking_at ns ns' a); [done..|].
    apply Hlt in Ha. lia.
  - destruct (parent n) as [q|], (transition n) as [t|]; try done.
    destruct HK as (Hq & Hpq & Hfin & s & Hs & Hsfin & Hmark).
    rewrite Hmap, (agree_marking_at ns ns' q), (agree_path ns ns' q)
      by (done || lia).
    eauto 10.
Qed.

(** ** The pieces of the loop body *)

Lemma firing_marking_finite m : all_finite m → firing_marking m = m.
Proof.
  unfold firing_marking. induction 1 as [|v m Hv _ IH]; [done|].
  rewrite fmap_cons, IH. by rewrite Hv.
Qed.

Lemma restore_omega_finite cur : ∀ i m_prime,
  all_finite cur → restore_omega i cur m_prime = Ok m_prime.
Proof.
  induction cur as [|v cur IH]; intros i m_prime Hfin; [done|].
  apply all_finite_cons in Hfin as [Hv Hfin]. simpl. rewrite Hv. by apply IH.
Qed.

Lemma restore_omega_raise cur : ∀ i m_prime e,
  restore_omega i cur m_prime = Raise e → e = IndexError.
Proof.
  induction cur as [|v cur IH]; intros i m_prime e; simpl; [done|].
  destruct (is_inf v); [|by apply IH].
  case_decide; [by apply IH | congruence].
Qed.

Lemma fire_step_finite net t m :
  all_finite m → fire_step net t m = fire_transition net t m.
Proof.
  intros Hfin. unfold fire_step. rewrite firing_marking_finite by done.
  destruct (fire_transition net t m); simpl; [|done].
  by apply restore_omega_finite.
Qed.

Lemma old_check_ext ns ns' m ancs :
  (∀ a, a ∈ ancs → marking_at ns' a = marking_at ns a) →
  old_check ns' m ancs = old_check ns m ancs.
Proof.
  induction ancs as [|a ancs IH]; intros H; simpl; [done|].
  fold (marking_at ns' a) (marking_at ns a).
  rewrite H by left. rewrite IH; [done|]. intros; apply H. by right.
Qed.

Lemma old_check_raise ns m ancs e : old_check ns m ancs = Raise e → e = IndexError.
Proof.
  induction ancs as [|a ancs IH]; simpl; [done|].
  destruct (compare_markings _ _) as [[[c eq] g]|] eqn:E; simpl.
  - destruct eq; [done|apply IH].
  - intros [= <-]. by eapply compare_loop_raise.
Qed.

Lemma old_check_total ns m ancs :
  (∀ a, a ∈ ancs → length (marking_at ns a) = length m) →
  ∃ b, old_check ns m ancs = Ok b.
Proof.
  induction ancs as [|a ancs IH]; intros Hlen; simpl; [eauto|].
  destruct (compare_markings_flags m (marking_at ns a)) as [g E].
  { symmetry. apply Hlen. by left. }
  unfold marking_at in E. rewrite E. simpl.
  case_match; [eauto|]. apply IH. intros; apply Hlen. by right.
Qed.

Lemma old_check_found ns m ancs :
  (∀ a, a ∈ ancs → length (marking_at ns a) = length m) →
  (∃ a, a ∈ ancs ∧ Forall2 (λ x y, equal_at x y = true) m (marking_at ns a)) →
  old_check ns m ancs = Ok true.
Proof.
  induction ancs as [|a ancs IH]; intros Hlen (b & Hb & Heq).
  { by apply elem_of_nil in Hb. }
  simpl. destruct (compare_markings_flags m (marking_at ns a)) as [g E].
  { symmetry. apply Hlen. by left. }
  unfold marking_at in E. rewrite E. clear E. simpl.
  case_bool_decide as Hd; [done|].
  apply elem_of_cons in Hb as [->|Hb]; [done|].
  apply IH; [|eauto]. intros; apply Hlen. by right.
Qed.

Lemma omega_walk_ext ns ns' s path :
  (∀ a, a ∈ path → marking_at ns' a = marking_at ns a) →
  omega_walk ns' s path = omega_walk ns s path.
Proof.
  induction path as [|a path IH]; intros H; simpl; [done|].
  fold (marking_at ns' a) (marking_at ns a).
  rewrite H by left. rewrite IH; [done|]. intros; apply H. by right.
Qed.

Lemma omega_walk_raise ns s path e : omega_walk ns s path = Raise e → e = IndexError.
Proof.
  induction path as [|a path IH]; simpl; [done|].
  destruct (compare_markings _ _) as [[[c eq] g]|] eqn:E; simpl.
  - case_match; [apply apply_omega_raise | apply IH].
  - intros [= <-]. by eapply compare_loop_raise.
Qed.

(** On a finite successor the flags of [compare_markings] are the
    specification's, and the walk is [first_match]. *)
Lemma omega_walk_first_match ns s path :
  all_finite s →
  (∀ a, a ∈ path → length (marking_at ns a) = length s) →
  omega_walk ns s path = Ok (first_match s (marking_at ns <$> path)).
Proof.
  intros Hfin. induction path as [|a path IH]; intros Hlen; simpl; [done|].
  fold (marking_at ns a).
  destruct (compare_markings_finite s (marking_at ns a)) as [g ->]; [done|..].
  { symmetry. apply Hlen. by left. }
  simpl. case_decide as Hd.
  - destruct Hd as [Hc Hne].
    rewrite !bool_decide_eq_true_2, bool_decide_eq_false_2 by done. simpl.
    apply apply_omega_accelerate. symmetry. apply Hlen. by left.
  - assert (bool_decide (covers s (marking_at ns a))
            && negb (bool_decide (s = marking_at ns a)) = false) as ->.
    { apply not_true_is_false. intros [?%bool_decide_eq_true_1 H2]%andb_true_iff.
      apply negb_true_iff, bool_decide_eq_false_1 in H2. by apply Hd. }
    apply IH. intros; apply Hlen. by right.
Qed.

Lemma first_match_length s ancs :
  Forall (λ a, length a = length s) ancs → length (first_match s ancs) = length s.
Proof.
  induction 1 as [|a ancs Ha _ IH]; simpl; [done|].
  case_decide; [by apply length_accelerate | done].
Qed.

Lemma first_match_flags s ancs :
  all_finite s →
  all_finite (first_match s ancs)
  ∨ ∃ a, a ∈ ancs
       ∧ Forall2 (λ x y, equal_at x y = true) (first_match s ancs) a.
Proof.
  intros Hfin. induction ancs as [|a ancs IH]; simpl; [by left|].
  case_decide as Hd.
  - right. exists a. split; [by left|].
    destruct Hd. by apply accelerate_equal_at.
  - destruct IH as [?|(b & Hb & ?)]; [by left|].
    right. exists b. split; [by right | done].
Qed.

(** ** The shape of the tree is kept by every step *)

Section Shape.
Context (net : PetriNetwork).

Lemma nodes_inv_path ns r :
  nodes_inv net ns → r < length ns →
  ∀ a, a ∈ path_to_root (node_at ns r) →
    a < length ns
    ∧ length (marking_at ns a) = length (initial_marking net).
Proof.
  intros Hinv Hr a Ha.
  destruct (Hinv r _ (node_at_lt ns r Hr)) as (_ & _ & p & Hp & Hlt & _).
  assert (a ≤ r) as Har.
  { rewrite Hp in Ha. apply elem_of_app in Ha as [Ha%Hlt|Ha]; [lia|].
    apply list_elem_of_singleton in Ha. lia. }
  split; [lia|].
  by destruct (Hinv a _ (node_at_lt ns a ltac:(lia))) as (_ & ? & _).
Qed.

(** A node that passes the ancestor check carries no omega. *)
Lemma not_old_finite ns current :
  nodes_inv net ns → current < length ns →
  old_check ns (marking (node_at ns current))
    (removelast (path_to_root (node_at ns current))) = Ok false →
  all_finite (marking_at ns current).
Proof.
  intros Hinv Hr Hold.
  destruct (Hinv current _ (node_at_lt ns current Hr))
    as (_ & Hlen & p & Hp & Hlt & [Hfin|Hex] & _); [done|].
  rewrite Hp, removelast_last in Hold.
  rewrite old_check_found in Hold; [done| |done].
  intros a Ha. rewrite Hlen.
  apply (nodes_inv_path ns current Hinv Hr).
  rewrite Hp. apply elem_of_app. by left.
Qed.

Lemma successor_first_match ns current t m_prime :
  nodes_inv net ns → current < length ns →
  all_finite (marking_at ns current) →
  successor net ns (node_at ns current) t = Ok m_prime →
  ∃ s, fire_step net t (marking_at ns current) = Ok s
    ∧ all_finite s
    ∧ length s = length (initial_marking net)
    ∧ m_prime = first_match s
                  (marking_at ns <$> path_to_root (node_at ns current)).
Proof.
  intros Hinv Hr Hfin. unfold successor. fold (marking_at ns current).
  destruct (fire_step net t (marking_at ns current)) as [s|] eqn:Hs;
    simpl; [|done].
  intros Hwalk. exists s.
  rewrite fire_step_finite in Hs by done.
  apply fire_transition_Ok in Hs as (_ & Hlen & Hsfin).
  destruct (Hinv current _ (node_at_lt ns current Hr)) as (_ & HL & _).
  fold (marking_at ns current) in HL.
  rewrite omega_walk_first_match in Hwalk; [|by auto|].
  - simplify_eq. split_and!; [done|by auto|lia|done].
  - intros a Ha. rewrite Hlen, HL.
    by apply (nodes_inv_path ns current Hinv Hr).
Qed.

Lemma successor_node_inv ns current t m_prime :
  nodes_inv net ns → current < length ns →
  all_finite (marking_at ns current) →
  successor net ns (node_at ns current) t = Ok m_prime →
  node_inv net ns (length ns)
    {| marking := m_prime; node_id := length ns; tag := New;
       parent := Some current; children := []; transition := Some t;
       path_to_root := path_to_root (node_at ns current) ++ [length ns] |}.
Proof.
  intros Hinv Hr Hfin Hsucc.
  destruct (successor_first_match _ _ _ _ Hinv Hr Hfin Hsucc)
    as (s & Hs & Hsfin & Hslen & ->).
  pose proof (nodes_inv_path ns current Hinv Hr) as Hpath.
  unfold node_inv; simpl. split; [done|]. split.
  { rewrite first_match_length; [done|].
    apply Forall_fmap, Forall_forall. intros a Ha. simpl.
    rewrite Hslen. by apply Hpath. }
  eexists. split; [done|]. split; [intros a Ha; by apply Hpath|]. split.
  - destruct (first_match_flags s
      (marking_at ns <$> path_to_root (node_at ns current)) Hsfin)
      as [?|(m & Hm & Heq)]; [by left|].
    apply list_elem_of_fmap in Hm as (a & -> & Ha). right. eauto.
  - split_and!; [done..|]. eauto.
Qed.

Lemma set_tag_shape r tg st : shape net st → shape net (set_tag r tg st).
Proof.
  intros [Hc Hq Hn]. split; simpl.
  - by rewrite length_alter.
  - intros a Ha. rewrite length_alter. by apply Hq.
  - intros a n Ha. rewrite list_lookup_alter in Ha.
    assert (∃ n0, nodes st !! a = Some n0 ∧ frozen_eq n0 n) as (n0 & H0 & Hfr).
    { case_decide; [|eauto using frozen_eq_refl]. subst.
      destruct (nodes st !! a) as [n0|]; simplify_eq/=.
      eauto using frozen_eq_with_tag. }
    eapply node_inv_agree; [by apply Hn| |by apply agree_alter, frozen_eq_with_tag|done].
    apply lookup_lt_Some in H0. lia.
Qed.

Lemma dequeue_shape st current rest :
  shape net st → new_nodes st = current :: rest →
  shape net {| nodes := nodes st; edges := edges st; root := root st;
               new_nodes := rest; node_counter := node_counter st |}.
Proof.
  intros [Hc Hq Hn] Hqueue. split; simpl; [done| |done].
  intros r Hr. apply Hq. rewrite Hqueue. by right.
Qed.

Lemma add_node_agree current t m_prime st :
  agree (nodes st) (nodes (add_node current t m_prime st)).
Proof.
  simpl. eapply agree_trans; [|apply agree_alter|apply agree_snoc].
  - by rewrite length_alter.
  - apply frozen_eq_with_child.
Qed.

Lemma add_node_shape current t m_prime st :
  shape net st → current < length (nodes st) →
  all_finite (marking_at (nodes st) current) →
  successor net (nodes st) (node_at (nodes st) current) t = Ok m_prime →
  shape net (add_node current t m_prime st).
Proof.
  intros [Hc Hq Hn] Hr Hfin Hsucc.
  pose proof (add_node_agree current t m_prime st) as Hag.
  split.
  - simpl. rewrite length_app, length_alter. simpl. lia.
  - simpl. intros r [Hr'%Hq|Hr']%elem_of_app;
      rewrite length_app, length_alter; simpl; [lia|].
    apply list_elem_of_singleton in Hr'. lia.
  - intros r n Hlook. simpl in Hlook.
    apply lookup_app_Some in Hlook as [Hlook|[Hge Hlook]].
    + rewrite list_lookup_alter in Hlook.
      assert (∃ n0, nodes st !! r = Some n0 ∧ frozen_eq n0 n)
        as (n0 & H0 & Hfr).
      { case_decide; [|eauto using frozen_eq_refl]. subst.
        destruct (nodes st !! r) as [n0|]; simplify_eq/=.
        eauto using frozen_eq_with_child. }
      eapply node_inv_agree; [by apply Hn| |done|done].
      apply lookup_lt_Some in H0. lia.
    + rewrite length_alter in Hge, Hlook.
      apply list_lookup_singleton_Some in Hlook as [Hr0 <-].
      assert (r = length (nodes st)) as -> by lia.
      eapply node_inv_agree; [|done|done|apply frozen_eq_refl].
      rewrite Hc. by apply successor_node_inv.
Qed.

Lemma expand_shape current : ∀ enabled st,
  shape net st → current < length (nodes st) →
  all_finite (marking_at (nodes st) current) →
  shape net (result_state (expand net current enabled st)).
Proof.
  induction enabled as [|t enabled IH]; intros st Hsh Hr Hfin; simpl; [done|].
  destruct (successor _ _ _ t) as [m_prime|] eqn:Hsucc; simpl; [|done].
  pose proof (add_node_agree current t m_prime st) as Hag.
  apply IH.
  - by apply add_node_shape.
  - simpl. rewrite length_app, length_alter. lia.
  - by rewrite (agree_marking_at _ _ _ Hag Hr).
Qed.

Lemma iteration_shape st :
  shape net st → shape net (result_state (iteration net st)).
Proof.
  intros Hsh. unfold iteration.
  destruct (new_nodes st) as [|current rest] eqn:Hqueue; [done|].
  pose proof (dequeue_shape _ _ _ Hsh Hqueue) as Hsh0.
  set (st0 := {| nodes := nodes st; edges := edges st; root := root st;
                 new_nodes := rest; node_counter := node_counter st |}) in *.
  pose proof (set_tag_shape current Processed _ Hsh0) as Hsh1.
  set (st1 := set_tag current Processed st0) in *.
  assert (current < length (nodes st1)) as Hr.
  { simpl. rewrite length_alter. apply (sh_queue _ _ Hsh).
    rewrite Hqueue. by left. }
  destruct (old_check _ _ _) as [[]|] eqn:Hold; simpl; [|..|done].
  { by apply set_tag_shape. }
  destruct (get_enabled_transitions _ _) as [[|t enabled]|]; [|..|done].
  { by apply set_tag_shape. }
  apply (expand_shape current (t :: enabled) st1); [done..|].
  apply not_old_finite; [|done..]. apply (sh_node _ _ Hsh1).
Qed.

Lemma init_shape : shape net (init_state net).
Proof.
  split; simpl; [done|..].
  - intros r ->%list_elem_of_singleton. lia.
  - intros r n [-> <-]%list_lookup_singleton_Some.
    unfold node_inv; simpl. split; [done|]. split; [by rewrite length_fmap|].
    exists []. split_and!; try done.
    + by intros a ?%elem_of_nil.
    + left. apply all_finite_fmap_Fin.
Qed.

Lemma reach_shape st : reach net st → shape net st.
Proof.
  induction 1 as [|st st' _ IH Hstep]; [apply init_shape|].
  apply iteration_shape in IH. by rewrite Hstep in IH.
Qed.
End Shape.

(** ** What the loop can raise *)

Section Errors.
Context (net : PetriNetwork).

(** What line 149 passes to [fire_transition] holds numbers only. *)
Lemma firing_marking_all_finite cur : all_finite (firing_marking cur).
Proof.
  unfold all_finite, firing_marking. apply Forall_fmap, Forall_forall.
  intros v _. simpl. by destruct v.
Qed.

Lemma fire_transition_raise t m e :
  all_finite m →
  fire_transition net t m = Raise e →
  is_enabled net t m = Ok true → lookup_error e.
Proof.
  unfold fire_transition, is_enabled. intros Hfin Hfire Hen.
  rewrite Hen in Hfire. simpl in Hfire.
  destruct (dict_get _ t) as [tr|]; [|done].
  destruct (remove_tokens net m (tr_in tr)) as [m1|] eqn:E1; simpl in Hfire.
  - apply add_tokens_raise in Hfire as [_ H]. apply H.
    by eapply remove_tokens_finite.
  - simplify_eq. apply remove_tokens_raise in E1 as [_ H]. by apply H.
Qed.

Lemma successor_raise ns cur t e :
  successor net ns cur t = Raise e →
  is_enabled net t (firing_marking (marking cur)) = Ok true →
  lookup_error e.
Proof.
  unfold successor, fire_step. intros Hsucc Hen.
  destruct (fire_transition _ _ _) as [m1|] eqn:E1; simpl in Hsucc.
  - destruct (restore_omega 0 _ m1) as [m2|] eqn:E2; simpl in Hsucc.
    + left. by eapply omega_walk_raise.
    + simplify_eq. left. by eapply restore_omega_raise.
  - simplify_eq.
    by eapply fire_transition_raise; [apply firing_marking_all_finite|..].
Qed.

Lemma expand_raise current e st' : ∀ enabled st,
  current < length (nodes st) →
  all_finite (marking_at (nodes st) current) →
  (∀ t, t ∈ enabled →
     is_enabled net t (marking_at (nodes st) current) = Ok true) →
  expand net current enabled st = Fail e st' → lookup_error e.
Proof.
  induction enabled as [|t enabled IH]; intros st Hr Hfin Hen; simpl; [done|].
  destruct (successor _ _ _ t) as [m_prime|] eqn:Hsucc.
  - pose proof (add_node_agree current t m_prime st) as Hag.
    apply IH.
    + simpl. rewrite length_app, length_alter. lia.
    + by rewrite (agree_marking_at _ _ _ Hag Hr).
    + intros t' Ht'. rewrite (agree_marking_at _ _ _ Hag Hr).
      apply Hen. by right.
  - intros [= <- <-]. eapply successor_raise; [done|].
    fold (marking_at (nodes st) current).
    rewrite firing_marking_finite by done. apply Hen. by left.
Qed.

Lemma iteration_raise st e st' :
  shape net st → iteration net st = Fail e st' → lookup_error e.
Proof.
  intros Hsh. unfold iteration.
  destruct (new_nodes st) as [|current rest] eqn:Hqueue; [done|].
  pose proof (dequeue_shape _ _ _ _ Hsh Hqueue) as Hsh0.
  set (st0 := {| nodes := nodes st; edges := edges st; root := root st;
                 new_nodes := rest; node_counter := node_counter st |}) in *.
  pose proof (set_tag_shape _ current Processed _ Hsh0) as Hsh1.
  set (st1 := set_tag current Processed st0) in *.
  assert (current < length (nodes st1)) as Hr.
  { simpl. rewrite length_alter. apply (sh_queue _ _ Hsh).
    rewrite Hqueue. by left. }
  destruct (old_check _ _ _) as [[]|] eqn:Hold; [done|..].
  - destruct (get_enabled_transitions _ _) as [[|t enabled]|] eqn:Hen; [done|..].
    + apply (expand_raise current e st' (t :: enabled) st1); [done|..].
      * apply not_old_finite with net; [|done..]. apply (sh_node _ _ Hsh1).
      * by apply get_enabled_transitions_Ok.
    + intros [= <- <-]. by eapply filter_enabled_raise.
  - intros [= <- <-]. left. by eapply old_check_raise.
Qed.

Lemma build_loop_shape fuel : ∀ st,
  shape net st → shape net (final_state (build_loop net fuel st)).
Proof.
  induction fuel as [|fuel IH]; intros st Hsh; simpl.
  { by destruct (new_nodes st). }
  destruct (new_nodes st) eqn:Hq; [done|].
  pose proof (iteration_shape net st Hsh) as Hit.
  destruct (iteration net st); simpl in *; [by apply IH | done].
Qed.

Lemma build_loop_raise fuel : ∀ st e st',
  shape net st → build_loop net fuel st = Raised e st' → lookup_error e.
Proof.
  induction fuel as [|fuel IH]; intros st e st' Hsh; simpl.
  { by destruct (new_nodes st). }
  destruct (new_nodes st) eqn:Hq; [done|].
  pose proof (iteration_shape net st Hsh) as Hit.
  destruct (iteration net st) eqn:Hstep; simpl in Hit.
  - by apply IH.
  - intros [= <- <-]. exact (iteration_raise st _ _ Hsh Hstep).
Qed.

Lemma build_loop_reach fuel : ∀ st st',
  reach net st → build_loop net fuel st = Done st' →
  reach net st' ∧ new_nodes st' = [].
Proof.
  induction fuel as [|fuel IH]; intros st st' Hre; simpl.
  { destruct (new_nodes st) eqn:Hq; [|done]. by intros [= <-]. }
  destruct (new_nodes st) eqn:Hq; [by intros [= <-]|].
  destruct (iteration net st) eqn:Hstep; [|done].
  apply IH. by eapply reach_step.
Qed.
End Errors.

(** C4: the tree builder never reaches the error branch of
    [fire_transition].  With whatever net and however long the loop runs,
    [build_tree] does not end in the [ValueError] that [fire_transition]
    raises for a transition that is not enabled in the marking it is given:
    every transition the builder fires is enabled in the marking it passes
    (the error is raised exactly when it is not, and nothing catches it). *)
Theorem C4_builder_never_fires_disabled net fuel t st :
  build_tree net fuel ≠ Raised (ValueError_cannot_be_fired t) st.
Proof.
  intros H. apply build_loop_raise in H as [|[]]; [done..|].
  apply init_shape.
Qed.

(** ** Tags and children *)

Section Tags.
Context (net : PetriNetwork).

Lemma init_tags : tags_ok None (init_state net).
Proof.
  split; simpl.
  - apply NoDup_singleton.
  - intros r ->%list_elem_of_singleton. lia.
  - intros r n [-> <-]%list_lookup_singleton_Some.
    by rewrite decide_True by (by apply list_elem_of_singleton).
Qed.

Lemma dequeue_tags st current rest :
  tags_ok None st → new_nodes st = current :: rest →
  let st1 := set_tag current Processed
               {| nodes := nodes st; edges := edges st; root := root st;
                  new_nodes := rest; node_counter := node_counter st |} in
  tags_ok (Some current) st1 ∧ (current ∉ rest)
  ∧ current < length (nodes st1)
  ∧ children (node_at (nodes st1) current) = [].
Proof.
  intros [Hnd Hq Hn] Hqueue. rewrite Hqueue in Hnd, Hq.
  apply NoDup_cons in Hnd as [Hnotin Hnd].
  assert (current < length (nodes st)) as Hr by (apply Hq; by left).
  simpl. split_and!; [split; simpl|done|by rewrite length_alter|].
  - done.
  - intros r Hr'. rewrite length_alter. apply Hq. by right.
  - intros r n Hlook. rewrite list_lookup_alter in Hlook.
    destruct (decide (r = current)) as [->|Hne].
    + rewrite decide_False, decide_True by done.
      rewrite decide_True in Hlook by done.
      destruct (nodes st !! current); by simplify_eq/=.
    + rewrite decide_False in Hlook by done.
      specialize (Hn r n Hlook). rewrite Hqueue in Hn.
      destruct (decide (r ∈ rest)) as [Hin|Hnin].
      * rewrite decide_True in Hn by (by right). done.
      * rewrite decide_False in Hn by (intros [?|?]%elem_of_cons; done).
        rewrite decide_False by congruence.
        by rewrite decide_False in Hn by done.
  - unfold node_at. rewrite list_lookup_total_alter_eq by done. simpl.
    specialize (Hn current _ (node_at_lt _ _ Hr)).
    rewrite Hqueue, decide_True in Hn by (by left). apply Hn.
Qed.

Lemma set_tag_final st current tg :
  tags_ok (Some current) st → current ∉ new_nodes st →
  children (node_at (nodes st) current) = [] →
  tg = Old ∨ tg = DeadEnd →
  tags_ok None (set_tag current tg st).
Proof.
  intros [Hnd Hq Hn] Hnotin Hch Htg. split; simpl; [done|..].
  - intros r Hr. rewrite length_alter. by apply Hq.
  - intros r n Hlook. rewrite list_lookup_alter in Hlook.
    destruct (decide (r = current)) as [->|Hne].
    + rewrite decide_False by done.
      rewrite decide_True in Hlook by done.
      destruct (nodes st !! current) as [n0|] eqn:E0; simplify_eq/=.
      rewrite (node_at_lookup _ _ _ E0) in Hch. by right.
    + rewrite decide_False in Hlook by done.
      specialize (Hn r n Hlook). case_decide; [done|].
      by rewrite decide_False in Hn by congruence.
Qed.

Lemma add_node_tags st current t m_prime :
  tags_ok (Some current) st → current ∉ new_nodes st →
  current < length (nodes st) →
  let st' := add_node current t m_prime st in
  tags_ok (Some current) st' ∧ (current ∉ new_nodes st')
  ∧ current < length (nodes st')
  ∧ children (node_at (nodes st') current) ≠ [].
Proof.
  intros [Hnd Hq Hn] Hnotin Hr. simpl.
  assert (length (nodes st) ∉ new_nodes st) as Hfresh.
  { intros ?%Hq. lia. }
  split_and!; [split; simpl|..].
  - apply NoDup_app. split_and!; [done| |apply NoDup_singleton].
    intros r Hr' ->%list_elem_of_singleton. done.
  - intros r [Hr'%Hq|Hr']%elem_of_app;
      rewrite length_app, length_alter; simpl; [lia|].
    apply list_elem_of_singleton in Hr'. lia.
  - intros r n Hlook.
    apply lookup_app_Some in Hlook as [Hlook|[Hge Hlook]].
    + rewrite list_lookup_alter in Hlook.
      destruct (decide (r = current)) as [->|Hne].
      * rewrite decide_True in Hlook by done.
        destruct (nodes st !! current) as [n0|] eqn:E0; simplify_eq/=.
        specialize (Hn _ _ E0).
        rewrite decide_False, decide_True in Hn by done.
        rewrite decide_False, decide_True; [done..|].
        intros [?|?%list_elem_of_singleton]%elem_of_app; [done|lia].
      * rewrite decide_False in Hlook by done.
        specialize (Hn r n Hlook).
        assert (r ≠ length (nodes st)).
        { apply lookup_lt_Some in Hlook. lia. }
        destruct (decide (r ∈ new_nodes st)) as [Hin|Hnin].
        -- rewrite decide_True; [done|]. apply elem_of_app. by left.
        -- rewrite decide_False; [done|].
           intros [?|?%list_elem_of_singleton]%elem_of_app; done.
    + rewrite length_alter in Hge, Hlook.
      apply list_lookup_singleton_Some in Hlook as [Hr0 <-].
      rewrite decide_True; [done|].
      apply elem_of_app. right. apply list_elem_of_singleton. lia.
  - intros [?|?%list_elem_of_singleton]%elem_of_app; [done|lia].
  - rewrite length_app, length_alter. lia.
  - unfold node_at. rewrite lookup_total_app_l by (by rewrite length_alter).
    rewrite list_lookup_total_alter_eq by done. simpl.
    by destruct (children _).
Qed.

Lemma expand_tags current : ∀ enabled st st',
  tags_ok (Some current) st → current ∉ new_nodes st →
  current < length (nodes st) →
  expand net current enabled st = Cont st' →
  tags_ok (Some current) st' ∧ (current ∉ new_nodes st')
  ∧ (children (node_at (nodes st) current) ≠ [] ∨ enabled ≠ [] →
     children (node_at (nodes st') current) ≠ []).
Proof.
  induction enabled as [|t enabled IH]; intros st st' Htg Hnotin Hr; simpl.
  { intros [= <-]. split_and!; [done..|]. by intros [?|?]. }
  destruct (successor _ _ _ t) as [m_prime|]; [|done].
  intros Hexp.
  destruct (add_node_tags st current t m_prime Htg Hnotin Hr)
    as (Htg' & Hnotin' & Hr' & Hch').
  destruct (IH _ _ Htg' Hnotin' Hr' Hexp) as (? & ? & Hch).
  split_and!; [done..|]. intros _. apply Hch. by left.
Qed.

Lemma close_tags st current :
  tags_ok (Some current) st → current ∉ new_nodes st →
  children (node_at (nodes st) current) ≠ [] →
  tags_ok None st.
Proof.
  intros [Hnd Hq Hn] Hnotin Hch. split; [done..|].
  intros r n Hlook. specialize (Hn r n Hlook).
  case_decide; [done|]. case_decide as Hd; [|done].
  simplify_eq. rewrite (node_at_lookup _ _ _ Hlook) in Hch. by left.
Qed.

Lemma iteration_tags st st' :
  tags_ok None st → iteration net st = Cont st' → tags_ok None st'.
Proof.
  intros Htg. unfold iteration.
  destruct (new_nodes st) as [|current rest] eqn:Hqueue; [by intros [= <-]|].
  destruct (dequeue_tags st current rest Htg Hqueue)
    as (Htg1 & Hnotin & Hr & Hch).
  set (st1 := set_tag current Processed _) in *.
  destruct (old_check _ _ _) as [[]|]; [| |done].
  { intros [= <-]. apply set_tag_final; auto. }
  destruct (get_enabled_transitions _ _) as [[|t enabled]|]; [| |done].
  { intros [= <-]. apply set_tag_final; auto. }
  intros Hexp.
  destruct (expand_tags current (t :: enabled) st1 st' Htg1 Hnotin Hr Hexp)
    as (Htg' & Hnotin' & Hch').
  apply close_tags with current; [done..|]. apply Hch'. by right.
Qed.

Lemma reach_tags st : reach net st → tags_ok None st.
Proof.
  induction 1 as [|st st' _ IH Hstep]; [apply init_tags|].
  by eapply iteration_tags.
Qed.
End Tags.

(** C9: when [build_tree] completes, no node is left [New]: every node
    is [Processed], [Old] or [DeadEnd]; an [Old] or [DeadEnd] node has no
    children, and a [Processed] node has at least one. *)
Theorem C9_final_tags net fuel st :
  build_tree net fuel = Done st →
  ∀ r n, nodes st !! r = Some n →
    (tag n = Processed ∨ tag n = Old ∨ tag n = DeadEnd)
    ∧ (tag n = Old ∨ tag n = DeadEnd → children n = [])
    ∧ (tag n = Processed → children n ≠ []).
Proof.
  intros Hdone r n Hlook.
  apply build_loop_reach in Hdone as [Hre Hq]; [|apply reach_init].
  apply reach_tags in Hre as [_ _ Hn]. specialize (Hn r n Hlook).
  rewrite Hq in Hn. rewrite decide_False in Hn by apply not_elem_of_nil.
  rewrite decide_False in Hn by done.
  destruct Hn as [[Ht Hc]|[Ht Hc]].
  - split_and!; [by left|intros []; congruence|done].
  - split_and!; [right; tauto|done|]. intros ?. destruct Ht; congruence.
Qed.

Lemma C9_final_tags_witness :
  ∃ st n, build_tree scenario1 5 = Done st ∧ nodes st !! 0 = Some n
    ∧ (tag n = Processed ∨ tag n = Old ∨ tag n = DeadEnd)
    ∧ (tag n = Old ∨ tag n = DeadEnd → children n = [])
    ∧ (tag n = Processed → children n ≠ []).
Proof.
  eexists _, _. split; [reflexivity|]. split; [reflexivity|].
  apply (C9_final_tags scenario1 5 _ eq_refl 0). reflexivity.
Defined.

(** ** Determinism *)

Lemma build_loop_more_fuel net n : ∀ m st,
  n ≤ m → (∀ s, build_loop net n st ≠ OutOfFuel s) →
  build_loop net m st = build_loop net n st.
Proof.
  induction n as [|n IH]; intros m st Hle Hfuel.
  - destruct m as [|m]; [done|]. simpl in *.
    destruct (new_nodes st); [done|]. by destruct (Hfuel st).
  - destruct m as [|m]; [lia|]. simpl in *.
    destruct (new_nodes st); [done|].
    destruct (iteration net st); [|done]. apply IH; [lia|done].
Qed.


Section Reuse.
Context (net : PetriNetwork) (old_nodes : list TreeNode).
Context (old_edges : list (nat * nat * string)).











End Reuse.



(** ** The ancestor walk *)

Lemma nodes_inv_path_head net ns :
  nodes_inv net ns →
  ∀ r n, ns !! r = Some n → head (path_to_root n) = Some 0.
Proof.
  intros Hinv r. induction (lt_wf r) as [r _ IH]. intros n Hlook.
  destruct (Hinv r n Hlook) as (_ & _ & p & Hp & Hlt & _ & HK).
  destruct (parent n) as [q|], (transition n) as [t|]; try done.
  - destruct HK as (Hq & Hpq & _).
    assert (q < length ns) as Hq'.
    { apply lookup_lt_Some in Hlook. lia. }
    specialize (IH q Hq _ (node_at_lt ns q Hq')).
    rewrite Hp, Hpq. by destruct (path_to_root (node_at ns q)).
  - destruct HK as (-> & -> & _). by rewrite Hp.
Qed.

(** C6: the marking of every child comes from the successor by the walk
    of step 5b.  Let a node of the tree have parent [p] and transition [t].
    Firing [t] at [p] gave a successor [s]; the path-to-root of [p] begins
    with the root and ends with [p] itself; and the marking of the node is
    [s] accelerated against the first marking on that path, in order, that
    [s] covers without being equal to it (nothing after it is looked at), or
    [s] itself when there is none. *)
Theorem C6_first_ancestor_wins net fuel c n p t :
  let ns := nodes (final_state (build_tree net fuel)) in
  ns !! c = Some n → parent n = Some p → transition n = Some t →
  ∃ s ancestors,
    path_to_root (node_at ns p) = ancestors ++ [p]
    ∧ head (path_to_root (node_at ns p)) = Some 0
    ∧ fire_step net t (marking_at ns p) = Ok s
    ∧ marking n = first_match s (marking_at ns <$> ancestors ++ [p]).
Proof.
  intros ns Hlook Hp Ht.
  pose proof (build_loop_shape net fuel _ (init_shape net)) as [_ _ Hinv].
  fold (build_tree net fuel) in Hinv. fold ns in Hinv.
  destruct (Hinv c n Hlook) as (_ & _ & path & Hpath & Hlt & _ & HK).
  rewrite Hp, Ht in HK. destruct HK as (Hq & Hpq & _ & s & Hs & _ & Hm).
  assert (p < length ns) as Hp'.
  { apply lookup_lt_Some in Hlook. lia. }
  destruct (Hinv p _ (node_at_lt ns p Hp')) as (_ & _ & anc & Hanc & _).
  exists s, anc. split_and!; [done| |done|].
  - by apply (nodes_inv_path_head net ns Hinv p), node_at_lt.
  - by rewrite <-Hanc, <-Hpq.
Qed.

Lemma C6_first_ancestor_wins_witness :
  let ns := nodes (final_state (build_tree scenario1 5)) in
  ∃ n, ns !! 1 = Some n ∧ parent n = Some 0 ∧ transition n = Some "t1"
    ∧ ∃ s ancestors,
        path_to_root (node_at ns 0) = ancestors ++ [0]
        ∧ head (path_to_root (node_at ns 0)) = Some 0
        ∧ fire_step scenario1 "t1" (marking_at ns 0) = Ok s
        ∧ marking n = first_match s (marking_at ns <$> ancestors ++ [0]).
Proof.
  intros ns. eexists. split; [reflexivity|]. split; [reflexivity|].
  split; [reflexivity|].
  apply (C6_first_ancestor_wins scenario1 5 1 _ 0 "t1"); reflexivity.
Defined.

(** The builder fires from finite markings only: the parent of every node
    carries no omega, so the substitution of line 149 left its marking as
    it was, and the transition was enabled in it. *)
Lemma builder_fires_finite net fuel c n p t :
  let ns := nodes (final_state (build_tree net fuel)) in
  ns !! c = Some n → parent n = Some p → transition n = Some t →
  all_finite (marking_at ns p)
  ∧ firing_marking (marking_at ns p) = marking_at ns p
  ∧ is_enabled net t (marking_at ns p) = Ok true.
Proof.
  intros ns Hlook Hp Ht.
  pose proof (build_loop_shape net fuel _ (init_shape net)) as [_ _ Hinv].
  fold (build_tree net fuel) in Hinv. fold ns in Hinv.
  destruct (Hinv c n Hlook) as (_ & _ & path & _ & _ & _ & HK).
  rewrite Hp, Ht in HK. destruct HK as (_ & _ & Hfin & s & Hs & _).
  split_and!; [done|by apply firing_marking_finite|].
  rewrite fire_step_finite in Hs by done.
  by apply fire_transition_Ok in Hs as (? & _).
Qed.

(** ** Firing in closed form *)

Lemma dict_get_None {V} (d : dict V) k : k ∉ d.*1 → dict_get d k = None.
Proof.
  induction d as [|[k' v] d IH]; simpl; [done|].
  intros Hk. apply not_elem_of_cons in Hk as [Hne Hk].
  rewrite decide_False by done. by apply IH.
Qed.

Lemma dict_get_elem_of {V} (d : dict V) k v : dict_get d k = Some v → (k, v) ∈ d.
Proof.
  induction d as [|[k' v'] d IH]; simpl; [done|].
  case_decide; [intros [= <-]; subst; by left|]. intros ?%IH. by right.
Qed.

Lemma weight_of_cons d p0 w p :
  weight_of ((p0, w) :: d) p = if decide (p0 = p) then w else weight_of d p.
Proof. unfold weight_of. simpl. by case_decide. Qed.

Lemma omega_sub_0 v : omega_sub v 0 = v.
Proof. destruct v; simpl; [f_equal; lia|done]. Qed.

Lemma omega_add_0 v : omega_add v 0 = v.
Proof. destruct v; simpl; [f_equal; lia|done]. Qed.

(** The code's arithmetic is the omega algebra on every int, and on [inf]
    for every weight that converts to a float. *)
Lemma mval_sub_omega v w :
  is_inf v = false ∨ float_overflows w = false →
  mval_sub v w = Ok (omega_sub v w).
Proof. destruct v; simpl; [done|]. by intros [?| ->]. Qed.

Lemma mval_add_omega v w :
  is_inf v = false ∨ float_overflows w = false →
  mval_add v w = Ok (omega_add v w).
Proof. destruct v; simpl; [done|]. by intros [?| ->]. Qed.

Lemma omega_sub_finite v w : is_inf v = false → is_inf (omega_sub v w) = false.
Proof. by destruct v. Qed.

Lemma omega_add_finite v w : is_inf v = false → is_inf (omega_add v w) = false.
Proof. by destruct v. Qed.

Lemma zip_with_places_id (pl : list string) (f : string → mval → mval) (m : Marking) :
  length m = length pl → (∀ p v, f p v = v) → zip_with f pl m = m.
Proof.
  revert m. induction pl as [|p pl IH]; intros [|v m] Hlen Hf; simplify_eq/=;
    [done|]. by rewrite Hf, IH.
Qed.

(** One pass of either update loop: the entry at the place's position is
    changed by the weight, and the loop goes on. *)
Lemma zip_with_places_insert (op : mval → Z → mval) pl d p0 w idx v (m : Marking) :
  (∀ v, op v 0%Z = v) →
  NoDup pl → index pl p0 = Ok idx → m !! idx = Some v → p0 ∉ d.*1 →
  zip_with (λ p v, op v (weight_of d p)) pl (<[idx := op v w]> m)
  = zip_with (λ p v, op v (weight_of ((p0, w) :: d) p)) pl m.
Proof.
  intros Hop Hnd Hidx Hv Hfresh. apply index_Ok in Hidx.
  apply list_eq. intros j. rewrite !lookup_zip_with.
  destruct (pl !! j) as [p|] eqn:Ep; simpl; [|done].
  rewrite weight_of_cons. destruct (decide (j = idx)) as [->|Hne].
  - assert (p = p0) as -> by congruence.
    rewrite list_lookup_insert_eq by (by eapply lookup_lt_Some).
    rewrite Hv. simpl. rewrite decide_True by done.
    unfold weight_of. rewrite dict_get_None by done. simpl. by rewrite Hop.
  - rewrite list_lookup_insert_ne by done.
    rewrite decide_False; [done|]. intros ->. apply Hne.
    by eapply NoDup_lookup.
Qed.

Section ClosedForm.
Context (net : PetriNetwork).
Hypothesis Hplaces : NoDup (places net).

Lemma remove_tokens_closed items : ∀ m,
  valid_weights (places net) items → length m = length (places net) →
  all_finite m ∨ Forall (λ pw, float_overflows pw.2 = false) items →
  remove_tokens net m items
  = Ok (zip_with (λ p v, omega_sub v (weight_of items p)) (places net) m).
Proof.
  induction items as [|[p0 w] items IH]; intros m [Hok Hin] Hlen Hsafe; simpl.
  { by rewrite zip_with_places_id by auto using omega_sub_0. }
  apply NoDup_cons in Hok as [Hfresh Hok].
  apply Forall_cons in Hin as [[Hp0 _] Hin]. simpl in Hp0.
  destruct (index_elem_of _ _ Hp0) as [idx Hidx]. rewrite Hidx. simpl.
  destruct (getitem_lt m idx) as [v Hv].
  { rewrite Hlen. apply index_Ok in Hidx. by eapply lookup_lt_Some. }
  rewrite Hv. simpl.
  assert (is_inf v = false ∨ float_overflows w = false) as Hvw.
  { destruct Hsafe as [Hfin|Hw]; [left; by eapply all_finite_lookup|].
    right. by apply Forall_cons in Hw as [? _]. }
  rewrite (mval_sub_omega v w Hvw). simpl. apply getitem_Ok in Hv.
  rewrite IH; [|done|by rewrite length_insert|].
  - f_equal.
    by apply (zip_with_places_insert omega_sub); auto using omega_sub_0.
  - destruct Hsafe as [Hfin|Hw]; [left|right; by apply Forall_cons in Hw as []].
    apply all_finite_insert; [done|]. apply omega_sub_finite.
    eapply all_finite_lookup; [done|]. by apply getitem_Ok.
Qed.

Lemma add_tokens_closed items : ∀ m,
  valid_weights (places net) items → length m = length (places net) →
  all_finite m ∨ Forall (λ pw, float_overflows pw.2 = false) items →
  add_tokens net m items
  = Ok (zip_with (λ p v, omega_add v (weight_of items p)) (places net) m).
Proof.
  induction items as [|[p0 w] items IH]; intros m [Hok Hin] Hlen Hsafe; simpl.
  { by rewrite zip_with_places_id by auto using omega_add_0. }
  apply NoDup_cons in Hok as [Hfresh Hok].
  apply Forall_cons in Hin as [[Hp0 _] Hin]. simpl in Hp0.
  destruct (index_elem_of _ _ Hp0) as [idx Hidx]. rewrite Hidx. simpl.
  destruct (getitem_lt m idx) as [v Hv].
  { rewrite Hlen. apply index_Ok in Hidx. by eapply lookup_lt_Some. }
  rewrite Hv. simpl.
  assert (is_inf v = false ∨ float_overflows w = false) as Hvw.
  { destruct Hsafe as [Hfin|Hw]; [left; by eapply all_finite_lookup|].
    right. by apply Forall_cons in Hw as [? _]. }
  rewrite (mval_add_omega v w Hvw). simpl. apply getitem_Ok in Hv.
  rewrite IH; [|done|by rewrite length_insert|].
  - f_equal.
    by apply (zip_with_places_insert omega_add); auto using omega_add_0.
  - destruct Hsafe as [Hfin|Hw]; [left|right; by apply Forall_cons in Hw as []].
    apply all_finite_insert; [done|]. apply omega_add_finite.
    eapply all_finite_lookup; [done|]. by apply getitem_Ok.
Qed.

Lemma mval_sub_Ok v w x : mval_sub v w = Ok x → x = omega_sub v w.
Proof. destruct v; simpl; [by intros [= <-]|]. by case_match; intros [= <-]. Qed.

Lemma mval_add_Ok v w x : mval_add v w = Ok x → x = omega_add v w.
Proof. destruct v; simpl; [by intros [= <-]|]. by case_match; intros [= <-]. Qed.

(** Whatever the two loops return is the closed form. *)
Lemma remove_tokens_Ok_closed items : ∀ m r,
  valid_weights (places net) items → length m = length (places net) →
  remove_tokens net m items = Ok r →
  r = zip_with (λ p v, omega_sub v (weight_of items p)) (places net) m.
Proof.
  induction items as [|[p0 w] items IH]; intros m r [Hok Hin] Hlen; simpl.
  { intros [= <-]. by rewrite zip_with_places_id by auto using omega_sub_0. }
  apply NoDup_cons in Hok as [Hfresh Hok].
  apply Forall_cons in Hin as [[Hp0 _] Hin]. simpl in Hp0.
  destruct (index _ p0) as [idx|] eqn:Hidx; simpl; [|done].
  destruct (getitem m idx) as [v|] eqn:Hv; simpl; [|done].
  destruct (mval_sub v w) as [x|] eqn:Hx; simpl; [|done].
  apply mval_sub_Ok in Hx as ->. apply getitem_Ok in Hv.
  intros Hr%IH; [|done|by rewrite length_insert]. rewrite Hr.
  by apply (zip_with_places_insert omega_sub); auto using omega_sub_0.
Qed.

Lemma add_tokens_Ok_closed items : ∀ m r,
  valid_weights (places net) items → length m = length (places net) →
  add_tokens net m items = Ok r →
  r = zip_with (λ p v, omega_add v (weight_of items p)) (places net) m.
Proof.
  induction items as [|[p0 w] items IH]; intros m r [Hok Hin] Hlen; simpl.
  { intros [= <-]. by rewrite zip_with_places_id by auto using omega_add_0. }
  apply NoDup_cons in Hok as [Hfresh Hok].
  apply Forall_cons in Hin as [[Hp0 _] Hin]. simpl in Hp0.
  destruct (index _ p0) as [idx|] eqn:Hidx; simpl; [|done].
  destruct (getitem m idx) as [v|] eqn:Hv; simpl; [|done].
  destruct (mval_add v w) as [x|] eqn:Hx; simpl; [|done].
  apply mval_add_Ok in Hx as ->. apply getitem_Ok in Hv.
  intros Hr%IH; [|done|by rewrite length_insert]. rewrite Hr.
  by apply (zip_with_places_insert omega_add); auto using omega_add_0.
Qed.

Lemma fire_transition_Ok_closed t tr m r :
  dict_get (transitions net) t = Some tr →
  valid_weights (places net) (tr_in tr) →
  valid_weights (places net) (tr_out tr) →
  length m = length (places net) →
  fire_transition net t m = Ok r → r = omega_fire net tr m.
Proof.
  intros Htr Hin Hout Hlen. unfold fire_transition.
  destruct (is_enabled net t m) as [[]|]; simpl; try done.
  rewrite Htr.
  destruct (remove_tokens net m (tr_in tr)) as [m1|] eqn:E1; simpl; [|done].
  apply remove_tokens_Ok_closed in E1 as ->; [|done..].
  intros ->%add_tokens_Ok_closed; [|done|by rewrite length_zip_with; lia].
  unfold omega_fire. apply list_eq. intros j.
  rewrite !lookup_zip_with.
  destruct (places net !! j); simpl; [|done].
  by destruct (m !! j).
Qed.

(** [fire_transition] computes the closed form: on every marking of
    numbers, and on a marking with omega entries when the weights of the
    transition convert to floats. *)
Lemma fire_transition_closed t tr m :
  dict_get (transitions net) t = Some tr →
  valid_weights (places net) (tr_in tr) →
  valid_weights (places net) (tr_out tr) →
  length m = length (places net) →
  all_finite m ∨ float_weights tr →
  is_enabled net t m = Ok true →
  fire_transition net t m = Ok (omega_fire net tr m).
Proof.
  intros Htr Hin Hout Hlen Hsafe Hen. unfold fire_transition.
  rewrite Hen, Htr. simpl.
  rewrite remove_tokens_closed; [|done|done|].
  2:{ destruct Hsafe as [|Hw]; [by left|right].
      by apply Forall_app in Hw as []. }
  simpl.
  rewrite add_tokens_closed; [|done|by rewrite ?length_zip_with; try lia|].
  2:{ destruct Hsafe as [Hfin|Hw]; [left|right; by apply Forall_app in Hw as []].
      unfold all_finite in *. apply Forall_lookup. intros j x.
      rewrite lookup_zip_with. intros Hx.
      destruct (places net !! j); simpl in Hx; [|done].
      destruct (m !! j) as [v|] eqn:Ev; simpl in Hx; [|done].
      injection Hx as <-. apply omega_sub_finite.
      rewrite Forall_lookup in Hfin. by apply (Hfin j). }
  f_equal. unfold omega_fire. apply list_eq. intros j.
  rewrite !lookup_zip_with.
  destruct (places net !! j); simpl; [|done].
  by destruct (m !! j).
Qed.
End ClosedForm.



(** ** Nets whose lookups succeed *)

Section Lookups.
Context (net : PetriNetwork).
Hypothesis Hlook : lookups_ok net.

Lemma lookups_ok_transition t tr :
  dict_get (transitions net) t = Some tr →
  items_ok net (tr_in tr) ∧ items_ok net (tr_out tr).
Proof.
  intros Htr%dict_get_elem_of. unfold lookups_ok in Hlook.
  rewrite Forall_forall in Hlook. specialize (Hlook _ Htr). simpl in Hlook.
  by apply Forall_app in Hlook.
Qed.

Lemma is_enabled_items_total m items :
  items_ok net items → length m = length (initial_marking net) →
  ∃ b, is_enabled_items net m items = Ok b.
Proof.
  intros Hok Hlen. induction Hok as [|[p w] items (i & Hi & Hlt) _ IH]; simpl;
    [eauto|].
  simpl in Hi. rewrite Hi. simpl.
  destruct (getitem_lt m i) as [v ->]; [lia|]. simpl.
  case_match; eauto.
Qed.

Lemma is_enabled_total t m :
  length m = length (initial_marking net) → ∃ b, is_enabled net t m = Ok b.
Proof.
  intros Hlen. unfold is_enabled.
  destruct (dict_get _ t) as [tr|] eqn:Htr; [|eauto].
  apply is_enabled_items_total; [|done].
  by apply (lookups_ok_transition t tr).
Qed.

Lemma filter_enabled_total m names :
  length m = length (initial_marking net) →
  ∃ l, filter_enabled net m names = Ok l.
Proof.
  intros Hlen. induction names as [|t names [l IH]]; simpl; [eauto|].
  destruct (is_enabled_total t m Hlen) as [b ->]. simpl.
  rewrite IH. simpl. eauto.
Qed.

Lemma remove_tokens_total items : ∀ m,
  items_ok net items → length m = length (initial_marking net) →
  all_finite m →
  ∃ m', remove_tokens net m items = Ok m'.
Proof.
  intros m Hok. revert m.
  induction Hok as [|[p w] items (i & Hi & Hlt) _ IH]; intros m Hlen Hfin;
    simpl; [eauto|].
  simpl in Hi. rewrite Hi. simpl.
  destruct (getitem_lt m i) as [v Hv]; [lia|]. rewrite Hv. simpl.
  destruct (mval_sub_finite v w _ (all_finite_lookup m i v Hfin Hv) eq_refl)
    as (x & -> & Hx). simpl.
  apply IH; [by rewrite length_insert|by apply all_finite_insert].
Qed.

Lemma add_tokens_total items : ∀ m,
  items_ok net items → length m = length (initial_marking net) →
  all_finite m →
  ∃ m', add_tokens net m items = Ok m'.
Proof.
  intros m Hok. revert m.
  induction Hok as [|[p w] items (i & Hi & Hlt) _ IH]; intros m Hlen Hfin;
    simpl; [eauto|].
  simpl in Hi. rewrite Hi. simpl.
  destruct (getitem_lt m i) as [v Hv]; [lia|]. rewrite Hv. simpl.
  destruct (mval_add_finite v w _ (all_finite_lookup m i v Hfin Hv) eq_refl)
    as (x & -> & Hx). simpl.
  apply IH; [by rewrite length_insert|by apply all_finite_insert].
Qed.

Lemma fire_transition_total t m :
  length m = length (initial_marking net) → all_finite m →
  is_enabled net t m = Ok true →
  ∃ m', fire_transition net t m = Ok m'.
Proof.
  intros Hlen Hfin Hen. unfold fire_transition. rewrite Hen. simpl.
  unfold is_enabled in Hen.
  destruct (dict_get _ t) as [tr|] eqn:Htr; [|done].
  destruct (lookups_ok_transition t tr Htr) as [Hin Hout].
  destruct (remove_tokens_total _ m Hin Hlen Hfin) as [m1 E1].
  rewrite E1. simpl.
  apply add_tokens_total; [done| |by eapply remove_tokens_finite].
  apply remove_tokens_length in E1. lia.
Qed.

Lemma successor_total ns current t :
  nodes_inv net ns → current < length ns →
  all_finite (marking_at ns current) →
  is_enabled net t (marking_at ns current) = Ok true →
  ∃ m_prime, successor net ns (node_at ns current) t = Ok m_prime.
Proof.
  intros Hinv Hr Hfin Hen. unfold successor. fold (marking_at ns current).
  destruct (Hinv current _ (node_at_lt ns current Hr)) as (_ & HL & _).
  fold (marking_at ns current) in HL.
  rewrite fire_step_finite by done.
  destruct (fire_transition_total t _ HL Hfin Hen) as [s Hs].
  rewrite Hs. simpl.
  apply fire_transition_Ok in Hs as (_ & Hlen & Hsfin).
  rewrite omega_walk_first_match; [eauto|by auto|].
  intros a Ha. rewrite Hlen, HL.
  by apply (nodes_inv_path net ns current Hinv Hr).
Qed.

Lemma expand_total current : ∀ enabled st,
  shape net st → current < length (nodes st) →
  all_finite (marking_at (nodes st) current) →
  (∀ t, t ∈ enabled →
     is_enabled net t (marking_at (nodes st) current) = Ok true) →
  ∃ st', expand net current enabled st = Cont st'.
Proof.
  induction enabled as [|t enabled IH]; intros st Hsh Hr Hfin Hen; simpl;
    [eauto|].
  destruct (successor_total (nodes st) current t) as [m_prime Hsucc];
    [apply Hsh|done|done|apply Hen; by left|].
  rewrite Hsucc.
  pose proof (add_node_agree current t m_prime st) as Hag.
  apply IH.
  - by apply add_node_shape.
  - simpl. rewrite length_app, length_alter. lia.
  - by rewrite (agree_marking_at _ _ _ Hag Hr).
  - intros t' Ht'. rewrite (agree_marking_at _ _ _ Hag Hr).
    apply Hen. by right.
Qed.

Lemma iteration_total st : shape net st → ∃ st', iteration net st = Cont st'.
Proof.
  intros Hsh. unfold iteration.
  destruct (new_nodes st) as [|current rest] eqn:Hqueue; [eauto|].
  pose proof (dequeue_shape _ _ _ _ Hsh Hqueue) as Hsh0.
  set (st0 := {| nodes := nodes st; edges := edges st; root := root st;
                 new_nodes := rest; node_counter := node_counter st |}) in *.
  pose proof (set_tag_shape _ current Processed _ Hsh0) as Hsh1.
  set (st1 := set_tag current Processed st0) in *.
  assert (current < length (nodes st1)) as Hr.
  { simpl. rewrite length_alter. apply (sh_queue _ _ Hsh).
    rewrite Hqueue. by left. }
  destruct (sh_node _ _ Hsh1 current _ (node_at_lt _ _ Hr))
    as (_ & HL & p & Hp & _).
  destruct (old_check_total (nodes st1) (marking (node_at (nodes st1) current))
              (removelast (path_to_root (node_at (nodes st1) current))))
    as [b Hold].
  { intros a Ha. rewrite HL.
    apply (nodes_inv_path net _ current (sh_node _ _ Hsh1) Hr).
    rewrite Hp in Ha |- *. rewrite removelast_last in Ha.
    apply elem_of_app. by left. }
  rewrite Hold. destruct b; [eauto|].
  destruct (filter_enabled_total (marking (node_at (nodes st1) current))
              (transitions net).*1 HL) as [enabled Hen].
  unfold get_enabled_transitions. rewrite Hen.
  destruct enabled as [|t enabled]; [eauto|].
  apply (expand_total current (t :: enabled) st1); [done..| |].
  - apply not_old_finite with net; [|done..]. apply (sh_node _ _ Hsh1).
  - by apply filter_enabled_Ok with (transitions net).*1.
Qed.

Lemma build_loop_total fuel : ∀ st e st',
  shape net st → build_loop net fuel st ≠ Raised e st'.
Proof.
  induction fuel as [|fuel IH]; intros st e st' Hsh; simpl.
  { by destruct (new_nodes st). }
  destruct (new_nodes st) eqn:Hq; [done|].
  destruct (iteration_total st Hsh) as [st1 Hstep].
  pose proof (iteration_shape net st Hsh) as Hit.
  rewrite Hstep in Hit |- *. by apply IH.
Qed.
End Lookups.

(** ** The root *)

Lemma expand_grows net current : ∀ enabled st,
  let st' := result_state (expand net current enabled st) in
  length (nodes st) ≤ length (nodes st') ∧ agree (nodes st) (nodes st').
Proof.
  induction enabled as [|t enabled IH]; intros st; simpl;
    [split; [lia|apply agree_refl]|].
  destruct (successor _ _ _ t) as [m_prime|]; simpl;
    [|split; [lia|apply agree_refl]].
  destruct (IH (add_node current t m_prime st)) as [Hlen Hag].
  assert (length (nodes st) ≤ length (nodes (add_node current t m_prime st))).
  { simpl. rewrite length_app, length_alter. lia. }
  split; [lia|].
  eapply agree_trans; [done|apply add_node_agree|done].
Qed.

Lemma iteration_grows net st :
  let st' := result_state (iteration net st) in
  length (nodes st) ≤ length (nodes st') ∧ agree (nodes st) (nodes st').
Proof.
  unfold iteration.
  destruct (new_nodes st) as [|current rest];
    [simpl; split; [lia|apply agree_refl]|].
  set (st1 := set_tag current Processed _).
  assert (length (nodes st) ≤ length (nodes st1)
          ∧ agree (nodes st) (nodes st1)) as H1.
  { simpl. rewrite length_alter.
    split; [lia|apply agree_alter, frozen_eq_with_tag]. }
  assert (∀ tg, length (nodes st) ≤ length (nodes (set_tag current tg st1))
                ∧ agree (nodes st) (nodes (set_tag current tg st1))) as H2.
  { intros tg. destruct H1 as [Hlen Hag]. simpl in *.
    rewrite !length_alter in *. split; [lia|].
    eapply agree_trans; [|done|apply agree_alter, frozen_eq_with_tag].
    by rewrite length_alter. }
  destruct (old_check _ _ _) as [[]|]; [apply H2| |apply H1].
  destruct (get_enabled_transitions _ _) as [[|t enabled]|];
    [apply H2| |apply H1].
  destruct (expand_grows net current (t :: enabled) st1) as [Hlen Hag].
  destruct H1 as [Hlen1 Hag1].
  split; [lia|]. by eapply agree_trans.
Qed.

Lemma build_loop_grows net fuel : ∀ st,
  let st' := final_state (build_loop net fuel st) in
  length (nodes st) ≤ length (nodes st') ∧ agree (nodes st) (nodes st').
Proof.
  induction fuel as [|fuel IH]; intros st; simpl.
  { destruct (new_nodes st); simpl; (split; [lia|apply agree_refl]). }
  destruct (new_nodes st) eqn:Hq; simpl; [split; [lia|apply agree_refl]|].
  destruct (iteration_grows net st) as [Hlen Hag].
  destruct (iteration net st) as [st1|e st1]; simpl in *; [|done].
  destruct (IH st1) as [Hlen' Hag'].
  split; [lia|]. by eapply agree_trans.
Qed.

Lemma valid_net_transition net t tr :
  valid_net net → dict_get (transitions net) t = Some tr →
  valid_weights (places net) (tr_in tr) ∧ valid_weights (places net) (tr_out tr).
Proof.
  intros Hv Htr%dict_get_elem_of.
  pose proof (vn_weights net Hv) as Hw. rewrite Forall_forall in Hw.
  apply (Hw _ Htr).
Qed.

Lemma scenario1_valid : valid_net scenario1.
Proof.
  split; simpl; try done.
  - apply NoDup_singleton.
  - repeat constructor. lia.
  - apply NoDup_singleton.
  - repeat constructor; simpl; try set_solver; try lia.
Qed.



(** Outside the builder the substitution of 1000 shows: on the marking
    [[omega]] the transition that takes 1001 tokens is enabled, but lines
    149-154 would fire it on [[1000]], where [fire_transition] raises. *)
Lemma fire_step_sentinel :
  is_enabled heavy_net "t1" [Omega] = Ok true
  ∧ firing_marking [Omega] = [Fin 1000]
  ∧ fire_step heavy_net "t1" [Omega] = Raise (ValueError_cannot_be_fired "t1").
Proof. by repeat split. Qed.

(** ** No validation *)

Lemma long_net_lookups_ok : lookups_ok long_net.
Proof.
  repeat constructor. exists 0. split; [reflexivity|]. simpl. lia.
Qed.

(** C5, as amended: the core has no validation step.  Whatever the input,
    [build_tree] begins by creating the root from the initial marking as it
    is given, so every outcome carries a tree with that root; the only
    failures it can end in are the lookup errors met while building (a place
    name that [places.index] does not find, a place position beyond the
    marking); and when every place named in a weight map is found at a
    position within the marking, the build raises nothing, whatever else is
    wrong with the net (marking longer than the place list, weights that are
    not positive, repeated place names). *)
Theorem C5_no_validation net fuel :
  (∃ n, nodes (final_state (build_tree net fuel)) !! 0 = Some n
        ∧ marking n = Fin <$> initial_marking net ∧ parent n = None)
  ∧ (∀ e st, build_tree net fuel = Raised e st → lookup_error e)
  ∧ (lookups_ok net → ∀ e st, build_tree net fuel ≠ Raised e st).
Proof.
  split_and!.
  - destruct (build_loop_grows net fuel (init_state net)) as [Hlen Hag].
    fold (build_tree net fuel) in Hlen, Hag. simpl in Hlen.
    exists (node_at (nodes (final_state (build_tree net fuel))) 0).
    destruct (Hag 0) as (Hm & _ & Hp & _); [simpl; lia|].
    split; [apply node_at_lt; lia|]. by rewrite <-Hm, <-Hp.
  - intros e st H. eapply build_loop_raise; [|done]. apply init_shape.
  - intros Hlook e st. apply build_loop_total; [done|]. apply init_shape.
Qed.

Lemma C5_no_validation_witness :
  lookups_ok long_net ∧ ∀ e st, build_tree long_net 5 ≠ Raised e st.
Proof.
  split; [apply long_net_lookups_ok|].
  apply (C5_no_validation long_net 5), long_net_lookups_ok.
Defined.

(** C5 as stated fails: the initial marking of [long_net] has two entries
    for one place, yet no failure is reported and a tree of two nodes is
    built. *)
Lemma C5_counterexample :
  ¬ valid_net long_net
  ∧ ∃ st, build_tree long_net 5 = Done st ∧ length (nodes st) = 2.
Proof.
  split.
  - intros Hv. by pose proof (vn_length _ Hv).
  - eexists. split; reflexivity.
Qed.

(** ** The [equal] flag and what follows from it *)

(** C1 fails on the code: with omega in [m1] against a finite entry in
    [m2], [compare_markings] leaves [equal] up. *)
Theorem C1_equal_flag_omega_against_finite :
  compare_markings [Omega] [Fin 1] = Ok (true, true, true).
Proof. reflexivity. Qed.

(** C2 fails on the code: on scenario 1 [build_tree] ends with two nodes,
    the root [[1]] tagged [Processed] and its child [[omega]] tagged [Old];
    there is no grandchild.  The report is: unbounded, place [P0], no
    dead-end node, one old node. *)
Theorem C2_scenario1_tree :
  ∃ st,
    build_tree scenario1 5 = Done st
    ∧ ((λ n, (marking n, tag n, parent n, transition n, children n)) <$> nodes st)
      = [ ([Fin 1], Processed, None, None, [1]);
          ([Omega], Old, Some 0, Some "t1", []) ]
    ∧ edges st = [(0, 1, "t1")]
    ∧ analyze_properties scenario1 st
      = Ok {| bounded := false; unbounded_places := ["P0"];
              dead_end_nodes := []; old_nodes := [1] |}.
Proof. eexists. split; [reflexivity|]. by repeat split. Qed.

(** C7 fails on the code: in the tree of scenario 1 the node with marking
    [[omega]] is tagged [Old], and its only proper ancestor, the root, has
    marking [[1]]. *)
Theorem C7_old_without_equal_ancestor :
  ∃ st n r,
    build_tree scenario1 5 = Done st
    ∧ nodes st !! 1 = Some n ∧ nodes st !! 0 = Some r
    ∧ tag n = Old ∧ marking n = [Omega]
    ∧ removelast (path_to_root n) = [0]
    ∧ marking r = [Fin 1].
Proof. eexists _, _, _. split; [reflexivity|]. by repeat split. Qed.

(** ** The store: copies are written, arguments are not *)

Lemma heap_alloc_fresh (m : Marking) (h : gmap positive Marking) :
  h !! (Heap.alloc m h).1 = None.
Proof. simpl. apply not_elem_of_dom, is_fresh. Qed.

Lemma heap_remove_tokens self l items : ∀ (h : gmap positive Marking) m,
  h !! l = Some m →
  Heap.remove_tokens self l items h
  = (m' <- remove_tokens self m items;; Ok (<[l := m']> h)).
Proof.
  induction items as [|[p w] items IH]; intros h m Hl; simpl.
  { by rewrite insert_id. }
  rewrite (lookup_total_correct _ _ _ Hl).
  destruct (index _ p) as [idx|]; simpl; [|done].
  destruct (getitem m idx) as [v|]; simpl; [|done].
  destruct (mval_sub v w) as [v'|]; simpl; [|done].
  unfold Heap.setitem. rewrite (lookup_total_correct _ _ _ Hl).
  rewrite (IH _ (<[idx := v']> m)) by apply lookup_insert_eq.
  destruct (remove_tokens _ _ items); simpl; [|done].
  by rewrite insert_insert_eq.
Qed.

Lemma heap_add_tokens self l items : ∀ (h : gmap positive Marking) m,
  h !! l = Some m →
  Heap.add_tokens self l items h
  = (m' <- add_tokens self m items;; Ok (<[l := m']> h)).
Proof.
  induction items as [|[p w] items IH]; intros h m Hl; simpl.
  { by rewrite insert_id. }
  rewrite (lookup_total_correct _ _ _ Hl).
  destruct (index _ p) as [idx|]; simpl; [|done].
  destruct (getitem m idx) as [v|]; simpl; [|done].
  destruct (mval_add v w) as [v'|]; simpl; [|done].
  unfold Heap.setitem. rewrite (lookup_total_correct _ _ _ Hl).
  rewrite (IH _ (<[idx := v']> m)) by apply lookup_insert_eq.
  destruct (add_tokens _ _ items); simpl; [|done].
  by rewrite insert_insert_eq.
Qed.

(** On the store [fire_transition] allocates one list, holding what the
    function on values returns, and writes nowhere else. *)
Lemma heap_fire_transition self t a (h : gmap positive Marking) m :
  h !! a = Some m →
  Heap.fire_transition self t a h
  = (m' <- fire_transition self t m;;
     Ok (fresh (dom h), <[fresh (dom h) := m']> h)).
Proof.
  intros Ha.
  unfold Heap.fire_transition, Heap.deepcopy, Heap.alloc, fire_transition.
  rewrite (lookup_total_correct _ _ _ Ha).
  destruct (is_enabled self t m) as [[]|]; simpl; [|done..].
  destruct (dict_get _ t) as [tr|]; [|done].
  rewrite (heap_remove_tokens _ _ _ _ m) by apply lookup_insert_eq.
  destruct (remove_tokens self m (tr_in tr)) as [m1|]; simpl; [|done].
  rewrite (heap_add_tokens _ _ _ _ m1) by apply lookup_insert_eq.
  destruct (add_tokens self m1 (tr_out tr)) as [m2|]; simpl; [|done].
  by rewrite !insert_insert_eq.
Qed.

Lemma tail_drop {A} (l : list A) i : tail (drop i l) = drop (S i) l.
Proof.
  revert i. induction l as [|x l IH]; intros [|i]; simpl; done.
Qed.

Lemma heap_apply_omega_range result m_ancestor anc suf :
  ∀ pre (h : gmap positive Marking),
  result ≠ m_ancestor →
  h !! result = Some (pre ++ suf) → h !! m_ancestor = Some anc →
  Heap.apply_omega_range result m_ancestor (seq (length pre) (length suf)) h
  = (suf' <- apply_omega suf (drop (length pre) anc);;
     Ok (<[result := pre ++ suf']> h)).
Proof.
  induction suf as [|x suf IH]; intros pre h Hne Hr Ha; simpl.
  { rewrite insert_id; [done|]. by rewrite app_nil_r in Hr |- *. }
  rewrite (lookup_total_correct _ _ _ Hr), (lookup_total_correct _ _ _ Ha).
  unfold getitem at 1. rewrite list_lookup_middle by done.
  assert (Hr' : h !! result = Some ((pre ++ [x]) ++ suf)).
  { by rewrite <-app_assoc. }
  assert (Hlen : S (length pre) = length (pre ++ [x])).
  { rewrite length_app. simpl. lia. }
  simpl. destruct (is_inf x) eqn:Hx.
  - rewrite Hlen, (IH _ _ Hne Hr' Ha), <-Hlen, tail_drop.
    destruct (apply_omega suf _); simpl; [|done].
    by rewrite <-app_assoc.
  - unfold getitem. rewrite <-(Nat.add_0_r (length pre)) at 1.
    rewrite <-lookup_drop.
    destruct (drop (length pre) anc) as [|y rest] eqn:Hdrop; simpl; [done|].
    assert (rest = drop (S (length pre)) anc) as ->.
    { by rewrite <-tail_drop, Hdrop. }
    destruct (negb (is_inf y) && mval_gtb x y) eqn:Hc; simpl.
    + unfold Heap.setitem. rewrite (lookup_total_correct _ _ _ Hr).
      rewrite insert_app_r_alt, Nat.sub_diag by done. simpl.
      assert (Hlen' : S (length pre) = length (pre ++ [Omega])).
      { rewrite length_app. simpl. lia. }
      rewrite Hlen', (IH (pre ++ [Omega])), <-Hlen'; [|done|..].
      * destruct (apply_omega suf _); simpl; [|done].
        by rewrite insert_insert_eq, <-app_assoc.
      * rewrite lookup_insert_eq. by rewrite <-app_assoc.
      * by rewrite lookup_insert_ne.
    + rewrite Hlen, (IH _ _ Hne Hr' Ha), <-Hlen.
      destruct (apply_omega suf _); simpl; [|done].
      by rewrite <-app_assoc.
Qed.

Lemma heap_apply_omega a b (h : gmap positive Marking) m_prime m_ancestor :
  h !! a = Some m_prime → h !! b = Some m_ancestor →
  Heap.apply_omega a b h
  = (m' <- apply_omega m_prime m_ancestor;;
     Ok (fresh (dom h), <[fresh (dom h) := m']> h)).
Proof.
  intros Ha Hb. unfold Heap.apply_omega, Heap.deepcopy, Heap.alloc.
  rewrite (lookup_total_correct _ _ _ Ha).
  set (r := fresh (dom h)).
  assert (h !! r = None) as Hfresh by apply not_elem_of_dom, is_fresh.
  rewrite lookup_total_insert_eq.
  rewrite (heap_apply_omega_range r b m_ancestor m_prime []); simpl.
  - rewrite drop_0.
    destruct (apply_omega m_prime m_ancestor); simpl; [|done].
    by rewrite insert_insert_eq.
  - congruence.
  - apply lookup_insert_eq.
  - rewrite lookup_insert_ne; [done|congruence].
Qed.

Lemma huge_net_valid : valid_net huge_net.
Proof.
  split; simpl; try done.
  - apply NoDup_singleton.
  - repeat constructor. lia.
  - apply NoDup_singleton.
  - repeat constructor; simpl; try set_solver; try done.
Qed.

(** C10, as amended: [fire_transition] and [apply_omega] do not write to
    their arguments.  In any store, whenever [fire_transition] returns, for
    any net, it returns the address [r] of a list that did not exist before,
    holding the new marking; the list at the argument's address [a] holds
    the same values as before, and so does every other list of the store.
    It does return on an enabled transition of a validated net when the
    marking holds numbers only, or when the weights of the transition
    convert to floats.  Likewise [apply_omega] on two markings of the
    same length returns a new list holding the accelerated marking and
    leaves both arguments (which may be one and the same list) and the rest
    of the store as they were. *)
Theorem C10_arguments_not_mutated (h : gmap positive Marking) :
  (∀ net t a m r h',
     h !! a = Some m → Heap.fire_transition net t a h = Ok (r, h') →
     h !! r = None
     ∧ (∃ m', h' !! r = Some m' ∧ fire_transition net t m = Ok m')
     ∧ h' !! a = Some m
     ∧ ∀ l, l ≠ r → h' !! l = h !! l)
  ∧ (∀ net t tr a m,
       valid_net net → length m = length (places net) →
       h !! a = Some m → is_enabled net t m = Ok true →
       dict_get (transitions net) t = Some tr →
       all_finite m ∨ float_weights tr →
       ∃ r h', Heap.fire_transition net t a h = Ok (r, h'))
  ∧ (∀ a b m_prime m_ancestor,
       h !! a = Some m_prime → h !! b = Some m_ancestor →
       length m_prime = length m_ancestor →
       ∃ r h',
         Heap.apply_omega a b h = Ok (r, h')
         ∧ h !! r = None ∧ h' !! r = Some (accelerate m_prime m_ancestor)
         ∧ apply_omega m_prime m_ancestor = Ok (accelerate m_prime m_ancestor)
         ∧ h' !! a = Some m_prime ∧ h' !! b = Some m_ancestor
         ∧ ∀ l, l ≠ r → h' !! l = h !! l).
Proof.
  assert (Hfresh : h !! fresh (dom h) = None) by apply not_elem_of_dom, is_fresh.
  split_and!.
  - intros net t a m r h' Ha.
    rewrite (heap_fire_transition net t a h m Ha).
    destruct (fire_transition net t m) as [m'|]; simpl; [|done].
    intros [= <- <-].
    split_and!; [done|exists m'; by rewrite lookup_insert_eq| |].
    + rewrite lookup_insert_ne; [done|congruence].
    + intros l Hl. by rewrite lookup_insert_ne.
  - intros net t tr a m Hv Hlen Ha Hen Htr Hsafe.
    destruct (valid_net_transition net t tr Hv Htr) as [Hin Hout].
    pose proof (fire_transition_closed net (vn_places _ Hv) t tr m
                  Htr Hin Hout Hlen Hsafe Hen) as Hfire.
    rewrite (heap_fire_transition net t a h m Ha), Hfire. simpl. eauto.
  - intros a b m_prime m_ancestor Ha Hb Hlen.
    pose proof (apply_omega_accelerate m_prime m_ancestor Hlen) as Hacc.
    exists (fresh (dom h)),
      (<[fresh (dom h) := accelerate m_prime m_ancestor]> h).
    rewrite (heap_apply_omega a b h _ _ Ha Hb), Hacc. simpl.
    split_and!; [done|done|apply lookup_insert_eq|done|..].
    + rewrite lookup_insert_ne; [done|congruence].
    + rewrite lookup_insert_ne; [done|congruence].
    + intros l Hl. by rewrite lookup_insert_ne.
Qed.

Lemma C10_arguments_not_mutated_witness :
  let h : gmap positive Marking := {[ 1%positive := [Omega] ]} in
  valid_net scenario1
  ∧ h !! 1%positive = Some [Omega]
  ∧ is_enabled scenario1 "t1" [Omega] = Ok true
  ∧ float_weights {| tr_in := [("P0", 1%Z)]; tr_out := [("P0", 2%Z)] |}
  ∧ ∃ r h', Heap.fire_transition scenario1 "t1" 1%positive h = Ok (r, h')
      ∧ h !! r = None
      ∧ (∃ m', h' !! r = Some m'
               ∧ fire_transition scenario1 "t1" [Omega] = Ok m')
      ∧ h' !! 1%positive = Some [Omega]
      ∧ ∀ l, l ≠ r → h' !! l = h !! l.
Proof.
  intros h.
  assert (float_weights {| tr_in := [("P0", 1%Z)]; tr_out := [("P0", 2%Z)] |})
    as Hw by (repeat constructor).
  split; [apply scenario1_valid|]. split; [reflexivity|].
  split; [reflexivity|]. split; [exact Hw|].
  destruct (proj1 (proj2 (C10_arguments_not_mutated h)) scenario1 "t1"
              {| tr_in := [("P0", 1%Z)]; tr_out := [("P0", 2%Z)] |}
              1%positive [Omega] scenario1_valid eq_refl eq_refl eq_refl
              eq_refl (or_intror Hw)) as (r & h' & Hfire).
  exists r, h'. split; [exact Hfire|].
  exact (proj1 (C10_arguments_not_mutated h) scenario1 "t1" 1%positive
           [Omega] r h' eq_refl Hfire).
Defined.

(** C10 as stated fails where it says that [fire_transition] returns: on
    the marking [[omega]] the transition of [huge_net] is enabled, and adding
    its weight to [inf] raises [OverflowError]. *)
Lemma C10_counterexample :
  let h : gmap positive Marking := {[ 1%positive := [Omega] ]} in
  valid_net huge_net
  ∧ is_enabled huge_net "t1" [Omega] = Ok true
  ∧ fire_transition huge_net "t1" [Omega] = Raise OverflowError
  ∧ Heap.fire_transition huge_net "t1" 1%positive h = Raise OverflowError.
Proof. intros h. split; [apply huge_net_valid|]. by repeat split. Qed.

(** * Further properties of the code *)

(** ** compare_markings and apply_omega *)

Lemma compare_loop_refl m : ∀ c e g, compare_loop m m c e g = Ok (c, e, g).
Proof.
  induction m as [|a m IH]; intros c e g; simpl; [done|].
  destruct a as [x|]; simpl; [|apply IH].
  unfold mval_ltb. simpl. rewrite Z.ltb_irrefl. apply IH.
Qed.

(** A marking compared with itself, omega entries or not: coverable and
    equal, and nowhere greater. *)
Theorem compare_markings_reflexive m :
  compare_markings m m = Ok (true, true, false).
Proof. apply compare_loop_refl. Qed.



Lemma compare_loop_greater m1 : ∀ m2 c e g,
  length m1 = length m2 →
  ∃ c' e', compare_loop m1 m2 c e g
           = Ok (c', e', g || existsb (λ ab, mval_gtb ab.1 ab.2) (zip m1 m2)).
Proof.
  induction m1 as [|a m1 IH]; intros [|b m2] c e g Hlen; simplify_eq/=.
  { exists c, e. by rewrite orb_false_r. }
  destruct a as [x|], b as [y|]; simpl.
  - unfold mval_ltb; simpl. destruct (y <? x)%Z eqn:Hyx.
    + destruct (IH m2 c false true) as (c' & e' & ->); [lia|].
      exists c', e'. by rewrite orb_true_r.
    + destruct (x <? y)%Z;
        [destruct (IH m2 false false g) as (c' & e' & ->)
        |destruct (IH m2 c e g) as (c' & e' & ->)]; try lia; eauto.
  - destruct (IH m2 false false g) as (c' & e' & ->); [lia|]. eauto.
  - destruct (IH m2 c e true) as (c' & e' & ->); [lia|].
    exists c', e'. by rewrite orb_true_r.
  - destruct (IH m2 c e g) as (c' & e' & ->); [lia|]. eauto.
Qed.

Lemma coverable_at_mval_ge a b : coverable_at a b = true ↔ mval_ge a b.
Proof.
  destruct a as [x|], b as [y|]; unfold coverable_at, mval_ltb; simpl; try done.
  by rewrite negb_true_iff, Z.ltb_ge.
Qed.

Lemma equal_at_meaning a b : equal_at a b = true ↔ a = Omega ∨ a = b.
Proof.
  destruct a as [x|], b as [y|]; unfold equal_at, mval_ltb; simpl.
  - rewrite andb_true_iff, !negb_true_iff, !Z.ltb_ge.
    split; [intros []; right; f_equal; lia|intros [|[= ->]]; [done|lia]].
  - split; [done|by intros [|]].
  - split; [by left|done].
  - split; [by left|done].
Qed.

Lemma mval_gtb_meaning a b : mval_gtb a b = true ↔ mval_ge a b ∧ a ≠ b.
Proof.
  destruct a as [x|], b as [y|]; simpl.
  - rewrite Z.ltb_lt. split; [intros ?; split; [lia|intros [= ->]; lia]|].
    intros [? Hne]. destruct (decide (x = y)) as [->|]; [done|lia].
  - split; [done|by intros []].
  - split; [done|done].
  - split; [done|by intros []].
Qed.

(** What the three flags of [compare_markings] say, for markings of the
    same length.  [coverable]: every entry of [m1] is at least that of [m2] in
    the extended order.  [equal]: at every position [m1] holds omega or the
    very value [m2] holds.  [greater]: at some position [m1] is strictly
    above [m2]. *)
Theorem compare_markings_flags_meaning m1 m2 :
  length m1 = length m2 →
  ∃ coverable equal greater,
    compare_markings m1 m2 = Ok (coverable, equal, greater)
    ∧ (coverable = true ↔ covers m1 m2)
    ∧ (equal = true ↔ Forall2 (λ a b, a = Omega ∨ a = b) m1 m2)
    ∧ (greater = true ↔
       ∃ i a b, m1 !! i = Some a ∧ m2 !! i = Some b ∧ mval_ge a b ∧ a ≠ b).
Proof.
  intros Hlen.
  destruct (compare_markings_flags m1 m2 Hlen) as [g Hflags].
  destruct (compare_loop_greater m1 m2 true true false Hlen) as (c' & e' & Hg).
  fold (compare_markings m1 m2) in Hg. rewrite Hflags in Hg. simplify_eq/=.
  eexists _, _, _. split; [done|]. split_and!.
  - rewrite bool_decide_eq_true. unfold covers.
    split; intros H; (eapply Forall2_impl; [exact H|]); intros a b;
      apply coverable_at_mval_ge.
  - rewrite bool_decide_eq_true.
    split; intros H; (eapply Forall2_impl; [exact H|]); intros a b;
      apply equal_at_meaning.
  - rewrite existsb_exists. split.
    + intros ([a b] & Hin & Hgt). simpl in Hgt.
      apply list_elem_of_In, list_elem_of_lookup in Hin as [i Hi].
      apply lookup_zip_with_Some in Hi as (a' & b' & [= -> ->] & Ha & Hb).
      apply mval_gtb_meaning in Hgt. eauto 10.
    + intros (i & a & b & Ha & Hb & Hge).
      exists (a, b). split; [|by apply mval_gtb_meaning].
      apply list_elem_of_In, list_elem_of_lookup. exists i.
      apply lookup_zip_with_Some. eauto.
Qed.

Lemma compare_markings_flags_meaning_witness :
  length [Omega; Fin 2] = length [Fin 1; Fin 2]
  ∧ ∃ coverable equal greater,
    compare_markings [Omega; Fin 2] [Fin 1; Fin 2] = Ok (coverable, equal, greater)
    ∧ (coverable = true ↔ covers [Omega; Fin 2] [Fin 1; Fin 2])
    ∧ (equal = true ↔ Forall2 (λ a b, a = Omega ∨ a = b)
                         [Omega; Fin 2] [Fin 1; Fin 2])
    ∧ (greater = true ↔
       ∃ i a b, [Omega; Fin 2] !! i = Some a ∧ [Fin 1; Fin 2] !! i = Some b
                ∧ mval_ge a b ∧ a ≠ b).
Proof.
  split; [reflexivity|].
  apply (compare_markings_flags_meaning [Omega; Fin 2] [Fin 1; Fin 2]).
  reflexivity.
Defined.

(** [apply_omega] is idempotent: accelerating its own result against the
    same ancestor changes nothing. *)
Theorem apply_omega_idempotent m_prime : ∀ m_ancestor result,
  apply_omega m_prime m_ancestor = Ok result →
  apply_omega result m_ancestor = Ok result.
Proof.
  induction m_prime as [|a m IH]; intros anc result; simpl.
  { by intros [= <-]. }
  destruct (is_inf a) eqn:Ha.
  - destruct (apply_omega m (tail anc)) as [r|] eqn:E; simpl; [|done].
    intros [= <-]. simpl. rewrite Ha, (IH _ _ E). done.
  - destruct anc as [|b anc]; [done|].
    destruct (apply_omega m anc) as [r|] eqn:E; simpl; [|done].
    intros [= <-]. simpl.
    destruct (negb (is_inf b) && mval_gtb a b) eqn:Hc; simpl.
    + by rewrite (IH _ _ E).
    + by rewrite Ha, Hc, (IH _ _ E).
Qed.

Lemma apply_omega_idempotent_witness :
  apply_omega [Fin 2; Fin 0] [Fin 1; Fin 0] = Ok [Omega; Fin 0]
  ∧ apply_omega [Omega; Fin 0] [Fin 1; Fin 0] = Ok [Omega; Fin 0].
Proof.
  split; [reflexivity|].
  apply (apply_omega_idempotent [Fin 2; Fin 0] [Fin 1; Fin 0]). reflexivity.
Defined.

(** [apply_omega] only ever turns finite entries into omega: the result
    has the length of [m_prime] and covers it, and an entry that changed was
    finite, stood strictly above a finite ancestor entry, and is now omega. *)
Theorem apply_omega_only_adds_omega m_prime : ∀ m_ancestor result,
  apply_omega m_prime m_ancestor = Ok result →
  length result = length m_prime
  ∧ covers result m_prime
  ∧ ∀ i v, m_prime !! i = Some v →
      result !! i = Some v
      ∨ (result !! i = Some Omega
         ∧ ∃ x y, v = Fin x ∧ m_ancestor !! i = Some (Fin y) ∧ (y < x)%Z).
Proof.
  unfold covers.
  induction m_prime as [|a m IH]; intros anc result; simpl.
  { intros [= <-]. split_and!; [done|constructor|done]. }
  destruct (is_inf a) eqn:Ha.
  - destruct (apply_omega m (tail anc)) as [r|] eqn:E; simpl; [|done].
    intros [= <-]. destruct (IH _ _ E) as (Hlen & Hcov & Hpt).
    split_and!; [simpl; lia|constructor; [by destruct a|done]|].
    intros [|i] v Hv; simpl in *; [left; congruence|].
    destruct (Hpt i v Hv) as [?|(? & x & y & ? & Hanc & ?)]; [by left|].
    right. split; [done|]. exists x, y. split_and!; [done| |done].
    destruct anc; simpl in *; [by rewrite lookup_nil in Hanc|done].
  - destruct anc as [|b anc]; [done|].
    destruct (apply_omega m anc) as [r|] eqn:E; simpl; [|done].
    intros [= <-]. destruct (IH _ _ E) as (Hlen & Hcov & Hpt).
    destruct a as [x|]; [|done].
    split_and!; [simpl; lia| |].
    + constructor; [|done]. case_match; simpl; [done|lia].
    + intros [|i] v Hv; simpl in *; [|by apply Hpt].
      simplify_eq. destruct b as [y|]; simpl; [|by left].
      destruct (y <? x)%Z eqn:Hyx; [|by left].
      right. split; [done|]. exists x, y. apply Z.ltb_lt in Hyx. done.
Qed.

Lemma apply_omega_only_adds_omega_witness :
  apply_omega [Fin 2; Fin 0] [Fin 1; Fin 0] = Ok [Omega; Fin 0]
  ∧ length [Omega; Fin 0] = length [Fin 2; Fin 0]
  ∧ covers [Omega; Fin 0] [Fin 2; Fin 0]
  ∧ ∀ i v, [Fin 2; Fin 0] !! i = Some v →
      [Omega; Fin 0] !! i = Some v
      ∨ ([Omega; Fin 0] !! i = Some Omega
         ∧ ∃ x y, v = Fin x ∧ [Fin 1; Fin 0] !! i = Some (Fin y) ∧ (y < x)%Z).
Proof.
  split; [reflexivity|].
  apply (apply_omega_only_adds_omega [Fin 2; Fin 0] [Fin 1; Fin 0]).
  reflexivity.
Defined.

(** ** Enabling and firing *)

Lemma mval_lt_weight_ge v v' w :
  mval_ge v' v → mval_lt_weight v w = false → mval_lt_weight v' w = false.
Proof.
  destruct v as [x|], v' as [y|]; simpl; try done.
  rewrite !Z.ltb_ge. lia.
Qed.

Lemma mval_sub_ge v v' w x :
  mval_ge v' v → is_inf v' = false ∨ float_overflows w = false →
  mval_sub v w = Ok x →
  ∃ x', mval_sub v' w = Ok x' ∧ mval_ge x' x.
Proof.
  intros Hge Hsafe Hx. rewrite (mval_sub_omega v' w Hsafe). eexists.
  split; [done|]. destruct v as [a|], v' as [b|]; simpl in *; try done.
  - injection Hx as <-. simpl. lia.
  - by injection Hx as <-.
  - by case_match; simplify_eq.
Qed.

Lemma mval_add_ge v v' w x :
  mval_ge v' v → is_inf v' = false ∨ float_overflows w = false →
  mval_add v w = Ok x →
  ∃ x', mval_add v' w = Ok x' ∧ mval_ge x' x.
Proof.
  intros Hge Hsafe Hx. rewrite (mval_add_omega v' w Hsafe). eexists.
  split; [done|]. destruct v as [a|], v' as [b|]; simpl in *; try done.
  - injection Hx as <-. simpl. lia.
  - by injection Hx as <-.
  - by case_match; simplify_eq.
Qed.

Lemma mval_sub_is_inf v w x : mval_sub v w = Ok x → is_inf x = is_inf v.
Proof. destruct v; simpl; [by intros [= <-]|]. by case_match; intros [= <-]. Qed.

Lemma mval_add_is_inf v w x : mval_add v w = Ok x → is_inf x = is_inf v.
Proof. destruct v; simpl; [by intros [= <-]|]. by case_match; intros [= <-]. Qed.

Lemma same_omega_insert (m : Marking) i v x :
  m !! i = Some v → is_inf x = is_inf v →
  Forall2 (λ a b, is_inf a = is_inf b) (<[i := x]> m) m.
Proof.
  intros Hv Hx.
  pose proof (Forall2_insert (λ a b, is_inf a = is_inf b) m m x v i) as H.
  rewrite (list_insert_id m i v Hv) in H. apply H; [|done].
  by apply Forall_Forall2_diag, Forall_true.
Qed.

Section Monotone.
Context (net : PetriNetwork).

Lemma is_enabled_items_monotone m m' items :
  covers m' m → is_enabled_items net m items = Ok true →
  is_enabled_items net m' items = Ok true.
Proof.
  intros Hcov. induction items as [|[p w] items IH]; simpl; [done|].
  destruct (index _ p) as [idx|]; simpl; [|done].
  destruct (getitem m idx) as [v|] eqn:Hv; simpl; [|done].
  apply getitem_Ok in Hv.
  destruct (Forall2_lookup_r _ _ _ _ _ Hcov Hv) as (v' & Hv' & Hge).
  apply getitem_Ok in Hv'. rewrite Hv'. simpl.
  destruct (mval_lt_weight v w) eqn:Hlt; [done|].
  by rewrite (mval_lt_weight_ge v v' w).
Qed.

(** Enabling is monotone: a transition enabled under a marking is enabled
    under every marking that covers it. *)
Theorem is_enabled_monotone t m m' :
  covers m' m → is_enabled net t m = Ok true → is_enabled net t m' = Ok true.
Proof.
  unfold is_enabled. destruct (dict_get _ t); [|done].
  apply is_enabled_items_monotone.
Qed.

Lemma remove_tokens_monotone items : ∀ m m' r,
  covers m' m →
  all_finite m' ∨ Forall (λ pw, float_overflows pw.2 = false) items →
  remove_tokens net m items = Ok r →
  ∃ r', remove_tokens net m' items = Ok r' ∧ covers r' r.
Proof.
  induction items as [|[p w] items IH]; intros m m' r Hcov Hsafe; simpl.
  { intros [= <-]. eauto. }
  destruct (index _ p) as [idx|]; simpl; [|done].
  destruct (getitem m idx) as [v|] eqn:Hv; simpl; [|done].
  apply getitem_Ok in Hv.
  destruct (Forall2_lookup_r _ _ _ _ _ Hcov Hv) as (v' & Hv' & Hge).
  apply getitem_Ok in Hv'. rewrite Hv'. simpl.
  destruct (mval_sub v w) as [x|] eqn:Hx; simpl; [|done].
  assert (is_inf v' = false ∨ float_overflows w = false) as Hvw.
  { destruct Hsafe as [Hfin|Hw]; [left; by eapply all_finite_lookup|].
    right. by apply Forall_cons in Hw as [? _]. }
  destruct (mval_sub_ge v v' w x Hge Hvw Hx) as (x' & Hx' & Hge').
  rewrite Hx'. simpl. apply IH; [by apply Forall2_insert|].
  destruct Hsafe as [Hfin|Hw]; [left|right; by apply Forall_cons in Hw as []].
  apply all_finite_insert; [done|].
  rewrite (mval_sub_is_inf v' w x' Hx'). by eapply all_finite_lookup.
Qed.

Lemma add_tokens_monotone items : ∀ m m' r,
  covers m' m →
  all_finite m' ∨ Forall (λ pw, float_overflows pw.2 = false) items →
  add_tokens net m items = Ok r →
  ∃ r', add_tokens net m' items = Ok r' ∧ covers r' r.
Proof.
  induction items as [|[p w] items IH]; intros m m' r Hcov Hsafe; simpl.
  { intros [= <-]. eauto. }
  destruct (index _ p) as [idx|]; simpl; [|done].
  destruct (getitem m idx) as [v|] eqn:Hv; simpl; [|done].
  apply getitem_Ok in Hv.
  destruct (Forall2_lookup_r _ _ _ _ _ Hcov Hv) as (v' & Hv' & Hge).
  apply getitem_Ok in Hv'. rewrite Hv'. simpl.
  destruct (mval_add v w) as [x|] eqn:Hx; simpl; [|done].
  assert (is_inf v' = false ∨ float_overflows w = false) as Hvw.
  { destruct Hsafe as [Hfin|Hw]; [left; by eapply all_finite_lookup|].
    right. by apply Forall_cons in Hw as [? _]. }
  destruct (mval_add_ge v v' w x Hge Hvw Hx) as (x' & Hx' & Hge').
  rewrite Hx'. simpl. apply IH; [by apply Forall2_insert|].
  destruct Hsafe as [Hfin|Hw]; [left|right; by apply Forall_cons in Hw as []].
  apply all_finite_insert; [done|].
  rewrite (mval_add_is_inf v' w x' Hx'). by eapply all_finite_lookup.
Qed.

(** Firing is monotone: when [t] fires from [m], it fires from every
    marking [m'] that covers [m], and the result covers the result,
    provided [m'] holds numbers only or the weights of [t] convert to
    floats (adding a weight beyond that to [inf] raises
    [OverflowError]). *)
Theorem fire_transition_monotone t tr m m' r :
  covers m' m → fire_transition net t m = Ok r →
  dict_get (transitions net) t = Some tr →
  all_finite m' ∨ float_weights tr →
  ∃ r', fire_transition net t m' = Ok r' ∧ covers r' r.
Proof.
  intros Hcov Hfire Htr Hsafe.
  pose proof (fire_transition_Ok net t m r Hfire) as (Hen & _).
  unfold fire_transition in *.
  rewrite (is_enabled_monotone t m m' Hcov Hen). rewrite Hen in Hfire.
  simpl in *. rewrite Htr in *.
  destruct (remove_tokens net m (tr_in tr)) as [m1|] eqn:E1; simpl in *; [|done].
  assert (all_finite m'
          ∨ Forall (λ pw, float_overflows pw.2 = false) (tr_in tr)) as Hin.
  { destruct Hsafe as [|Hw]; [by left|right].
    by apply Forall_app in Hw as []. }
  destruct (remove_tokens_monotone _ _ _ _ Hcov Hin E1)
    as (m1' & E1' & Hcov1).
  rewrite E1'. simpl. eapply add_tokens_monotone; [done| |done].
  destruct Hsafe as [Hfin|Hw]; [left|right; by apply Forall_app in Hw as []].
  by eapply remove_tokens_finite.
Qed.

Lemma remove_tokens_same_omega items : ∀ m r,
  remove_tokens net m items = Ok r →
  Forall2 (λ a b, is_inf a = is_inf b) r m.
Proof.
  induction items as [|[p w] items IH]; intros m r; simpl.
  { intros [= <-]. by apply Forall_Forall2_diag, Forall_true. }
  destruct (index _ p) as [idx|]; simpl; [|done].
  destruct (getitem m idx) as [v|] eqn:Hv; simpl; [|done].
  destruct (mval_sub v w) as [x|] eqn:Hx; simpl; [|done].
  apply getitem_Ok in Hv. intros Hr%IH.
  eapply Forall2_trans with (Q := λ a b, is_inf a = is_inf b); [|done|].
  { intros a b c ? ?. congruence. }
  apply (same_omega_insert m idx v); [done|by eapply mval_sub_is_inf].
Qed.

Lemma add_tokens_same_omega items : ∀ m r,
  add_tokens net m items = Ok r →
  Forall2 (λ a b, is_inf a = is_inf b) r m.
Proof.
  induction items as [|[p w] items IH]; intros m r; simpl.
  { intros [= <-]. by apply Forall_Forall2_diag, Forall_true. }
  destruct (index _ p) as [idx|]; simpl; [|done].
  destruct (getitem m idx) as [v|] eqn:Hv; simpl; [|done].
  destruct (mval_add v w) as [x|] eqn:Hx; simpl; [|done].
  apply getitem_Ok in Hv. intros Hr%IH.
  eapply Forall2_trans with (Q := λ a b, is_inf a = is_inf b); [|done|].
  { intros a b c ? ?. congruence. }
  apply (same_omega_insert m idx v); [done|by eapply mval_add_is_inf].
Qed.

(** Firing neither creates nor removes omega: the result has the length
    of the marking, and holds omega exactly where the marking does. *)
Theorem fire_transition_keeps_omega t m r :
  fire_transition net t m = Ok r →
  length r = length m
  ∧ ∀ i, r !! i = Some Omega ↔ m !! i = Some Omega.
Proof.
  intros Hfire.
  pose proof (fire_transition_Ok net t m r Hfire) as (Hen & Hlen & _).
  split; [done|]. unfold fire_transition in Hfire. rewrite Hen in Hfire.
  simpl in Hfire. destruct (dict_get _ t) as [tr|]; [|done].
  destruct (remove_tokens net m (tr_in tr)) as [m1|] eqn:E1; simpl in *; [|done].
  apply remove_tokens_same_omega in E1. apply add_tokens_same_omega in Hfire.
  assert (Forall2 (λ a b, is_inf a = is_inf b) r m) as H.
  { eapply Forall2_trans with (Q := λ a b, is_inf a = is_inf b); [|done..].
    intros a b c ? ?. congruence. }
  intros i. split; intros Hi.
  - destruct (Forall2_lookup_l _ _ _ _ _ H Hi) as ([|] & ? & ?); done.
  - destruct (Forall2_lookup_r _ _ _ _ _ H Hi) as ([|] & ? & ?); done.
Qed.

(** The error branch: [fire_transition] raises its [ValueError] exactly
    when [is_enabled] answers no, which it does for a name that is not a
    key of [transitions]. *)
Theorem fire_transition_error_branch t m :
  (fire_transition net t m = Raise (ValueError_cannot_be_fired t)
   ↔ is_enabled net t m = Ok false)
  ∧ (dict_get (transitions net) t = None → is_enabled net t m = Ok false).
Proof.
  split; [split|].
  - apply fire_transition_cannot_be_fired.
  - intros H. unfold fire_transition. by rewrite H.
  - intros H. unfold is_enabled. by rewrite H.
Qed.

Lemma filter_enabled_filter m names l :
  filter_enabled net m names = Ok l →
  l = filter (λ t, is_enabled net t m = Ok true) names.
Proof.
  revert l. induction names as [|t names IH]; intros l; simpl.
  { by intros [= <-]. }
  destruct (is_enabled net t m) as [b|] eqn:E; simpl; [|done].
  destruct (filter_enabled net m names) as [l'|]; simpl; [|done].
  intros [= <-]. rewrite filter_cons, E, (IH l' eq_refl).
  destruct b; [by rewrite decide_True|by rewrite decide_False].
Qed.

(** [get_enabled_transitions] returns exactly the enabled transitions, in
    the order in which the net defines them. *)
Theorem get_enabled_transitions_filter m l :
  get_enabled_transitions net m = Ok l →
  l = filter (λ t, is_enabled net t m = Ok true) (transitions net).*1.
Proof. apply filter_enabled_filter. Qed.
End Monotone.

Lemma is_enabled_monotone_witness :
  covers [Omega] [Fin 1]
  ∧ is_enabled scenario1 "t1" [Fin 1] = Ok true
  ∧ is_enabled scenario1 "t1" [Omega] = Ok true.
Proof.
  assert (covers [Omega] [Fin 1]) as H by (by repeat constructor).
  split; [done|]. split; [reflexivity|].
  by apply (is_enabled_monotone scenario1 "t1" [Fin 1] [Omega]).
Defined.

Lemma fire_transition_monotone_witness :
  covers [Omega] [Fin 1]
  ∧ fire_transition scenario1 "t1" [Fin 1] = Ok [Fin 2]
  ∧ float_weights {| tr_in := [("P0", 1%Z)]; tr_out := [("P0", 2%Z)] |}
  ∧ ∃ r', fire_transition scenario1 "t1" [Omega] = Ok r' ∧ covers r' [Fin 2].
Proof.
  assert (covers [Omega] [Fin 1]) as H by (by repeat constructor).
  assert (float_weights {| tr_in := [("P0", 1%Z)]; tr_out := [("P0", 2%Z)] |})
    as Hw by (repeat constructor).
  split; [exact H|]. split; [reflexivity|]. split; [exact Hw|].
  exact (fire_transition_monotone scenario1 "t1" _ [Fin 1] [Omega] [Fin 2]
           H eq_refl eq_refl (or_intror Hw)).
Defined.

Lemma fire_transition_keeps_omega_witness :
  fire_transition scenario1 "t1" [Omega] = Ok [Omega]
  ∧ length [Omega] = length [Omega]
  ∧ ∀ i, [Omega] !! i = Some Omega ↔ [Omega] !! i = Some Omega.
Proof.
  split; [reflexivity|].
  by apply (fire_transition_keeps_omega scenario1 "t1" [Omega] [Omega]).
Defined.

Lemma get_enabled_transitions_filter_witness :
  get_enabled_transitions scenario1 [Fin 1] = Ok ["t1"]
  ∧ ["t1"] = filter (λ t, is_enabled scenario1 t [Fin 1] = Ok true)
               (transitions scenario1).*1.
Proof.
  split; [reflexivity|].
  by apply (get_enabled_transitions_filter scenario1 [Fin 1]).
Defined.

(** ** Validated nets: the enabling rule and tokens that stay non-negative *)

Lemma mval_lt_weight_false v w : mval_lt_weight v w = false ↔ mval_ge v (Fin w).
Proof. destruct v as [n|]; simpl; [apply Z.ltb_ge|done]. Qed.

Lemma is_enabled_items_rule net m items :
  NoDup (places net) → length m = length (places net) →
  Forall (λ pw, pw.1 ∈ places net) items →
  ∃ b, is_enabled_items net m items = Ok b
       ∧ (b = true ↔
          ∀ p w i v, (p, w) ∈ items → places net !! i = Some p →
                     m !! i = Some v → mval_ge v (Fin w)).
Proof.
  intros Hnd Hlen. induction 1 as [|[p w] items Hp _ (b & IH1 & IH2)]; simpl.
  { exists true. split; [done|]. split; [|done].
    intros _ p w i v ?%elem_of_nil. done. }
  simpl in Hp. destruct (index_elem_of _ _ Hp) as [idx Hidx].
  rewrite Hidx. simpl. pose proof (index_Ok _ _ _ Hidx) as Hpl.
  destruct (getitem_lt m idx) as [v Hv].
  { rewrite Hlen. by eapply lookup_lt_Some. }
  rewrite Hv. simpl. apply getitem_Ok in Hv.
  destruct (mval_lt_weight v w) eqn:Hlt.
  - exists false. split; [done|]. split; [done|]. intros H.
    assert (mval_ge v (Fin w)) as Hge by (eapply H; [by left|done..]).
    apply mval_lt_weight_false in Hge. congruence.
  - exists b. split; [done|]. rewrite IH2. split.
    + intros H p' w' i v' [[= -> ->]|Hin]%elem_of_cons Hi Hv'; [|by eapply H].
      assert (i = idx) as -> by (by eapply NoDup_lookup).
      apply mval_lt_weight_false. congruence.
    + intros H p' w' i v' Hin. apply H. by right.
Qed.

(** The enabling rule on a validated net: [is_enabled] always answers,
    and it answers yes exactly when every place that the transition consumes
    from holds at least the weight of the arc, omega holding any weight. *)
Theorem is_enabled_rule net t tr m :
  valid_net net → dict_get (transitions net) t = Some tr →
  length m = length (places net) →
  ∃ b, is_enabled net t m = Ok b
       ∧ (b = true ↔
          ∀ p w i v, (p, w) ∈ tr_in tr → places net !! i = Some p →
                     m !! i = Some v → mval_ge v (Fin w)).
Proof.
  intros Hv Htr Hlen. unfold is_enabled. rewrite Htr.
  destruct (valid_net_transition net t tr Hv Htr) as [[_ Hin] _].
  apply is_enabled_items_rule; [by apply vn_places|done|].
  eapply Forall_impl; [done|]. by intros ? [? _].
Qed.

Lemma is_enabled_rule_witness :
  valid_net scenario1
  ∧ ∃ b, is_enabled scenario1 "t1" [Fin 0] = Ok b
       ∧ (b = true ↔
          ∀ p w i v, (p, w) ∈ [("P0", 1%Z)] → places scenario1 !! i = Some p →
                     [Fin 0] !! i = Some v → mval_ge v (Fin w)).
Proof.
  split; [apply scenario1_valid|].
  apply (is_enabled_rule scenario1 "t1"
           {| tr_in := [("P0", 1%Z)]; tr_out := [("P0", 2%Z)] |} [Fin 0]);
    [apply scenario1_valid|reflexivity..].
Defined.

Lemma weight_of_valid pl d p :
  valid_weights pl d → (0 <= weight_of d p)%Z.
Proof.
  intros [_ Hd]. unfold weight_of.
  destruct (dict_get d p) as [w|] eqn:E; simpl; [|done].
  apply dict_get_elem_of in E. rewrite Forall_forall in Hd.
  destruct (Hd _ E) as [_ ?]. simpl in *. lia.
Qed.

(** Firing an enabled transition of a validated net never takes a place
    below zero. *)
Theorem fire_transition_nonneg net t m r :
  valid_net net → length m = length (places net) → nonneg m →
  fire_transition net t m = Ok r → nonneg r.
Proof.
  intros Hv Hlen Hm Hfire.
  pose proof (fire_transition_Ok net t m r Hfire) as (Hen & _).
  assert (∃ tr, dict_get (transitions net) t = Some tr) as [tr Htr].
  { unfold is_enabled in Hen. destruct (dict_get _ t); [eauto|done]. }
  destruct (valid_net_transition net t tr Hv Htr) as [Hin Hout].
  apply (fire_transition_Ok_closed net (vn_places _ Hv) t tr m) in Hfire
    as ->; [|done..].
  destruct (is_enabled_rule net t tr m Hv Htr Hlen) as (b & Hb & Hrule).
  rewrite Hen in Hb. simplify_eq. destruct Hrule as [Hrule _].
  specialize (Hrule eq_refl).
  unfold nonneg, omega_fire in *. apply Forall_lookup. intros j x Hx.
  apply lookup_zip_with_Some in Hx as (p & v & -> & Hp & Hvj).
  rewrite Forall_lookup in Hm. specialize (Hm _ _ Hvj).
  pose proof (weight_of_valid _ _ p Hout) as Hwout.
  destruct v as [n|]; simpl in *; [|done].
  assert (weight_of (tr_in tr) p <= n)%Z; [|lia].
  unfold weight_of. destruct (dict_get (tr_in tr) p) as [w|] eqn:E; simpl; [|done].
  apply dict_get_elem_of in E. by apply (Hrule p w j (Fin n)).
Qed.

Lemma fire_transition_nonneg_witness :
  valid_net scenario1 ∧ nonneg [Fin 1]
  ∧ fire_transition scenario1 "t1" [Fin 1] = Ok [Fin 2] ∧ nonneg [Fin 2].
Proof.
  assert (nonneg [Fin 1]) as H by (repeat constructor; simpl; lia).
  split; [apply scenario1_valid|]. split; [done|]. split; [reflexivity|].
  apply (fire_transition_nonneg scenario1 "t1" [Fin 1] [Fin 2]);
    [apply scenario1_valid|reflexivity|done|reflexivity].
Defined.

Lemma accelerate_nonneg s a : nonneg s → nonneg (accelerate s a).
Proof.
  unfold nonneg, accelerate. intros Hs. apply Forall_lookup. intros j x Hx.
  apply lookup_zip_with_Some in Hx as (c & y & -> & Hc & Hy).
  rewrite Forall_lookup in Hs. specialize (Hs _ _ Hc).
  destruct c as [n|], y as [k|]; try done. by case_decide.
Qed.

Lemma first_match_nonneg s ancs : nonneg s → nonneg (first_match s ancs).
Proof.
  intros Hs. induction ancs as [|a ancs IH]; simpl; [done|].
  case_decide; [by apply accelerate_nonneg|done].
Qed.

(** In whatever [build_tree] leaves of a validated net, no node's marking
    has a negative entry. *)
Theorem tree_markings_nonneg net fuel r n :
  valid_net net →
  nodes (final_state (build_tree net fuel)) !! r = Some n →
  nonneg (marking n).
Proof.
  intros Hv.
  pose proof (build_loop_shape net fuel _ (init_shape net)) as [_ _ Hinv].
  fold (build_tree net fuel) in Hinv.
  set (ns := nodes (final_state (build_tree net fuel))) in *.
  revert n. induction (lt_wf r) as [r _ IH]. intros n Hlook.
  destruct (Hinv r n Hlook) as (_ & _ & path & _ & _ & _ & HK).
  destruct (parent n) as [q|], (transition n) as [t|]; try done.
  - destruct HK as (Hq & _ & Hfin & s & Hs & _ & ->).
    apply first_match_nonneg.
    assert (q < length ns) as Hq'.
    { apply lookup_lt_Some in Hlook. lia. }
    pose proof (node_at_lt ns q Hq') as Hlq.
    rewrite fire_step_finite in Hs by done.
    apply (fire_transition_nonneg net t (marking_at ns q)); [done| |by eapply IH|done].
    destruct (Hinv q _ Hlq) as (_ & HL & _).
    unfold marking_at. rewrite HL. by apply vn_length.
  - destruct HK as (_ & _ & ->). unfold nonneg. apply Forall_fmap.
    eapply Forall_impl; [by apply vn_nonneg|]. done.
Qed.

Lemma tree_markings_nonneg_witness :
  valid_net scenario1
  ∧ ∃ n, nodes (final_state (build_tree scenario1 5)) !! 1 = Some n
         ∧ nonneg (marking n).
Proof.
  split; [apply scenario1_valid|]. eexists. split; [reflexivity|].
  apply (tree_markings_nonneg scenario1 5 1); [apply scenario1_valid|reflexivity].
Defined.

(** ** Links, edges and verdicts *)

Lemma filter_ext_in {A} (P Q : A → Prop) `{!∀ x, Decision (P x)}
    `{!∀ x, Decision (Q x)} (l : list A) :
  (∀ x, x ∈ l → P x ↔ Q x) → filter P l = filter Q l.
Proof.
  induction l as [|x l IH]; intros Hext; [done|].
  rewrite !filter_cons, IH by (intros; apply Hext; by right).
  assert (P x ↔ Q x) as Hx by (apply Hext; by left).
  destruct (decide (P x)), (decide (Q x)); tauto || done.
Qed.

Lemma children_of_agree ns ns' r :
  length ns = length ns' → agree ns ns' →
  children_of ns' r = children_of ns r.
Proof.
  intros Hlen Hag. unfold children_of. rewrite <-Hlen.
  apply filter_ext_in. intros c Hc%elem_of_seq.
  destruct (Hag c) as (_ & _ & -> & _); [lia|done].
Qed.

Lemma children_of_snoc ns n r :
  children_of (ns ++ [n]) r
  = children_of ns r ++ (if decide (parent n = Some r) then [length ns] else []).
Proof.
  unfold children_of. rewrite length_app. simpl.
  rewrite Nat.add_1_r, seq_S, filter_app. simpl. f_equal.
  - apply filter_ext_in. intros c Hc%elem_of_seq.
    unfold node_at. by rewrite lookup_total_app_l by lia.
  - rewrite filter_cons, filter_nil. unfold node_at.
    rewrite lookup_total_app_r, Nat.sub_diag by lia. simpl.
    by repeat case_decide.
Qed.

Lemma children_of_lt net ns r c :
  nodes_inv net ns → c ∈ children_of ns r → r < c ∧ c < length ns.
Proof.
  intros Hinv [Hp Hc%elem_of_seq]%list_elem_of_filter.
  split; [|lia].
  destruct (Hinv c _ (node_at_lt ns c ltac:(lia))) as (_ & _ & p & _ & _ & _ & HK).
  rewrite Hp in HK. destruct (transition _); [|done]. by destruct HK.
Qed.

Lemma labels_agree ns ns' cs :
  agree ns ns' → (∀ c, c ∈ cs → c < length ns) → labels ns' cs = labels ns cs.
Proof.
  intros Hag Hcs. unfold labels. apply list_fmap_ext. intros i c Hc.
  apply list_elem_of_lookup_2, Hcs in Hc.
  by destruct (Hag c Hc) as (_ & _ & _ & -> & _).
Qed.

Lemma labels_app ns cs1 cs2 :
  labels ns (cs1 ++ cs2) = labels ns cs1 ++ labels ns cs2.
Proof. apply fmap_app. Qed.

Lemma verdict_agree net ns ns' pending n :
  agree ns ns' →
  (∀ a, a ∈ removelast (path_to_root n) → a < length ns) →
  (∀ c, c ∈ children n → c < length ns) →
  verdict net ns pending n → verdict net ns' pending n.
Proof.
  intros Hag Hpath Hch. unfold verdict.
  rewrite (old_check_ext ns ns') by
    (intros a Ha; apply agree_marking_at; auto).
  by rewrite (labels_agree ns ns') by done.
Qed.

Lemma nodes_inv_ancestors net ns r n :
  nodes_inv net ns → ns !! r = Some n →
  ∀ a, a ∈ removelast (path_to_root n) → a < length ns.
Proof.
  intros Hinv Hlook a Ha.
  destruct (Hinv r n Hlook) as (_ & _ & p & Hp & Hlt & _).
  rewrite Hp, removelast_last in Ha. apply Hlt in Ha.
  apply lookup_lt_Some in Hlook. lia.
Qed.

Section Links.
Context (net : PetriNetwork).

Lemma init_links : links_ok net Idle (init_state net).
Proof.
  split; simpl; [done|intros i e Hi; by rewrite lookup_nil in Hi|..].
  - by intros r n [-> <-]%list_lookup_singleton_Some.
  - by intros r n [-> <-]%list_lookup_singleton_Some.
Qed.

Lemma links_ok_same ph st st' :
  nodes st' = nodes st → edges st' = edges st →
  links_ok net ph st → links_ok net ph st'.
Proof. intros Hn He [? ? ? ?]. split; by rewrite ?Hn, ?He. Qed.

(** Writing a tag: the links stay, and so do the verdicts on the other
    nodes. *)
Lemma links_set_tag ph ph' current tg st :
  shape net st → links_ok net ph st →
  (∀ r, r ≠ current → settled ph' r →
        settled ph r ∧ pending_at ph' r = pending_at ph r) →
  (∀ n0, nodes st !! current = Some n0 → settled ph' current →
         verdict net (nodes st) (pending_at ph' current) (with_tag tg n0)) →
  links_ok net ph' (set_tag current tg st).
Proof.
  intros Hsh [Hel He Hch Hvd] Hph Hcur.
  pose proof (sh_node _ _ Hsh) as Hinv.
  assert (agree (nodes st) (nodes (set_tag current tg st))) as Hag
    by apply agree_alter, frozen_eq_with_tag.
  assert (Hlook : ∀ r n', nodes (set_tag current tg st) !! r = Some n' →
    ∃ n, nodes st !! r = Some n ∧ frozen_eq n n' ∧ children n' = children n
         ∧ (if decide (r = current) then n' = with_tag tg n else n' = n)).
  { intros r n' Hr. simpl in Hr. rewrite list_lookup_alter in Hr.
    destruct (decide (current = r)) as [->|Hne].
    - destruct (nodes st !! r) as [n|]; simplify_eq/=.
      exists n. rewrite decide_True by done.
      split_and!; auto using frozen_eq_with_tag.
    - exists n'. rewrite decide_False by done.
      split_and!; auto using frozen_eq_refl. }
  split.
  - simpl. by rewrite length_alter.
  - intros i e Hi. destruct (He i e Hi) as (n & p & t & Hn & Hp & Ht & ->).
    simpl. rewrite list_lookup_alter.
    case_decide; [|by eauto 10]. subst. rewrite Hn. simpl. eauto 10.
  - intros r n' Hr. destruct (Hlook r n' Hr) as (n & Hn & _ & -> & _).
    rewrite (Hch r n Hn). symmetry. apply children_of_agree; [|done].
    simpl. by rewrite length_alter.
  - intros r n' Hr Hset. destruct (Hlook r n' Hr) as (n & Hn & _ & Hkids & Hn').
    assert (∀ c, c ∈ children n → c < length (nodes st)) as Hcs.
    { intros c Hc. rewrite (Hch r n Hn) in Hc.
      by apply (children_of_lt net) in Hc as [_ ?]. }
    destruct (decide (r = current)) as [->|Hne].
    + subst n'. apply (verdict_agree net (nodes st)); [done|..].
      * by apply (nodes_inv_ancestors net _ current n).
      * done.
      * by apply Hcur.
    + subst n'. destruct (Hph r Hne Hset) as [Hset' ->].
      apply (verdict_agree net (nodes st)); [done| |done|by apply Hvd].
      by apply (nodes_inv_ancestors net _ r n).
Qed.

Lemma links_add_node current t ts m_prime st :
  shape net st → links_ok net (Expanding current (t :: ts)) st →
  current < length (nodes st) →
  all_finite (marking_at (nodes st) current) →
  successor net (nodes st) (node_at (nodes st) current) t = Ok m_prime →
  links_ok net (Expanding current ts) (add_node current t m_prime st).
Proof.
  intros Hsh [Hel He Hch Hvd] Hcur Hfin Hsucc.
  pose proof (sh_node _ _ Hsh) as Hinv.
  pose proof (add_node_shape net current t m_prime st Hsh Hcur Hfin Hsucc)
    as Hsh'.
  pose proof (sh_node _ _ Hsh') as Hinv'.
  pose proof (add_node_agree current t m_prime st) as Hag.
  set (N := length (nodes st)) in *.
  set (ns1 := alter (with_child N) current (nodes st)).
  assert (length ns1 = N) as Hlen1 by apply length_alter.
  assert (agree (nodes st) ns1) as Hag1
    by apply agree_alter, frozen_eq_with_child.
  assert (Hold : ∀ r n', r < N →
    nodes (add_node current t m_prime st) !! r = Some n' →
    ∃ n, nodes st !! r = Some n ∧ frozen_eq n n' ∧ tag n' = tag n
         ∧ children n' = children n ++ (if decide (r = current) then [N] else [])).
  { intros r n' Hr Hlook. simpl in Hlook. fold N ns1 in Hlook.
    rewrite lookup_app_l in Hlook by lia.
    unfold ns1 in Hlook. rewrite list_lookup_alter in Hlook.
    destruct (decide (current = r)) as [->|Hne].
    - destruct (nodes st !! r) as [n|]; simplify_eq/=.
      exists n. rewrite decide_True by done.
      split_and!; auto using frozen_eq_with_child.
    - exists n'. rewrite decide_False by done.
      split_and!; auto using frozen_eq_refl. by rewrite app_nil_r. }
  assert (Hnew : nodes (add_node current t m_prime st) !! N
    = Some {| marking := m_prime; node_id := node_counter st; tag := New;
              parent := Some current; children := []; transition := Some t;
              path_to_root :=
                path_to_root (node_at (nodes st) current) ++ [N] |}).
  { simpl. fold N ns1. rewrite lookup_app_r by lia.
    by rewrite Hlen1, Nat.sub_diag. }
  split.
  - simpl. rewrite !length_app, length_alter. simpl. lia.
  - intros i e Hi. simpl in Hi.
    apply lookup_app_Some in Hi as [Hi|[Hge Hi]].
    + destruct (He i e Hi) as (n & p & t' & Hn & Hp & Ht & ->).
      assert (S i < N) as Hlt by (by eapply lookup_lt_Some).
      destruct (lookup_lt_is_Some_2 (nodes (add_node current t m_prime st)) (S i))
        as [n' Hn'].
      { simpl. rewrite length_app, length_alter. lia. }
      destruct (Hold (S i) n' Hlt Hn') as (n0 & Hn0 & (_ & _ & Hpa & Htr & _) & _).
      simplify_eq. exists n', p, t'. by rewrite <-Hpa, <-Htr.
    + apply list_lookup_singleton_Some in Hi as [Hi0 <-].
      assert (S i = N) as HSi by lia.
      rewrite HSi, Hnew. eexists _, _, _. split_and!; [done..|].
      destruct (Hinv current _ (node_at_lt _ _ Hcur)) as (-> & _).
      by rewrite (sh_counter _ _ Hsh).
  - intros r n' Hr.
    destruct (decide (r < N)) as [Hlt|Hge].
    + destruct (Hold r n' Hlt Hr) as (n & Hn & _ & _ & ->).
      simpl. fold N ns1. rewrite children_of_snoc, Hlen1. simpl.
      rewrite (children_of_agree (nodes st) ns1) by done.
      rewrite (Hch r n Hn). f_equal.
      destruct (decide (r = current)) as [->|Hne].
      * by rewrite decide_True.
      * rewrite decide_False; [done|congruence].
    + assert (r = N) as HrN.
      { apply lookup_lt_Some in Hr. simpl in Hr.
        rewrite length_app, length_alter in Hr. simpl in Hr. fold N in Hr. lia. }
      rewrite HrN in Hr |- *. rewrite Hnew in Hr.
      injection Hr as <-. simpl.
      destruct (children_of _ N) as [|c cs] eqn:E; [done|].
      assert (c ∈ c :: cs) as Hc by (by left). rewrite <-E in Hc.
      apply (children_of_lt net) in Hc as [? Hc]; [|done].
      rewrite length_app, length_alter in Hc. simpl in Hc.
      fold N in Hc. lia.
  - intros r n' Hr _.
    destruct (decide (r < N)) as [Hlt|Hge].
    + destruct (Hold r n' Hlt Hr) as (n & Hn & Hfr & Htag & Hkids).
      specialize (Hvd r n Hn I).
      assert (∀ c, c ∈ children n → c < N) as Hcs.
      { intros c Hc. rewrite (Hch r n Hn) in Hc.
        by apply (children_of_lt net) in Hc as [_ ?]. }
      destruct Hfr as (Hm & _ & _ & _ & Hpath).
      unfold verdict in *. rewrite <-Hm, <-Hpath, Htag.
      rewrite (old_check_ext (nodes st)).
      2:{ intros a Ha. apply agree_marking_at; [done|].
          by apply (nodes_inv_ancestors net _ r n). }
      destruct (tag n); try done.
      destruct Hvd as (Hold' & enabled & Hen & Hne & Hlab).
      split; [done|]. exists enabled. split_and!; [done..|].
      rewrite Hkids, labels_app, (labels_agree (nodes st)) by done.
      simpl in Hlab |- *. destruct (decide (r = current)) as [->|Hne'].
      * rewrite decide_True in Hlab |- * by done.
        unfold labels at 2. simpl.
        unfold node_at at 1. rewrite (list_lookup_total_correct _ _ _ Hnew).
        simpl. by rewrite <-app_assoc.
      * rewrite decide_False in Hlab |- * by done.
        unfold labels at 2. simpl. by rewrite app_nil_r.
    + assert (r = N) as HrN.
      { apply lookup_lt_Some in Hr. simpl in Hr.
        rewrite length_app, length_alter in Hr. simpl in Hr. fold N in Hr. lia. }
      rewrite HrN in Hr. rewrite Hnew in Hr. by injection Hr as <-.
Qed.

Lemma links_expand current : ∀ enabled st,
  shape net st → links_ok net (Expanding current enabled) st →
  current < length (nodes st) →
  all_finite (marking_at (nodes st) current) →
  links_result net (expand net current enabled st).
Proof.
  induction enabled as [|t enabled IH]; intros st Hsh Hlk Hcur Hfin; simpl.
  - destruct Hlk as [? ? ? Hvd]. split; [done..|].
    intros r n Hr _. specialize (Hvd r n Hr I). simpl in Hvd.
    by case_decide.
  - destruct (successor _ _ _ t) as [m_prime|] eqn:Hsucc; simpl; [|eauto].
    pose proof (add_node_agree current t m_prime st) as Hag.
    apply IH.
    + by apply add_node_shape.
    + by apply links_add_node.
    + simpl. rewrite length_app, length_alter. lia.
    + by rewrite (agree_marking_at _ _ _ Hag Hcur).
Qed.
End Links.

Section LinksLoop.
Context (net : PetriNetwork).

Lemma links_iteration st :
  shape net st → tags_ok None st → links_ok net Idle st →
  links_result net (iteration net st).
Proof.
  intros Hsh Htg Hlk. unfold iteration.
  destruct (new_nodes st) as [|current rest] eqn:Hqueue; [done|].
  pose proof (dequeue_shape _ _ _ _ Hsh Hqueue) as Hsh0.
  destruct (dequeue_tags st current rest Htg Hqueue) as (_ & _ & Hr & Hkids).
  set (st0 := {| nodes := nodes st; edges := edges st; root := root st;
                 new_nodes := rest; node_counter := node_counter st |}) in *.
  assert (links_ok net Idle st0) as Hlk0 by (by apply (links_ok_same net Idle st)).
  pose proof (set_tag_shape _ current Processed _ Hsh0) as Hsh1.
  assert (links_ok net (Checking current) (set_tag current Processed st0)) as Hlk1.
  { apply (links_set_tag net Idle); [done..| |]; simpl; [done|].
    by intros n0 _ []. }
  set (st1 := set_tag current Processed st0) in *.
  pose proof (node_at_lt _ _ Hr) as Hcur.
  destruct (old_check _ _ _) as [[]|] eqn:Hold; [| |simpl; eauto].
  { apply (links_set_tag net (Checking current)); [done..|by intros r ? _|].
    intros n0 Hn0 _. rewrite Hcur in Hn0. by injection Hn0 as <-. }
  destruct (get_enabled_transitions _ _) as [[|t enabled]|] eqn:Hen;
    [| |simpl; eauto].
  { apply (links_set_tag net (Checking current)); [done..|by intros r ? _|].
    intros n0 Hn0 _. rewrite Hcur in Hn0. by injection Hn0 as <-. }
  apply links_expand; [done| |done|].
  - destruct Hlk1 as [? ? ? Hvd]. split; [done..|].
    intros r n Hn _. unfold pending_at.
    destruct (decide (current = r)) as [<-|Hne].
    + rewrite Hcur in Hn. injection Hn as <-.
      assert (tag (node_at (nodes st1) current) = Processed) as Htag.
      { unfold node_at. simpl.
        rewrite list_lookup_total_alter_eq; [done|].
        simpl in Hr. by rewrite length_alter in Hr. }
      unfold verdict.
      destruct (tag _) eqn:Htag'; try discriminate Htag.
      split; [exact Hold|]. exists (t :: enabled). split_and!; [done..|].
      pose proof Hkids as Hkids'. unfold st1 in Hkids'. simpl in Hkids'.
      by rewrite Hkids'.
    + apply (Hvd r n Hn). exact Hne.
  - apply not_old_finite with net; [|done..]. apply (sh_node _ _ Hsh1).
Qed.

Lemma reach_links st : reach net st → links_ok net Idle st.
Proof.
  induction 1 as [|st st' Hre IH Hstep]; [apply init_links|].
  pose proof (links_iteration st (reach_shape net st Hre)
                (reach_tags net st Hre) IH) as H.
  by rewrite Hstep in H.
Qed.

Lemma build_loop_links fuel : ∀ st,
  shape net st → tags_ok None st → links_ok net Idle st →
  ∃ ph, links_ok net ph (final_state (build_loop net fuel st)).
Proof.
  induction fuel as [|fuel IH]; intros st Hsh Htg Hlk; simpl.
  { destruct (new_nodes st); simpl; eauto. }
  destruct (new_nodes st) eqn:Hq; simpl; [eauto|].
  pose proof (iteration_shape net st Hsh) as Hsh'.
  pose proof (links_iteration st Hsh Htg Hlk) as Hlk'.
  destruct (iteration net st) as [st1|e st1] eqn:Hstep; simpl in *; [|done].
  apply IH; [done| |done]. by eapply iteration_tags.
Qed.
End LinksLoop.

(** The edge list is the list of the parent links: there is one edge per
    node other than the root, and edge number [i] is the one of node [i+1],
    made of the id of its parent, its own id, which is its position, and the
    transition that led to it.  This holds of whatever [build_tree] leaves,
    completed or not. *)
Theorem tree_edges_are_parent_links net fuel :
  let st := final_state (build_tree net fuel) in
  S (length (edges st)) = length (nodes st)
  ∧ ∀ i e, edges st !! i = Some e →
      ∃ n p t, nodes st !! S i = Some n ∧ node_id n = S i
               ∧ parent n = Some p ∧ transition n = Some t
               ∧ p < S i ∧ e = (p, S i, t).
Proof.
  intros st.
  pose proof (build_loop_shape net fuel _ (init_shape net)) as [_ _ Hinv].
  destruct (build_loop_links net fuel _ (init_shape net) (init_tags net)
              (init_links net)) as [ph [Hlen He _ _]].
  fold (build_tree net fuel) in Hinv, Hlen, He. fold st in Hinv, Hlen, He.
  split; [done|]. intros i e Hi.
  destruct (He i e Hi) as (n & p & t & Hn & Hp & Ht & ->).
  destruct (Hinv _ _ Hn) as (Hid & _ & path & _ & _ & _ & HK).
  rewrite Hp, Ht in HK. destruct HK as (Hlt & _).
  exists n, p, t. by split_and!.
Qed.

Lemma tree_edges_are_parent_links_witness :
  let st := final_state (build_tree scenario1 5) in
  edges st !! 0 = Some (0, 1, "t1")
  ∧ ∃ n p t, nodes st !! 1 = Some n ∧ node_id n = 1
             ∧ parent n = Some p ∧ transition n = Some t
             ∧ p < 1 ∧ (0, 1, "t1") = (p, 1, t).
Proof.
  intros st. split; [reflexivity|].
  apply (proj2 (tree_edges_are_parent_links scenario1 5) 0). reflexivity.
Defined.

(** The children of a node are exactly the nodes whose parent it is, in
    the order of their creation, in whatever [build_tree] leaves. *)
Theorem tree_children_are_parent_links net fuel r n :
  let ns := nodes (final_state (build_tree net fuel)) in
  ns !! r = Some n →
  children n = filter (λ c, parent (node_at ns c) = Some r) (seq 0 (length ns)).
Proof.
  intros ns Hn.
  destruct (build_loop_links net fuel _ (init_shape net) (init_tags net)
              (init_links net)) as [ph [_ _ Hch _]].
  by apply Hch.
Qed.

Lemma tree_children_are_parent_links_witness :
  let ns := nodes (final_state (build_tree scenario1 5)) in
  ∃ n, ns !! 0 = Some n
       ∧ children n
         = filter (λ c, parent (node_at ns c) = Some 0) (seq 0 (length ns)).
Proof.
  intros ns. eexists. split; [reflexivity|].
  apply (tree_children_are_parent_links scenario1 5 0). reflexivity.
Defined.

Lemma old_check_true ns m ancs :
  old_check ns m ancs = Ok true →
  ∃ a c g, a ∈ ancs ∧ compare_markings m (marking_at ns a) = Ok (c, true, g).
Proof.
  induction ancs as [|a ancs IH]; simpl; [done|].
  fold (marking_at ns a).
  destruct (compare_markings m (marking_at ns a)) as [[[c e] g]|] eqn:E;
    simpl; [|done].
  destruct e.
  - intros _. exists a, c, g. split; [by left|done].
  - intros (a' & c' & g' & Ha & H)%IH. exists a', c', g'. split; [by right|done].
Qed.

Lemma old_check_false ns m ancs :
  old_check ns m ancs = Ok false →
  ∀ a, a ∈ ancs → ∃ c g, compare_markings m (marking_at ns a) = Ok (c, false, g).
Proof.
  induction ancs as [|a ancs IH]; simpl; [by intros _ a ?%elem_of_nil|].
  fold (marking_at ns a).
  destruct (compare_markings m (marking_at ns a)) as [[[c e] g]|] eqn:E;
    simpl; [|done].
  destruct e; [done|]. intros Hrest a' [->|Ha]%elem_of_cons; [eauto|].
  by apply IH.
Qed.

(** What the tags say once [build_tree] has completed.  A node is [Old]
    exactly when [compare_markings] reports [equal] against one of its proper
    ancestors; otherwise it is [DeadEnd] when no transition is enabled in its
    marking and [Processed] when some is.  A [Processed] node has one child
    per enabled transition, in the order in which the net defines them, each
    reached by that transition. *)
Theorem tags_meaning net fuel st r n :
  build_tree net fuel = Done st → nodes st !! r = Some n →
  let ns := nodes st in
  let old := ∃ a c g, a ∈ removelast (path_to_root n)
               ∧ compare_markings (marking n) (marking_at ns a) = Ok (c, true, g) in
  (tag n = Old ↔ old)
  ∧ (tag n = DeadEnd ↔
     ¬ old ∧ get_enabled_transitions net (marking n) = Ok [])
  ∧ (tag n = Processed ↔
     ¬ old ∧ ∃ t l, get_enabled_transitions net (marking n) = Ok (t :: l))
  ∧ (tag n = Processed →
     ∃ enabled, get_enabled_transitions net (marking n) = Ok enabled
       ∧ (λ c, transition (node_at ns c)) <$> children n = Some <$> enabled).
Proof.
  intros Hdone Hn ns old.
  apply build_loop_reach in Hdone as [Hre Hq]; [|apply reach_init].
  pose proof (reach_links net st Hre) as [_ _ _ Hvd].
  specialize (Hvd r n Hn I). simpl in Hvd.
  pose proof (reach_tags net st Hre) as [_ _ Htg]. specialize (Htg r n Hn).
  rewrite Hq in Htg. rewrite decide_False in Htg by apply not_elem_of_nil.
  rewrite decide_False in Htg by done.
  assert (Hno : old_check ns (marking n) (removelast (path_to_root n)) = Ok false
                → ¬ old).
  { intros Hf (a & c & g & Ha & Hc).
    destruct (old_check_false _ _ _ Hf a Ha) as (c' & g' & Hc'). congruence. }
  unfold verdict in Hvd. fold ns in Hvd.
  destruct (tag n) eqn:Htag.
  - destruct Htg as [[? _]|[[?|?] _]]; congruence.
  - destruct Hvd as (Hf & enabled & Hen & Hne & Hlab).
    rewrite app_nil_r in Hlab. unfold labels in Hlab.
    destruct enabled as [|t l]; [done|].
    split_and!; [split; [done|]|split; [done|]|split; [eauto|done]|eauto].
    + intros Ho. by apply Hno in Ho.
    + intros [_ ?]. congruence.
  - apply old_check_true in Hvd.
    split_and!; [done|split; [done|]|split; [done|]|done].
    + by intros [? _].
    + by intros [? _].
  - destruct Hvd as (Hf & Hen).
    split_and!; [split; [done|]|split; [eauto|done]|split; [done|]|done].
    + intros Ho. by apply Hno in Ho.
    + intros [_ (t & l & ?)]. congruence.
Qed.

Lemma tags_meaning_witness :
  ∃ st n, build_tree scenario1 5 = Done st ∧ nodes st !! 0 = Some n
    ∧ (tag n = Processed →
       ∃ enabled, get_enabled_transitions scenario1 (marking n) = Ok enabled
         ∧ (λ c, transition (node_at (nodes st) c)) <$> children n
           = Some <$> enabled).
Proof.
  eexists _, _. split; [reflexivity|]. split; [reflexivity|].
  apply (tags_meaning scenario1 5 _ 0 _ eq_refl). reflexivity.
Defined.

(** Acceleration ends the branch: when [build_tree] has completed, every
    node whose marking holds omega is tagged [Old] and has no children, and
    every node that was expanded or found dead has a marking of numbers
    only. *)
Theorem omega_nodes_are_old_leaves net fuel st r n :
  build_tree net fuel = Done st → nodes st !! r = Some n →
  ¬ all_finite (marking n) → tag n = Old ∧ children n = [].
Proof.
  intros Hdone Hn Hinf.
  apply build_loop_reach in Hdone as [Hre Hq]; [|apply reach_init].
  pose proof (reach_links net st Hre) as [_ _ _ Hvd].
  specialize (Hvd r n Hn I). simpl in Hvd.
  pose proof (reach_tags net st Hre) as [_ _ Htg]. specialize (Htg r n Hn).
  rewrite Hq in Htg. rewrite decide_False in Htg by apply not_elem_of_nil.
  rewrite decide_False in Htg by done.
  pose proof (reach_shape net st Hre) as [_ _ Hinv].
  assert (old_check (nodes st) (marking n) (removelast (path_to_root n))
          ≠ Ok false) as Hnf.
  { intros Hf. apply Hinf.
    pose proof (not_old_finite net (nodes st) r Hinv) as H.
    unfold marking_at in H. rewrite (node_at_lookup _ _ _ Hn) in H.
    apply H; [by eapply lookup_lt_Some|done]. }
  unfold verdict in Hvd.
  destruct (tag n) eqn:Htag.
  - destruct Htg as [[? _]|[[?|?] _]]; congruence.
  - by destruct Hvd as (? & _).
  - destruct Htg as [[? _]|[_ ?]]; [congruence|done].
  - by destruct Hvd as (? & _).
Qed.

Lemma omega_nodes_are_old_leaves_witness :
  ∃ st n, build_tree scenario1 5 = Done st ∧ nodes st !! 1 = Some n
    ∧ ¬ all_finite (marking n) ∧ tag n = Old ∧ children n = [].
Proof.
  assert (¬ all_finite [Omega]) as H.
  { intros H. by apply all_finite_cons in H as [? _]. }
  eexists _, _. split; [reflexivity|]. split; [reflexivity|].
  split; [exact H|].
  apply (omega_nodes_are_old_leaves scenario1 5 _ 1 _ eq_refl eq_refl H).
Defined.

(** ** analyze_properties *)

Lemma scan_marking_spec pl m : ∀ i bnd unb b' u',
  scan_marking pl i m bnd unb = Ok (b', u') →
  (b' = true ↔ bnd = true ∧ all_finite m)
  ∧ (NoDup unb → NoDup u')
  ∧ ∀ p, p ∈ u' ↔
      p ∈ unb ∨ ∃ j, m !! j = Some Omega ∧ pl !! (i + j) = Some p.
Proof.
  induction m as [|v m IH]; intros i bnd unb b' u'; simpl.
  { intros [= <- <-]. split_and!; [|done|].
    - split; [by intros ->; split; [|constructor]|by intros []].
    - intros p. split; [by left|]. by intros [?|(j & ? & _)]. }
  destruct v as [x|]; simpl.
  - intros H. destruct (IH _ _ _ _ _ H) as (Hb & Hnd & Hu).
    split_and!; [|done|].
    + rewrite Hb, all_finite_cons. tauto.
    + intros p. rewrite Hu. split; (intros [?|(j & Hj & Hp)]; [by left|right]).
      * exists (S j). by rewrite Nat.add_succ_r.
      * destruct j as [|j]; [done|]. exists j. by rewrite Nat.add_succ_r in Hp.
  - destruct (getitem pl i) as [name|] eqn:Hname; simpl; [|done].
    apply getitem_Ok in Hname.
    intros H. destruct (IH _ _ _ _ _ H) as (Hb & Hnd & Hu).
    split_and!.
    + split; [by intros [? _]%Hb|].
      intros [_ Hfin]. by apply all_finite_cons in Hfin as [? _].
    + intros Hunb. apply Hnd. case_decide; [done|].
      apply NoDup_app. split_and!; [done| |apply NoDup_singleton].
      by intros x ? ->%list_elem_of_singleton.
    + intros p. rewrite Hu. split.
      * intros [Hp|(j & Hj & Hp)].
        -- case_decide; [by left|].
           apply elem_of_app in Hp as [?|Hp]; [by left|].
           apply list_elem_of_singleton in Hp as ->.
           right. exists 0. by rewrite Nat.add_0_r.
        -- right. exists (S j). by rewrite Nat.add_succ_r.
      * intros [Hp|(j & Hj & Hp)].
        -- left. case_decide; [done|]. apply elem_of_app. by left.
        -- destruct j as [|j].
           ++ rewrite Nat.add_0_r in Hp. simplify_eq. left.
              case_decide; [done|]. apply elem_of_app. right.
              by apply list_elem_of_singleton.
           ++ right. exists j. by rewrite Nat.add_succ_r in Hp.
Qed.

Lemma scan_marking_total pl m : ∀ i bnd unb,
  (∀ j, m !! j = Some Omega → i + j < length pl) →
  ∃ r, scan_marking pl i m bnd unb = Ok r.
Proof.
  induction m as [|v m IH]; intros i bnd unb Hlt; simpl; [eauto|].
  assert (∀ j, m !! j = Some Omega → S i + j < length pl) as Hlt'.
  { intros j Hj. specialize (Hlt (S j) Hj). lia. }
  destruct v as [x|]; simpl; [by apply IH|].
  destruct (getitem_lt pl i) as [name ->]; [specialize (Hlt 0 eq_refl); lia|].
  simpl. by apply IH.
Qed.

Lemma scan_nodes_spec pl ns : ∀ r r',
  scan_nodes pl ns r = Ok r' →
  (bounded r' = true ↔
   bounded r = true ∧ Forall (λ n, all_finite (marking n)) ns)
  ∧ (NoDup (unbounded_places r) → NoDup (unbounded_places r'))
  ∧ (∀ p, p ∈ unbounded_places r' ↔
       p ∈ unbounded_places r
       ∨ ∃ n j, n ∈ ns ∧ marking n !! j = Some Omega ∧ pl !! j = Some p)
  ∧ dead_end_nodes r'
    = dead_end_nodes r ++ (node_id <$> filter (λ n, tag n = DeadEnd) ns)
  ∧ old_nodes r'
    = old_nodes r ++ (node_id <$> filter (λ n, tag n = Old) ns).
Proof.
  induction ns as [|node ns IH]; intros r r'; simpl.
  { intros [= <-]. rewrite !app_nil_r. split_and!; try done.
    - split; [by intros ->; split; [|constructor]|by intros []].
    - intros p. split; [by left|]. intros [?|(n & j & Hn & _)]; [done|].
      by apply elem_of_nil in Hn. }
  destruct (scan_marking pl 0 (marking node) (bounded r) (unbounded_places r))
    as [[b u]|] eqn:Hscan; simpl; [|done].
  destruct (scan_marking_spec _ _ _ _ _ _ _ Hscan) as (Hb & Hnd & Hu).
  intros H. destruct (IH _ _ H) as (Hb' & Hnd' & Hu' & Hd' & Ho').
  simpl in *. split_and!.
  - rewrite Hb', Hb, Forall_cons. tauto.
  - auto.
  - intros p. rewrite Hu', Hu. split.
    + intros [[?|(j & Hj & Hp)]|(n & j & Hn & Hj & Hp)]; [by left|right..].
      * exists node, j. split; [by left|done].
      * exists n, j. split; [by right|done].
    + intros [?|(n & j & [->|Hn]%elem_of_cons & Hj & Hp)]; [by left; left| |].
      * left. right. eauto.
      * right. eauto.
  - rewrite Hd', filter_cons. repeat case_decide; try done;
      by rewrite <-app_assoc.
  - rewrite Ho', filter_cons. repeat case_decide; try done;
      by rewrite <-app_assoc.
Qed.

Lemma scan_marking_place pl m : ∀ i bnd unb r,
  scan_marking pl i m bnd unb = Ok r →
  ∀ j, m !! j = Some Omega → ∃ p, pl !! (i + j) = Some p.
Proof.
  induction m as [|v m IH]; intros i bnd unb r; simpl; [done|].
  destruct v as [x|]; simpl.
  - intros H [|j] Hj; [done|]. rewrite Nat.add_succ_r. by eapply (IH (S i)).
  - destruct (getitem pl i) as [name|] eqn:Hname; simpl; [|done].
    apply getitem_Ok in Hname. intros H [|j] Hj.
    + rewrite Nat.add_0_r. eauto.
    + rewrite Nat.add_succ_r. by eapply (IH (S i)).
Qed.

Lemma scan_nodes_total_at pl ns : ∀ r r',
  scan_nodes pl ns r = Ok r' →
  ∀ n j, n ∈ ns → marking n !! j = Some Omega → ∃ p, pl !! j = Some p.
Proof.
  induction ns as [|node ns IH]; intros r r'; simpl.
  { by intros _ n j ?%elem_of_nil. }
  destruct (scan_marking pl 0 (marking node) (bounded r) (unbounded_places r))
    as [[b u]|] eqn:Hscan; simpl; [|done].
  intros H n j [->|Hn]%elem_of_cons Hj.
  - by apply (scan_marking_place _ _ _ _ _ _ Hscan j).
  - by eapply IH.
Qed.

(** What the report of [analyze_properties] says.  The net is reported
    bounded exactly when no node at all, leaf or not, has omega in its
    marking; the unbounded places are listed without repetition and are the
    places at whose position some node holds omega; the dead-end and old
    nodes are all the nodes with that tag, in creation order. *)
Theorem analyze_properties_report net st rep :
  analyze_properties net st = Ok rep →
  (bounded rep = true ↔ ∀ n, n ∈ nodes st → all_finite (marking n))
  ∧ (bounded rep = true ↔ unbounded_places rep = [])
  ∧ NoDup (unbounded_places rep)
  ∧ (∀ p, p ∈ unbounded_places rep ↔
       ∃ n j, n ∈ nodes st ∧ marking n !! j = Some Omega
              ∧ places net !! j = Some p)
  ∧ dead_end_nodes rep = node_id <$> filter (λ n, tag n = DeadEnd) (nodes st)
  ∧ old_nodes rep = node_id <$> filter (λ n, tag n = Old) (nodes st).
Proof.
  intros H. pose proof H as Hrun. unfold analyze_properties in Hrun.
  destruct (scan_nodes_spec _ _ _ _ Hrun) as (Hb & Hnd & Hu & Hd & Ho).
  simpl in *.
  assert (Hu' : ∀ p, p ∈ unbounded_places rep ↔
       ∃ n j, n ∈ nodes st ∧ marking n !! j = Some Omega
              ∧ places net !! j = Some p).
  { intros p. rewrite Hu. split; [by intros [?%elem_of_nil|]|by right]. }
  assert (Hb' : bounded rep = true ↔ ∀ n, n ∈ nodes st → all_finite (marking n)).
  { rewrite Hb, Forall_forall. split; [by intros [_ ?]|done]. }
  split_and!; [done| |by apply Hnd, NoDup_nil|done..].
  rewrite Hb'. split.
  - intros Hfin. destruct (unbounded_places rep) as [|p l]; [done|].
    assert (p ∈ p :: l) as Hp by (by left).
    apply Hu' in Hp as (n & j & Hn & Hj & _). specialize (Hfin n Hn).
    unfold all_finite in Hfin. rewrite Forall_lookup in Hfin.
    by specialize (Hfin _ _ Hj).
  - intros Hnil n Hn. apply Forall_lookup. intros j v Hj.
    destruct v as [x|]; [done|]. exfalso.
    pose proof (scan_nodes_total_at (places net) (nodes st) _ _ Hrun n j Hn Hj)
      as [p Hp].
    assert (p ∈ unbounded_places rep) as Hin by (apply Hu'; eauto).
    rewrite Hnil in Hin. by apply elem_of_nil in Hin.
Qed.

Lemma analyze_properties_report_witness :
  analyze_properties scenario1 (final_state (build_tree scenario1 5))
  = Ok {| bounded := false; unbounded_places := ["P0"];
          dead_end_nodes := []; old_nodes := [1] |}
  ∧ NoDup ["P0"].
Proof.
  split; [reflexivity|].
  apply (analyze_properties_report scenario1
           (final_state (build_tree scenario1 5))
           {| bounded := false; unbounded_places := ["P0"];
              dead_end_nodes := []; old_nodes := [1] |}).
  reflexivity.
Defined.

Lemma remove_tokens_beyond net items : ∀ m r,
  remove_tokens net m items = Ok r →
  ∀ j, length (places net) ≤ j → r !! j = m !! j.
Proof.
  induction items as [|[p w] items IH]; intros m r; simpl.
  { by intros [= <-]. }
  destruct (index _ p) as [idx|] eqn:Hidx; simpl; [|done].
  destruct (getitem m idx) as [v|]; simpl; [|done].
  destruct (mval_sub v w) as [x|]; simpl; [|done].
  intros H j Hj. rewrite (IH _ _ H j Hj).
  apply list_lookup_insert_ne. apply index_Ok, lookup_lt_Some in Hidx. lia.
Qed.

Lemma add_tokens_beyond net items : ∀ m r,
  add_tokens net m items = Ok r →
  ∀ j, length (places net) ≤ j → r !! j = m !! j.
Proof.
  induction items as [|[p w] items IH]; intros m r; simpl.
  { by intros [= <-]. }
  destruct (index _ p) as [idx|] eqn:Hidx; simpl; [|done].
  destruct (getitem m idx) as [v|]; simpl; [|done].
  destruct (mval_add v w) as [x|]; simpl; [|done].
  intros H j Hj. rewrite (IH _ _ H j Hj).
  apply list_lookup_insert_ne. apply index_Ok, lookup_lt_Some in Hidx. lia.
Qed.

(** Firing writes only at positions of places: an entry of the marking
    beyond the place list is left as it is. *)
Lemma fire_transition_beyond net t m r :
  fire_transition net t m = Ok r →
  ∀ j, length (places net) ≤ j → r !! j = m !! j.
Proof.
  unfold fire_transition.
  destruct (is_enabled net t m) as [[]|]; simpl; [|done..].
  destruct (dict_get _ t) as [tr|]; [|done].
  destruct (remove_tokens net m (tr_in tr)) as [m1|] eqn:E1; simpl; [|done].
  intros E2 j Hj.
  by rewrite (add_tokens_beyond _ _ _ _ E2 j Hj),
             (remove_tokens_beyond _ _ _ _ E1 j Hj).
Qed.

Lemma accelerate_same_at s a j : a !! j = s !! j → accelerate s a !! j = s !! j.
Proof.
  intros Ha. unfold accelerate. rewrite lookup_zip_with, Ha.
  destruct (s !! j) as [[x|]|]; simpl; [|done..].
  by rewrite decide_False by lia.
Qed.

Lemma first_match_same_at s ancs j :
  Forall (λ a, a !! j = s !! j) ancs → first_match s ancs !! j = s !! j.
Proof.
  induction 1 as [|a ancs Ha _ IH]; simpl; [done|].
  case_decide; [by apply accelerate_same_at|done].
Qed.

Lemma tree_markings_beyond net ns j :
  nodes_inv net ns → length (places net) ≤ j →
  ∀ r n, ns !! r = Some n →
    marking n !! j = (Fin <$> initial_marking net) !! j.
Proof.
  intros Hinv Hj r. induction (lt_wf r) as [r _ IH]. intros n Hlook.
  destruct (Hinv r n Hlook) as (_ & _ & path & _ & _ & _ & HK).
  destruct (parent n) as [q|], (transition n) as [t|]; try done.
  - destruct HK as (Hq & Hpath & Hfin & s & Hs & _ & ->).
    assert (q < length ns) as Hq'.
    { apply lookup_lt_Some in Hlook. lia. }
    rewrite fire_step_finite in Hs by done.
    assert (s !! j = (Fin <$> initial_marking net) !! j) as Hsj.
    { rewrite (fire_transition_beyond _ _ _ _ Hs j Hj).
      apply (IH q Hq), node_at_lt, Hq'. }
    rewrite first_match_same_at; [done|].
    apply Forall_fmap, Forall_forall. intros a Ha. simpl. rewrite Hsj.
    destruct (nodes_inv_path net ns q Hinv Hq' a) as [Ha' _];
      [by rewrite <-Hpath|].
    apply (IH a); [|by apply node_at_lt].
    destruct (Hinv q _ (node_at_lt ns q Hq')) as (_ & _ & p & Hp & Hlt & _).
    rewrite Hpath, Hp in Ha.
    apply elem_of_app in Ha as [Ha%Hlt|Ha%list_elem_of_singleton]; lia.
  - by destruct HK as (_ & _ & ->).
Qed.

Lemma scan_nodes_total pl ns : ∀ r,
  Forall (λ n, ∀ j, marking n !! j = Some Omega → j < length pl) ns →
  ∃ r', scan_nodes pl ns r = Ok r'.
Proof.
  induction ns as [|node ns IH]; intros r Hns; simpl; [eauto|].
  apply Forall_cons in Hns as [Hnode Hns].
  destruct (scan_marking_total pl (marking node) 0 (bounded r)
              (unbounded_places r)) as [bu ->]; [done|].
  simpl. by apply IH.
Qed.

(** [analyze_properties] never raises on what [build_tree] leaves,
    whatever the net: omega only ever stands at the position of a place, so
    the name of the place is always found. *)
Theorem analyze_properties_never_raises net fuel :
  ∃ rep, analyze_properties net (final_state (build_tree net fuel)) = Ok rep.
Proof.
  pose proof (build_loop_shape net fuel _ (init_shape net)) as [_ _ Hinv].
  fold (build_tree net fuel) in Hinv.
  apply scan_nodes_total, Forall_lookup. intros r n Hn j Hj.
  destruct (decide (j < length (places net))) as [|Hge]; [done|].
  rewrite (tree_markings_beyond net _ j Hinv ltac:(lia) r n Hn) in Hj.
  rewrite list_lookup_fmap in Hj. by destruct (initial_marking net !! j).
Qed.

(** ** The text of the tree *)

Lemma expand_root net current enabled : ∀ st,
  root (result_state (expand net current enabled st)) = root st.
Proof.
  induction enabled as [|t enabled IH]; intros st; simpl; [done|].
  destruct (successor _ _ _ _); simpl; [|done]. by rewrite IH.
Qed.

Lemma iteration_root net st : root (result_state (iteration net st)) = root st.
Proof.
  unfold iteration. destruct (new_nodes st); [done|]. simpl.
  destruct (old_check _ _ _) as [[]|]; try done.
  destruct (get_enabled_transitions _ _) as [[|t enabled]|]; try done.
  by rewrite expand_root.
Qed.

Lemma build_loop_root net fuel : ∀ st,
  root (final_state (build_loop net fuel st)) = root st.
Proof.
  induction fuel as [|fuel IH]; intros st; simpl;
    destruct (new_nodes st) eqn:E; try done.
  pose proof (iteration_root net st) as H.
  destruct (iteration net st); simpl in *; [by rewrite IH|done].
Qed.

Lemma bind_lookup_inv {A B} (f : A → list B) (l : list A) i x :
  (l ≫= f) !! i = Some x →
  ∃ c off k, c ∈ l ∧ i = off + k ∧ f c !! k = Some x
    ∧ ∀ k' y, f c !! k' = Some y → (l ≫= f) !! (off + k') = Some y.
Proof.
  revert i. induction l as [|a l IH]; intros i; csimpl; [done|].
  intros [Hi|[Hle Hi]]%lookup_app_Some.
  - exists a, 0, i. split_and!; [by left|done|done|].
    intros k' y Hy. by apply lookup_app_l_Some.
  - destruct (IH _ Hi) as (c & off & k & Hc & Hik & Hk & Hall).
    exists c, (length (f a) + off), k. split_and!; [by right|lia|done|].
    intros k' y Hy. rewrite lookup_app_r by lia.
    replace (length (f a) + off + k' - length (f a)) with (off + k') by lia.
    by apply Hall.
Qed.

Lemma res_mapM_Forall2 {A B} (f : A → res B) (P : A → B → Prop) l :
  (∀ x, x ∈ l → ∃ y, f x = Ok y ∧ P x y) →
  ∃ ys, res_mapM f l = Ok ys ∧ Forall2 P l ys.
Proof.
  induction l as [|x l IH]; intros H; simpl; [by eexists|].
  destruct (H x) as (y & Hy & Hp); [by left|].
  destruct IH as (ys & Hys & Hall); [intros x' Hx'; apply H; by right|].
  exists (y :: ys). split; [|by constructor].
  rewrite Hy. simpl. fold (res_mapM f l). by rewrite Hys.
Qed.

Lemma Forall2_bind_concat {A B C} (P : B → C → Prop) (g : A → list B)
    (l : list A) (k : list (list C)) :
  Forall2 (λ a ys, Forall2 P (g a) ys) l k →
  Forall2 P (l ≫= g) (concat k).
Proof. induction 1; csimpl; [constructor|by apply Forall2_app]. Qed.

Lemma str_int_ok max_str_digits n :
  digits_ok max_str_digits n → str_int max_str_digits n = Ok (pretty n).
Proof.
  intros Hd. unfold str_int. case_decide as H; [|done].
  destruct H as [Hne Hle]. destruct Hd as [|Hlt]; [done|lia].
Qed.

(** [info] returns a line for every node of a printable arena. *)
Lemma info_total max_str_digits ns r level :
  printable max_str_digits ns → r < length ns →
  ∃ line, info max_str_digits ns (node_at ns r) level = Ok line.
Proof.
  intros Hpr Hr. unfold printable in Hpr. rewrite Forall_lookup in Hpr.
  destruct (Hpr r _ (node_at_lt ns r Hr)) as [Hid Hm].
  unfold info.
  destruct (res_mapM_Forall2 (m_str max_str_digits) (λ _ _, True)
              (marking (node_at ns r))) as (strs & -> & _).
  { intros v Hv. rewrite Forall_forall in Hm. specialize (Hm v Hv).
    destruct v as [z|]; simpl; [|by eexists].
    rewrite (str_int_ok _ _ Hm). by eexists. }
  simpl. rewrite (str_int_ok _ _ Hid). simpl.
  destruct (parent (node_at ns r)) as [p|]; simpl; [|by eexists].
  assert (digits_ok max_str_digits (Z.of_nat (node_id (node_at ns p)))) as Hp.
  { destruct (decide (p < length ns)) as [Hlt|Hge].
    - by destruct (Hpr p _ (node_at_lt ns p Hlt)).
    - unfold node_at. rewrite list_lookup_total_alt.
      rewrite (proj2 (lookup_ge_None ns p)) by lia. simpl.
      destruct max_str_digits as [|k]; [by left|right]. simpl Z.abs.
      apply Z.pow_pos_nonneg; lia. }
  rewrite (str_int_ok _ _ Hp). simpl. by eexists.
Qed.

Section TreeText.
Context (net : PetriNetwork) (ns : list TreeNode).
Hypothesis Hinv : nodes_inv net ns.
Hypothesis Hch : ∀ r n, ns !! r = Some n → children n = children_of ns r.

Lemma node_path_cases r :
  r < length ns →
  (r = 0 ∧ parent (node_at ns r) = None ∧ path_to_root (node_at ns r) = [0])
  ∨ ∃ q, parent (node_at ns r) = Some q ∧ q < r
         ∧ path_to_root (node_at ns r) = path_to_root (node_at ns q) ++ [r].
Proof.
  intros Hr.
  destruct (Hinv r _ (node_at_lt ns r Hr)) as (_ & _ & p & Hp & _ & _ & HK).
  destruct (parent _) as [q|], (transition _) as [t|]; try done.
  - right. exists q. by destruct HK as (Hq & <- & _).
  - left. by destruct HK as (-> & -> & _).
Qed.

Lemma path_le r a :
  r < length ns → a ∈ path_to_root (node_at ns r) → a ≤ r.
Proof.
  intros Hr Ha.
  destruct (Hinv r _ (node_at_lt ns r Hr)) as (_ & _ & p & Hp & Hlt & _).
  rewrite Hp in Ha.
  apply elem_of_app in Ha as [Ha%Hlt|Ha%list_elem_of_singleton]; lia.
Qed.

Lemma path_self r : r < length ns → r ∈ path_to_root (node_at ns r).
Proof.
  intros Hr.
  destruct (Hinv r _ (node_at_lt ns r Hr)) as (_ & _ & p & -> & _).
  apply elem_of_app. right. by apply list_elem_of_singleton.
Qed.

Lemma path_prefix : ∀ y, y < length ns →
  ∀ c, c ∈ path_to_root (node_at ns y) →
  path_to_root (node_at ns c) `prefix_of` path_to_root (node_at ns y).
Proof.
  intros y. induction (lt_wf y) as [y _ IH]. intros Hy c Hc.
  destruct (node_path_cases y Hy) as [(-> & _ & Hp)|(q & Hq & Hlt & Hp)].
  - rewrite Hp in Hc. by apply list_elem_of_singleton in Hc as ->.
  - rewrite Hp in Hc.
    apply elem_of_app in Hc as [Hc|Hc]; [|].
    + rewrite Hp. apply prefix_app_r. apply IH; [done|lia|done].
    + apply list_elem_of_singleton in Hc as ->. by rewrite Hp.
Qed.

Lemma child_path r c :
  c ∈ children_of ns r →
  path_to_root (node_at ns c) = path_to_root (node_at ns r) ++ [c].
Proof.
  intros Hc.
  destruct (children_of_lt net ns r c Hinv Hc) as [Hrc Hcl].
  apply list_elem_of_filter in Hc as [Hpar _].
  destruct (node_path_cases c Hcl) as [(-> & _)|(q & Hq & _ & Hp)]; [lia|].
  rewrite Hpar in Hq. by injection Hq as <-.
Qed.

Lemma child_depth r c :
  r < length ns → c ∈ children_of ns r → depth ns c = S (depth ns r).
Proof.
  intros Hr Hc. unfold depth. rewrite (child_path r c Hc), length_app. simpl.
  pose proof (path_self r Hr) as Hs.
  destruct (path_to_root (node_at ns r)); [by apply elem_of_nil in Hs|].
  simpl. lia.
Qed.

Lemma child_on_path r : ∀ x, x < length ns →
  r ∈ path_to_root (node_at ns x) → x ≠ r →
  ∃ c, c ∈ children_of ns r ∧ c ∈ path_to_root (node_at ns x).
Proof.
  intros x. induction (lt_wf x) as [x _ IH]. intros Hx Hr Hne.
  destruct (node_path_cases x Hx) as [(-> & _ & Hp)|(q & Hq & Hlt & Hp)].
  - rewrite Hp in Hr. by apply list_elem_of_singleton in Hr.
  - rewrite Hp in Hr.
    apply elem_of_app in Hr as [Hr|Hr%list_elem_of_singleton]; [|done].
    destruct (decide (q = r)) as [->|Hqr].
    + exists x. split; [|by apply path_self].
      apply list_elem_of_filter. split; [done|]. apply elem_of_seq. lia.
    + destruct (IH q Hlt ltac:(lia) Hr Hqr) as (c & Hc & Hcq).
      exists c. split; [done|]. rewrite Hp. apply elem_of_app. by left.
Qed.

Lemma preorder_elem calls : ∀ r x,
  r < length ns → length ns ≤ calls + r →
  x ∈ preorder calls ns r
  ↔ x < length ns ∧ r ∈ path_to_root (node_at ns x).
Proof.
  induction calls as [|calls IH]; intros r x Hr Hc; [lia|]. simpl.
  rewrite (Hch r _ (node_at_lt ns r Hr)).
  rewrite elem_of_cons, list_elem_of_bind. split.
  - intros [->|(c & Hx & Hcin)]; [split; [done|by apply path_self]|].
    destruct (children_of_lt net ns r c Hinv Hcin) as [Hrc Hcl].
    apply IH in Hx as [Hx Hcx]; [|done|lia]. split; [done|].
    apply (elem_of_prefix (path_to_root (node_at ns c)));
      [|by apply path_prefix].
    rewrite (child_path r c Hcin). apply elem_of_app. left.
    by apply path_self.
  - intros [Hx Hrx]. destruct (decide (x = r)) as [|Hne]; [by left|right].
    destruct (child_on_path r x Hx Hrx Hne) as (c & Hcin & Hcx).
    exists c. split; [|done].
    destruct (children_of_lt net ns r c Hinv Hcin) as [Hrc Hcl].
    apply IH; [done|lia|done].
Qed.

Lemma preorder_NoDup calls : ∀ r,
  r < length ns → length ns ≤ calls + r → NoDup (preorder calls ns r).
Proof.
  induction calls as [|calls IH]; intros r Hr Hc; [lia|]. simpl.
  rewrite (Hch r _ (node_at_lt ns r Hr)).
  apply NoDup_cons. split.
  - intros (c & Hx & Hcin)%list_elem_of_bind.
    destruct (children_of_lt net ns r c Hinv Hcin) as [Hrc Hcl].
    apply preorder_elem in Hx as [_ Hx]; [|done|lia].
    apply path_le in Hx; [lia|done].
  - apply NoDup_bind.
    + intros c1 c2 y Hc1 Hc2 Hy1 Hy2.
      destruct (children_of_lt net ns r c1 Hinv Hc1) as [Hrc1 Hcl1].
      destruct (children_of_lt net ns r c2 Hinv Hc2) as [Hrc2 Hcl2].
      apply preorder_elem in Hy1 as [Hy Hy1]; [|done|lia].
      apply preorder_elem in Hy2 as [_ Hy2]; [|done|lia].
      apply path_prefix in Hy1 as [k1 E1]; [|done].
      apply path_prefix in Hy2 as [k2 E2]; [|done].
      rewrite E1, (child_path r c1 Hc1), (child_path r c2 Hc2) in E2.
      rewrite <-!app_assoc in E2. apply app_inv_head in E2.
      by injection E2.
    + intros c Hcin.
      destruct (children_of_lt net ns r c Hinv Hcin) as [Hrc Hcl].
      apply IH; lia.
    + apply NoDup_filter, NoDup_seq.
Qed.

Lemma preorder_all calls :
  0 < length ns → length ns ≤ calls →
  preorder calls ns 0 ≡ₚ seq 0 (length ns).
Proof.
  intros Hpos Hc.
  apply NoDup_Permutation; [apply preorder_NoDup; lia|apply NoDup_seq|].
  intros x. rewrite preorder_elem, elem_of_seq by lia.
  split; [intros []; lia|]. intros [_ Hx]. simpl in Hx. split; [done|].
  pose proof (nodes_inv_path_head net ns Hinv x _ (node_at_lt ns x Hx)) as Hh.
  destruct (path_to_root _); [done|]. injection Hh as ->. by left.
Qed.

Lemma preorder_parent_first calls : ∀ r i x q,
  r < length ns → length ns ≤ calls + r →
  preorder calls ns r !! i = Some x → x ≠ r →
  parent (node_at ns x) = Some q →
  ∃ j, j < i ∧ preorder calls ns r !! j = Some q.
Proof.
  induction calls as [|calls IH]; intros r i x q Hr Hc; [lia|]. simpl.
  rewrite (Hch r _ (node_at_lt ns r Hr)).
  destruct i as [|i]; simpl; [by intros [= ->]|].
  intros Hi Hne Hpar.
  apply bind_lookup_inv in Hi as (c & off & k & Hcin & -> & Hk & Hall).
  destruct (children_of_lt net ns r c Hinv Hcin) as [Hrc Hcl].
  destruct (decide (x = c)) as [->|Hxc].
  - exists 0. split; [lia|]. simpl.
    apply list_elem_of_filter in Hcin as [Hp _]. by rewrite Hp in Hpar.
  - destruct (IH c k x q Hcl ltac:(lia) Hk Hxc Hpar) as (j & Hj & Hq).
    exists (S (off + j)). split; [lia|]. simpl. by apply Hall.
Qed.

Lemma recurse_preorder max_str_digits calls :
  printable max_str_digits ns → ∀ r,
  r < length ns → length ns ≤ calls + r →
  ∃ lines,
    recurse max_str_digits calls ns r (depth ns r) = Ok lines
    ∧ Forall2 (λ x line,
        info max_str_digits ns (node_at ns x) (depth ns x) = Ok line)
        (preorder calls ns r) lines.
Proof.
  intros Hpr.
  induction calls as [|calls IH]; intros r Hr Hc; [lia|]. simpl.
  destruct (info_total max_str_digits ns r (depth ns r) Hpr Hr)
    as [line Hline].
  rewrite Hline. simpl.
  destruct (res_mapM_Forall2
              (λ child, recurse max_str_digits calls ns child (S (depth ns r)))
              (λ c ls, Forall2 (λ x line,
                 info max_str_digits ns (node_at ns x) (depth ns x) = Ok line)
                 (preorder calls ns c) ls)
              (children (node_at ns r))) as (rest & Hrest & Hall).
  { intros c Hcin. rewrite (Hch r _ (node_at_lt ns r Hr)) in Hcin.
    destruct (children_of_lt net ns r c Hinv Hcin) as [Hrc Hcl].
    rewrite <-(child_depth r c Hr Hcin). apply IH; lia. }
  rewrite Hrest. simpl. eexists. split; [done|].
  constructor; [done|]. by apply Forall2_bind_concat.
Qed.
End TreeText.

(** [tree_to_text] on what [build_tree] leaves, completed or not, returns
    a text when it may nest as many calls as there are nodes and every number
    it prints has no more digits than [str] converts.  The text has one line
    per node: the lines are those that [info] gives for a list [order] of all
    the nodes, each once, that starts with the root and has every other node
    after its parent; the line of a node is indented by its depth, which is
    0 for the root and one more than its parent's for any other node. *)
Theorem tree_to_text_lines net fuel max_str_digits calls :
  let st := final_state (build_tree net fuel) in
  let ns := nodes st in
  length ns ≤ calls → printable max_str_digits ns →
  ∃ order lines,
    tree_to_text max_str_digits calls st = Ok (join newline lines)
    ∧ Forall2 (λ x line,
        info max_str_digits ns (node_at ns x) (depth ns x) = Ok line)
        order lines
    ∧ order ≡ₚ seq 0 (length ns)
    ∧ head order = Some 0
    ∧ (∀ i x q, order !! i = Some x → parent (node_at ns x) = Some q →
         ∃ j, j < i ∧ order !! j = Some q)
    ∧ depth ns 0 = 0
    ∧ (∀ x q, x < length ns → parent (node_at ns x) = Some q →
         depth ns x = S (depth ns q)).
Proof.
  intros st ns Hcalls Hpr.
  pose proof (build_loop_shape net fuel _ (init_shape net)) as [_ _ Hinv].
  destruct (build_loop_links net fuel _ (init_shape net) (init_tags net)
              (init_links net)) as [ph [Hlen _ Hch _]].
  fold (build_tree net fuel) in Hinv, Hch, Hlen. fold st in Hinv, Hch, Hlen.
  fold ns in Hinv, Hch, Hlen.
  assert (0 < length ns) as Hpos by lia.
  assert (∀ x q, x < length ns → parent (node_at ns x) = Some q →
            q < length ns ∧ x ∈ children_of ns q) as Hpc.
  { intros x q Hx Hq.
    assert (x ∈ children_of ns q) as Hin.
    { apply list_elem_of_filter. split; [done|]. apply elem_of_seq. lia. }
    split; [|done]. destruct (children_of_lt net ns q x Hinv Hin). lia. }
  assert (depth ns 0 = 0) as Hd0.
  { destruct (node_path_cases net ns Hinv 0 Hpos)
      as [(_ & _ & Hp)|(q' & _ & ? & _)]; [|lia].
    unfold depth. by rewrite Hp. }
  destruct (recurse_preorder net ns Hinv Hch max_str_digits calls Hpr 0 Hpos
              ltac:(lia)) as (lines & Hrec & Hlines).
  rewrite Hd0 in Hrec.
  exists (preorder calls ns 0), lines. split_and!.
  - unfold tree_to_text. unfold st, build_tree.
    rewrite build_loop_root. simpl.
    fold (build_tree net fuel). fold st. fold ns.
    by rewrite Hrec.
  - done.
  - by apply (preorder_all net ns Hinv Hch).
  - destruct calls; [lia|done].
  - intros i x q Hi Hq.
    apply (preorder_parent_first net ns Hinv Hch calls 0 i x q);
      [done|lia|done| |done].
    intros ->.
    destruct (node_path_cases net ns Hinv 0 Hpos)
      as [(_ & Hp & _)|(q' & _ & ? & _)]; [|lia].
    by rewrite Hp in Hq.
  - done.
  - intros x q Hx Hq. destruct (Hpc x q Hx Hq) as [Hql Hin].
    by apply (child_depth net ns Hinv).
Qed.

Lemma tree_to_text_lines_witness :
  let st := final_state (build_tree scenario1 5) in
  let ns := nodes st in
  length ns ≤ 10 ∧ printable 4300 ns
  ∧ ∃ order lines,
      tree_to_text 4300 10 st = Ok (join newline lines)
      ∧ Forall2 (λ x line,
          info 4300 ns (node_at ns x) (depth ns x) = Ok line) order lines
      ∧ order ≡ₚ seq 0 (length ns)
      ∧ head order = Some 0
      ∧ (∀ i x q, order !! i = Some x → parent (node_at ns x) = Some q →
           ∃ j, j < i ∧ order !! j = Some q)
      ∧ depth ns 0 = 0
      ∧ (∀ x q, x < length ns → parent (node_at ns x) = Some q →
           depth ns x = S (depth ns q)).
Proof.
  intros st ns.
  assert (printable 4300 ns) as Hpr.
  { repeat constructor; right; by vm_compute. }
  split; [vm_compute; lia|]. split; [exact Hpr|].
  apply (tree_to_text_lines scenario1 5 4300 10); [vm_compute; lia|exact Hpr].
Defined.

Lemma fire_transition_error_branch_witness :
  dict_get (transitions scenario1) "t9" = None
  ∧ is_enabled scenario1 "t9" [Fin 1] = Ok false.
Proof.
  split; [reflexivity|].
  apply (fire_transition_error_branch scenario1 "t9" [Fin 1]). reflexivity.
Defined.

(** ** The paths to the root *)

Lemma path_chain net ns :
  nodes_inv net ns →
  ∀ r, r < length ns →
  ∀ i a b, path_to_root (node_at ns r) !! i = Some a →
           path_to_root (node_at ns r) !! S i = Some b →
           parent (node_at ns b) = Some a.
Proof.
  intros Hinv r. induction (lt_wf r) as [r _ IH]. intros Hr i a b Ha Hb.
  destruct (node_path_cases net ns Hinv r Hr)
    as [(-> & _ & Hp)|(q & Hq & Hlt & Hp)].
  - rewrite Hp in Hb. by destruct i.
  - rewrite Hp in Ha, Hb. apply lookup_app_Some in Hb as [Hb|[Hle Hb]].
    + pose proof (lookup_lt_Some _ _ _ Hb) as Hi.
      rewrite lookup_app_l in Ha by lia.
      by apply (IH q Hlt ltac:(lia) i a b).
    + pose proof (lookup_lt_Some _ _ _ Hb) as Hi. simpl in Hi.
      replace (S i - length (path_to_root (node_at ns q))) with 0 in Hb
        by lia.
      injection Hb as <-.
      destruct (Hinv q _ (node_at_lt ns q ltac:(lia)))
        as (_ & _ & p & Hpq & _).
      rewrite Hpq in Ha, Hle, Hi. rewrite length_app in Hle, Hi.
      simpl in Hle, Hi.
      rewrite lookup_app_l in Ha by (rewrite length_app; simpl; lia).
      rewrite lookup_app_r in Ha by lia.
      replace (i - length p) with 0 in Ha by lia.
      injection Ha as <-. done.
Qed.

(** [path_to_root] is the chain of ancestors: in whatever [build_tree]
    leaves, the path of a node starts at the root and ends at the node
    itself, every entry is the parent of the next, and the entries were
    created in that order; only the root has no parent. *)
Theorem tree_path_to_root net fuel r n :
  let ns := nodes (final_state (build_tree net fuel)) in
  ns !! r = Some n →
  head (path_to_root n) = Some 0
  ∧ last (path_to_root n) = Some r
  ∧ (∀ i a b, path_to_root n !! i = Some a → path_to_root n !! S i = Some b →
       parent (node_at ns b) = Some a ∧ a < b)
  ∧ (parent n = None ↔ r = 0).
Proof.
  intros ns Hn.
  pose proof (build_loop_shape net fuel _ (init_shape net)) as [_ _ Hinv].
  fold (build_tree net fuel) in Hinv. fold ns in Hinv.
  pose proof (lookup_lt_Some _ _ _ Hn) as Hr.
  assert (n = node_at ns r) as ->.
  { rewrite (node_at_lt ns r Hr) in Hn. by injection Hn. }
  split_and!.
  - by apply (nodes_inv_path_head net ns Hinv r), node_at_lt.
  - destruct (Hinv r _ (node_at_lt ns r Hr)) as (_ & _ & p & -> & _).
    apply last_snoc.
  - intros i a b Ha Hb.
    pose proof (path_chain net ns Hinv r Hr i a b Ha Hb) as Hpar.
    split; [done|].
    assert (b < length ns) as Hbl.
    { apply list_elem_of_lookup_2 in Hb.
      apply (path_le net ns Hinv r b Hr) in Hb. lia. }
    destruct (node_path_cases net ns Hinv b Hbl)
      as [(_ & Hp & _)|(q & Hq & Hlt & _)].
    + by rewrite Hp in Hpar.
    + rewrite Hq in Hpar. by injection Hpar as <-.
  - destruct (node_path_cases net ns Hinv r Hr)
      as [(-> & Hp & _)|(q & Hq & Hlt & _)].
    + done.
    + rewrite Hq. split; [done|lia].
Qed.

Lemma tree_path_to_root_witness :
  let ns := nodes (final_state (build_tree scenario1 5)) in
  ∃ n, ns !! 1 = Some n
    ∧ head (path_to_root n) = Some 0
    ∧ last (path_to_root n) = Some 1
    ∧ (∀ i a b, path_to_root n !! i = Some a →
         path_to_root n !! S i = Some b →
         parent (node_at ns b) = Some a ∧ a < b)
    ∧ (parent n = None ↔ 1 = 0).
Proof.
  intros ns. eexists. split; [reflexivity|].
  apply (tree_path_to_root scenario1 5 1). reflexivity.
Defined.
